(** * plexctl: streaming ingestion, pacing and conversation store

    A shallow embedding of [cmd/plexctl/main.go] together with the
    properties its specification states about the event reassembler,
    the paced emitter, the stream orchestrator, the conversation store
    and the path check.

    Go values are represented as follows.
    - [string] and [[]byte] are both byte sequences: [bytes = list byte].
    - [int] is [Z]; lengths are [Z.of_nat (length _)].
    - [rune] is [Z] (a code point).
    - a function returning [(T, error)] returns a [result]; one that
      returns an [error] and changes the world returns an
      [option error] and the new world.
    - the filesystem, the event reader and the character channel are
      explicit state. *)

From Stdlib Require Import Strings.String Strings.Byte.
From Stdlib Require Import ZArith Lia Bool List Permutation Relations.
Import ListNotations.

Local Open Scope Z_scope.
Local Open Scope list_scope.

(* ================================================================= *)
(** ** Byte strings *)

#[local] Set Warnings "-notation-for-abbreviation".
Notation bytes := (list byte) (only parsing).

(** Source literals.  [bs "abc"] is the byte string of the literal. *)
Definition bs (s : string) : bytes := list_byte_of_string s.

(** JSON samples are written with a single quote where JSON has a
    double quote; [js] puts the double quotes (byte 0x22) back. *)
Definition js (s : string) : bytes :=
  map (fun b => if Byte.eqb b x27 then x22 else b) (bs s).

Definition len {A} (l : list A) : Z := Z.of_nat (length l).

Fixpoint bytes_eqb (a b : bytes) : bool :=
  match a, b with
  | [], [] => true
  | x :: a', y :: b' => Byte.eqb x y && bytes_eqb a' b'
  | _, _ => false
  end.

(** [strings.HasPrefix] / [bytes.HasPrefix]. *)
Fixpoint HasPrefix (s prefix : bytes) {struct prefix} : bool :=
  match prefix with
  | [] => true
  | p :: prefix' =>
      match s with
      | [] => false
      | c :: s' => Byte.eqb c p && HasPrefix s' prefix'
      end
  end.

(** [strings.HasSuffix]. *)
Definition HasSuffix (s suffix : bytes) : bool :=
  HasPrefix (rev s) (rev suffix).

(** [bytes.Index]: position of the first occurrence of [sep] in [s],
    or -1. *)
Fixpoint Index_from (i : Z) (s sep : bytes) : Z :=
  if HasPrefix s sep then i
  else match s with
       | [] => -1
       | _ :: s' => Index_from (i + 1) s' sep
       end.

Definition Index (s sep : bytes) : Z := Index_from 0 s sep.

(** [bytes.Contains] / [strings.Contains]. *)
Definition Contains (b sub : bytes) : bool := negb (Index b sub =? -1).

(** The slice expression [s[i:]] for [0 <= i <= len s]. *)
Definition slice_from (s : bytes) (i : Z) : bytes := skipn (Z.to_nat i) s.

(** The slice expression [s[:i]] for [0 <= i <= len s]. *)
Definition slice_to (s : bytes) (i : Z) : bytes := firstn (Z.to_nat i) s.

(* ================================================================= *)
(** ** Runes and UTF-8 (packages [unicode/utf8], [unicode/utf16])

    The source ranges over a string rune by rune ([for _, r := range
    txt]) and prints runes with [%c]; [encoding/json] sanitises the
    strings it decodes.  These are the library functions involved. *)

Definition rune := Z.

Definition RuneError : rune := 0xFFFD.

Definition b2z (b : byte) : Z := Z.of_N (Byte.to_N b).

Definition z2b (z : Z) : byte :=
  match Byte.of_N (Z.to_N (z mod 256)) with
  | Some b => b
  | None => x00
  end.

Definition in_range (b : byte) (lo hi : Z) : bool :=
  (lo <=? b2z b) && (b2z b <=? hi).

(** The payload bits of a continuation byte. *)
Definition cont (b : byte) : Z := Z.land (b2z b) 0x3F.

(** [utf8.DecodeRune]: the first rune of [s] and its width in bytes;
    [(RuneError, 1)] on an invalid or truncated encoding and
    [(RuneError, 0)] on the empty string. *)
Definition DecodeRune (s : bytes) : rune * Z :=
  match s with
  | [] => (RuneError, 0)
  | b0 :: t =>
      let c0 := b2z b0 in
      if c0 <? 0x80 then (c0, 1)
      else if (0xC2 <=? c0) && (c0 <=? 0xDF) then
        match t with
        | b1 :: _ =>
            if in_range b1 0x80 0xBF
            then (Z.lor (Z.shiftl (Z.land c0 0x1F) 6) (cont b1), 2)
            else (RuneError, 1)
        | _ => (RuneError, 1)
        end
      else if (0xE0 <=? c0) && (c0 <=? 0xEF) then
        let lo := if c0 =? 0xE0 then 0xA0 else 0x80 in
        let hi := if c0 =? 0xED then 0x9F else 0xBF in
        match t with
        | b1 :: b2 :: _ =>
            if in_range b1 lo hi && in_range b2 0x80 0xBF
            then (Z.lor (Z.shiftl (Z.land c0 0x0F) 12)
                    (Z.lor (Z.shiftl (cont b1) 6) (cont b2)), 3)
            else (RuneError, 1)
        | _ => (RuneError, 1)
        end
      else if (0xF0 <=? c0) && (c0 <=? 0xF4) then
        let lo := if c0 =? 0xF0 then 0x90 else 0x80 in
        let hi := if c0 =? 0xF4 then 0x8F else 0xBF in
        match t with
        | b1 :: b2 :: b3 :: _ =>
            if in_range b1 lo hi && in_range b2 0x80 0xBF
               && in_range b3 0x80 0xBF
            then (Z.lor (Z.shiftl (Z.land c0 0x07) 18)
                    (Z.lor (Z.shiftl (cont b1) 12)
                       (Z.lor (Z.shiftl (cont b2) 6) (cont b3))), 4)
            else (RuneError, 1)
        | _ => (RuneError, 1)
        end
      else (RuneError, 1)
  end.

(** [utf8.AppendRune] on an empty destination. *)
Definition EncodeRune (r : rune) : bytes :=
  if (0 <=? r) && (r <=? 0x7F) then [z2b r]
  else if (0 <=? r) && (r <=? 0x7FF) then
    [z2b (Z.lor 0xC0 (Z.shiftr r 6)); z2b (Z.lor 0x80 (Z.land r 0x3F))]
  else if (r <? 0) || (0x10FFFF <? r)
          || ((0xD800 <=? r) && (r <=? 0xDFFF)) then
    [xef; xbf; xbd]
  else if r <=? 0xFFFF then
    [z2b (Z.lor 0xE0 (Z.shiftr r 12));
     z2b (Z.lor 0x80 (Z.land (Z.shiftr r 6) 0x3F));
     z2b (Z.lor 0x80 (Z.land r 0x3F))]
  else
    [z2b (Z.lor 0xF0 (Z.shiftr r 18));
     z2b (Z.lor 0x80 (Z.land (Z.shiftr r 12) 0x3F));
     z2b (Z.lor 0x80 (Z.land (Z.shiftr r 6) 0x3F));
     z2b (Z.lor 0x80 (Z.land r 0x3F))].

(** The runes a [range] loop over the string [s] visits, in order. *)
Fixpoint runes_fuel (n : nat) (s : bytes) : list rune :=
  match n with
  | O => []
  | S n' =>
      match s with
      | [] => []
      | _ :: _ =>
          let '(r, w) := DecodeRune s in
          r :: runes_fuel n' (slice_from s w)
      end
  end.

Definition runes (s : bytes) : list rune := runes_fuel (length s) s.

(** [utf16.IsSurrogate] and [utf16.DecodeRune]. *)
Definition IsSurrogate (r : rune) : bool := (0xD800 <=? r) && (r <? 0xE000).

Definition utf16_DecodeRune (r1 r2 : rune) : rune :=
  if (0xD800 <=? r1) && (r1 <? 0xDC00) && (0xDC00 <=? r2) && (r2 <? 0xE000)
  then Z.lor (Z.shiftl (r1 - 0xD800) 10) (r2 - 0xDC00) + 0x10000
  else RuneError.

(* ================================================================= *)
(** ** JSON text (package [encoding/json])

    [json.Unmarshal] first checks that the whole input is one valid
    JSON text and then stores it into the destination.  The syntax
    accepted is that of the library's scanner. *)

#[local] Unset Elimination Schemes.
Inductive json : Type :=
| JNull
| JBool (b : bool)
| JNumber (lit : bytes)
| JString (s : bytes)
| JArray (elems : list json)
| JObject (members : list (bytes * json)).
#[local] Set Elimination Schemes.

Definition isSpace (c : byte) : bool :=
  Byte.eqb c x20 || Byte.eqb c x09 || Byte.eqb c x0d || Byte.eqb c x0a.

Fixpoint skipSpace (s : bytes) : bytes :=
  match s with
  | c :: t => if isSpace c then skipSpace t else s
  | [] => []
  end.

Definition isDigit (c : byte) : bool := in_range c 0x30 0x39.

Definition hexval (c : byte) : option Z :=
  if in_range c 0x30 0x39 then Some (b2z c - 0x30)
  else if in_range c 0x61 0x66 then Some (b2z c - 0x61 + 10)
  else if in_range c 0x41 0x46 then Some (b2z c - 0x41 + 10)
  else None.

(** Four hexadecimal digits at the head of [s]. *)
Definition hex4 (s : bytes) : option (Z * bytes) :=
  match s with
  | h1 :: h2 :: h3 :: h4 :: t =>
      match hexval h1, hexval h2, hexval h3, hexval h4 with
      | Some a, Some b, Some c, Some d =>
          Some (a * 4096 + b * 256 + c * 16 + d, t)
      | _, _, _, _ => None
      end
  | _ => None
  end.

(** The escapes of one character after a backslash. *)
Definition simpleEscape (e : byte) : option byte :=
  if Byte.eqb e x22 then Some x22            (* quote *)
  else if Byte.eqb e x5c then Some x5c       (* backslash *)
  else if Byte.eqb e x2f then Some x2f       (* slash *)
  else if Byte.eqb e x62 then Some x08       (* b *)
  else if Byte.eqb e x66 then Some x0c       (* f *)
  else if Byte.eqb e x6e then Some x0a       (* n *)
  else if Byte.eqb e x72 then Some x0d       (* r *)
  else if Byte.eqb e x74 then Some x09       (* t *)
  else None.

Definition consTo (pre : bytes) (r : option (bytes * bytes))
  : option (bytes * bytes) :=
  match r with
  | Some (body, rest) => Some (pre ++ body, rest)
  | None => None
  end.

(** The scanner inside a string literal, after the opening quote: the
    raw text up to the closing quote, and what follows it. *)
Fixpoint scanString (s : bytes) : option (bytes * bytes) :=
  match s with
  | [] => None
  | c :: t =>
      if Byte.eqb c x22 then Some ([], t)
      else if Byte.eqb c x5c then
        match t with
        | [] => None
        | e :: t' =>
            match simpleEscape e with
            | Some _ => consTo [c; e] (scanString t')
            | None =>
                if Byte.eqb e x75 then
                  match t' with
                  | h1 :: h2 :: h3 :: h4 :: t'' =>
                      match hex4 [h1; h2; h3; h4] with
                      | Some _ =>
                          consTo [c; e; h1; h2; h3; h4] (scanString t'')
                      | None => None
                      end
                  | _ => None
                  end
                else None
            end
        end
      else if b2z c <? 0x20 then None
      else consTo [c] (scanString t)
  end.

(** [getu4]: the code unit of a [\uXXXX] escape at the head of [s],
    or -1. *)
Definition getu4 (s : bytes) : Z :=
  match s with
  | b :: u :: t =>
      if Byte.eqb b x5c && Byte.eqb u x75 then
        match hex4 t with
        | Some (r, _) => r
        | None => -1
        end
      else -1
  | _ => -1
  end.

(** [unquoteBytes] on the raw text of a literal: escapes are replaced,
    surrogate pairs combined and invalid UTF-8 replaced by U+FFFD. *)
Fixpoint unquote_fuel (n : nat) (s : bytes) : option bytes :=
  match s with
  | [] => Some []
  | c :: t =>
      match n with
      | O => None
      | S n' =>
          if Byte.eqb c x5c then
            match t with
            | [] => None
            | e :: t' =>
                match simpleEscape e with
                | Some b => option_map (cons b) (unquote_fuel n' t')
                | None =>
                    if Byte.eqb e x75 then
                      let rr := getu4 s in
                      if rr <? 0 then None
                      else
                        let s1 := slice_from s 6 in
                        if IsSurrogate rr then
                          let dec := utf16_DecodeRune rr (getu4 s1) in
                          if negb (dec =? RuneError) then
                            option_map (app (EncodeRune dec))
                              (unquote_fuel n' (slice_from s1 6))
                          else
                            option_map (app (EncodeRune RuneError))
                              (unquote_fuel n' s1)
                        else
                          option_map (app (EncodeRune rr))
                            (unquote_fuel n' s1)
                    else None
                end
            end
          else if Byte.eqb c x22 || (b2z c <? 0x20) then None
          else if b2z c <? 0x80 then
            option_map (cons c) (unquote_fuel n' t)
          else
            let '(rr, size) := DecodeRune s in
            option_map (app (EncodeRune rr))
              (unquote_fuel n' (slice_from s size))
      end
  end.

Definition unquote (s : bytes) : option bytes := unquote_fuel (length s) s.

Fixpoint spanDigits (s : bytes) : bytes * bytes :=
  match s with
  | c :: t =>
      if isDigit c
      then let '(d, r) := spanDigits t in (c :: d, r)
      else ([], s)
  | [] => ([], [])
  end.

(** The scanner on a number: an optional minus sign, an integer part
    without leading zero, an optional fraction and an optional
    exponent. *)
Definition scanNumber (s : bytes) : option (bytes * bytes) :=
  let '(sign, s1) :=
    match s with
    | c :: t => if Byte.eqb c x2d then ([c], t) else ([], s)
    | [] => ([], s)
    end in
  let intPart :=
    match s1 with
    | c :: t =>
        if Byte.eqb c x30 then Some ([c], t)
        else if isDigit c then
          let '(d, r) := spanDigits t in Some (c :: d, r)
        else None
    | [] => None
    end in
  match intPart with
  | None => None
  | Some (ip, s2) =>
      let frac :=
        match s2 with
        | c :: t =>
            if Byte.eqb c x2e then
              match spanDigits t with
              | ([], _) => None
              | (d, r) => Some (c :: d, r)
              end
            else Some ([], s2)
        | [] => Some ([], s2)
        end in
      match frac with
      | None => None
      | Some (fp, s3) =>
          let ex :=
            match s3 with
            | c :: t =>
                if Byte.eqb c x65 || Byte.eqb c x45 then
                  let '(sg, t1) :=
                    match t with
                    | d :: t' =>
                        if Byte.eqb d x2b || Byte.eqb d x2d
                        then ([d], t') else ([], t)
                    | [] => ([], t)
                    end in
                  match spanDigits t1 with
                  | ([], _) => None
                  | (d, r) => Some (c :: sg ++ d, r)
                  end
                else Some ([], s3)
            | [] => Some ([], s3)
            end in
          match ex with
          | None => None
          | Some (ep, s4) => Some (sign ++ ip ++ fp ++ ep, s4)
          end
      end
  end.

(** The scanner refuses a text with more than this number of arrays
    and objects open at once. *)
Definition maxNestingDepth : Z := 10000.

(** One JSON value at the head of [s] (after optional white space) and
    the text that follows it.  [fuel] bounds the number of nested and
    chained calls; [depth] is the number of arrays and objects that
    are open around the value. *)
Fixpoint parseValue (fuel : nat) (depth : Z) (s : bytes) {struct fuel}
  : option (json * bytes) :=
  match fuel with
  | O => None
  | S f =>
      match skipSpace s with
      | [] => None
      | c :: t =>
          if Byte.eqb c x7b then                              (* { *)
            if maxNestingDepth <=? depth then None
            else
              match skipSpace t with
              | c' :: t' =>
                  if Byte.eqb c' x7d then Some (JObject [], t')
                  else
                    match parseMembers f (depth + 1) t with
                    | Some (ms, r) => Some (JObject ms, r)
                    | None => None
                    end
              | [] => None
              end
          else if Byte.eqb c x5b then                         (* [ *)
            if maxNestingDepth <=? depth then None
            else
              match skipSpace t with
              | c' :: t' =>
                  if Byte.eqb c' x5d then Some (JArray [], t')
                  else
                    match parseElems f (depth + 1) t with
                    | Some (vs, r) => Some (JArray vs, r)
                    | None => None
                    end
              | [] => None
              end
          else if Byte.eqb c x22 then
            match scanString t with
            | Some (body, r) =>
                match unquote body with
                | Some str => Some (JString str, r)
                | None => None
                end
            | None => None
            end
          else if Byte.eqb c x2d || isDigit c then
            match scanNumber (c :: t) with
            | Some (lit, r) => Some (JNumber lit, r)
            | None => None
            end
          else if HasPrefix (c :: t) (bs "true") then
            Some (JBool true, slice_from (c :: t) 4)
          else if HasPrefix (c :: t) (bs "false") then
            Some (JBool false, slice_from (c :: t) 5)
          else if HasPrefix (c :: t) (bs "null") then
            Some (JNull, slice_from (c :: t) 4)
          else None
      end
  end
with parseElems (fuel : nat) (depth : Z) (s : bytes) {struct fuel}
  : option (list json * bytes) :=
  match fuel with
  | O => None
  | S f =>
      match parseValue f depth s with
      | Some (v, r) =>
          match skipSpace r with
          | c :: r' =>
              if Byte.eqb c x2c then
                match parseElems f depth r' with
                | Some (vs, r'') => Some (v :: vs, r'')
                | None => None
                end
              else if Byte.eqb c x5d then Some ([v], r')
              else None
          | [] => None
          end
      | None => None
      end
  end
with parseMembers (fuel : nat) (depth : Z) (s : bytes) {struct fuel}
  : option (list (bytes * json) * bytes) :=
  match fuel with
  | O => None
  | S f =>
      match skipSpace s with
      | q :: t =>
          if Byte.eqb q x22 then
            match scanString t with
            | Some (kbody, r) =>
                match unquote kbody, skipSpace r with
                | Some k, colon :: r1 =>
                    if Byte.eqb colon x3a then
                      match parseValue f depth r1 with
                      | Some (v, r2) =>
                          match skipSpace r2 with
                          | c :: r3 =>
                              if Byte.eqb c x2c then
                                match parseMembers f depth r3 with
                                | Some (ms, r4) => Some ((k, v) :: ms, r4)
                                | None => None
                                end
                              else if Byte.eqb c x7d then Some ([(k, v)], r3)
                              else None
                          | [] => None
                          end
                      | None => None
                      end
                    else None
                | _, _ => None
                end
            | None => None
            end
          else None
      | [] => None
      end
  end.

(** The whole input as one JSON text: a value surrounded by optional
    white space and nothing else. *)
Definition parseJSON (s : bytes) : option json :=
  match parseValue (2 * length s + 2) 0 s with
  | Some (v, r) =>
      match skipSpace r with
      | [] => Some v
      | _ :: _ => None
      end
  | None => None
  end.

(* ================================================================= *)
(** ** Data model (main.go:39-78) *)

Record Message : Type := { Role : bytes; Content : bytes }.

Record Thread : Type := { ID : bytes; Messages : list Message }.

(** The field [Content] of [sseDelta]; the name is qualified because
    [Message] has a field of the same name. *)
Record sseDelta : Type := { sseDelta_Content : bytes }.

Record sseChoice : Type := { Delta : sseDelta; FinishReason : bytes }.

Record sseChunk : Type :=
  { Choices : list sseChoice; Citations : list bytes }.

(** Zero values. *)
Definition zero_sseDelta : sseDelta := {| sseDelta_Content := [] |}.
Definition zero_sseChoice : sseChoice :=
  {| Delta := zero_sseDelta; FinishReason := [] |}.
Definition zero_sseChunk : sseChunk := {| Choices := []; Citations := [] |}.
Definition zero_Message : Message := {| Role := []; Content := [] |}.
Definition zero_Thread : Thread := {| ID := []; Messages := [] |}.

(* ================================================================= *)
(** ** Storing JSON into the records (package [encoding/json])

    A decoder stores a JSON value into a current Go value and fails on
    a value of the wrong JSON type.  In the library a type mismatch is
    recorded and reported when [Unmarshal] returns; every caller in
    this program discards the destination on error, so the decoders
    stop at the first mismatch.  An object key selects the field of
    the same name up to case folding; other keys are skipped; [null]
    leaves a string or a struct unchanged and makes a slice nil. *)

(** [foldName]: ASCII letters in upper case; U+017F and U+212A are the
    two other runes that fold to an ASCII letter. *)
Fixpoint foldName (k : bytes) : bytes :=
  match k with
  | [] => []
  | c :: t =>
      if in_range c 0x61 0x7a then z2b (b2z c - 0x20) :: foldName t
      else
        match t with
        | c1 :: t1 =>
            if Byte.eqb c xc5 && Byte.eqb c1 xbf then x53 :: foldName t1
            else
              match t1 with
              | c2 :: t2 =>
                  if Byte.eqb c xe2 && Byte.eqb c1 x84 && Byte.eqb c2 xaa
                  then x4b :: foldName t2
                  else c :: foldName t
              | [] => c :: foldName t
              end
        | [] => c :: foldName t
        end
  end.

Definition keyIs (name : string) (key : bytes) : bool :=
  bytes_eqb (foldName key) (foldName (bs name)).

Definition storeString (cur : bytes) (v : json) : option bytes :=
  match v with
  | JString s => Some s
  | JNull => Some cur
  | _ => None
  end.

Section Store.
Context {T : Type}.

(** An object into a struct: the members in order, one field each. *)
Fixpoint storeMembers (setField : bytes -> json -> T -> option T)
    (ms : list (bytes * json)) (cur : T) : option T :=
  match ms with
  | [] => Some cur
  | (k, v) :: ms' =>
      match setField k v cur with
      | Some cur' => storeMembers setField ms' cur'
      | None => None
      end
  end.

Definition storeObject (setField : bytes -> json -> T -> option T)
    (cur : T) (v : json) : option T :=
  match v with
  | JObject ms => storeMembers setField ms cur
  | JNull => Some cur
  | _ => None
  end.

(** An array into a slice.  [cur] holds the elements of the current
    slice followed by those an earlier, longer value of the slice has
    left in its backing array: element [i] of the array is stored
    into element [i] of [cur] when there is one and into a zero value
    otherwise.  The result is the new slice, which ends with the
    array, and what is left behind it. *)
Fixpoint storeElems (zero : T) (storeElem : T -> json -> option T)
    (es : list json) (cur : list T) : option (list T * list T) :=
  match es with
  | [] => Some ([], cur)
  | e :: es' =>
      match storeElem (hd zero cur) e with
      | Some x =>
          match storeElems zero storeElem es' (tl cur) with
          | Some (l, behind) => Some (x :: l, behind)
          | None => None
          end
      | None => None
      end
  end.

(** The empty array and [null] give a new slice with nothing behind
    it. *)
Definition storeSlice (zero : T) (storeElem : T -> json -> option T)
    (cur behind : list T) (v : json) : option (list T * list T) :=
  match v with
  | JArray [] => Some ([], [])
  | JArray es => storeElems zero storeElem es (cur ++ behind)
  | JNull => Some ([], [])
  | _ => None
  end.
End Store.

Definition set_sseDelta (k : bytes) (v : json) (d : sseDelta)
  : option sseDelta :=
  if keyIs "content" k then
    option_map (fun s => {| sseDelta_Content := s |})
      (storeString (sseDelta_Content d) v)
  else Some d.

Definition set_sseChoice (k : bytes) (v : json) (c : sseChoice)
  : option sseChoice :=
  if keyIs "delta" k then
    option_map (fun d => {| Delta := d; FinishReason := FinishReason c |})
      (storeObject set_sseDelta (Delta c) v)
  else if keyIs "finish_reason" k then
    option_map (fun s => {| Delta := Delta c; FinishReason := s |})
      (storeString (FinishReason c) v)
  else Some c.

(** A record with slices while it is decoded: the record and what
    lies behind each of its slices. *)
Record sseChunk_dec : Type :=
  { dec_sseChunk : sseChunk;
    behind_Choices : list sseChoice;
    behind_Citations : list bytes }.

Record Thread_dec : Type :=
  { dec_Thread : Thread;
    behind_Messages : list Message }.

Definition set_sseChunk (k : bytes) (v : json) (d : sseChunk_dec)
  : option sseChunk_dec :=
  let c := dec_sseChunk d in
  if keyIs "choices" k then
    option_map
      (fun r => {| dec_sseChunk :=
                     {| Choices := fst r; Citations := Citations c |};
                   behind_Choices := snd r;
                   behind_Citations := behind_Citations d |})
      (storeSlice zero_sseChoice (storeObject set_sseChoice)
         (Choices c) (behind_Choices d) v)
  else if keyIs "citations" k then
    option_map
      (fun r => {| dec_sseChunk :=
                     {| Choices := Choices c; Citations := fst r |};
                   behind_Choices := behind_Choices d;
                   behind_Citations := snd r |})
      (storeSlice [] storeString (Citations c) (behind_Citations d) v)
  else Some d.

Definition set_Message (k : bytes) (v : json) (m : Message)
  : option Message :=
  if keyIs "role" k then
    option_map (fun s => {| Role := s; Content := Content m |})
      (storeString (Role m) v)
  else if keyIs "content" k then
    option_map (fun s => {| Role := Role m; Content := s |})
      (storeString (Content m) v)
  else Some m.

Definition set_Thread (k : bytes) (v : json) (d : Thread_dec)
  : option Thread_dec :=
  let th := dec_Thread d in
  if keyIs "id" k then
    option_map
      (fun s => {| dec_Thread := {| ID := s; Messages := Messages th |};
                   behind_Messages := behind_Messages d |})
      (storeString (ID th) v)
  else if keyIs "messages" k then
    option_map
      (fun r => {| dec_Thread := {| ID := ID th; Messages := fst r |};
                   behind_Messages := snd r |})
      (storeSlice zero_Message (storeObject set_Message)
         (Messages th) (behind_Messages d) v)
  else Some d.

(** [json.Unmarshal(data, &chunk)] on a zero [sseChunk]: [None] when
    it returns an error. *)
Definition json_Unmarshal_sseChunk (data : bytes) : option sseChunk :=
  match parseJSON data with
  | Some v =>
      option_map dec_sseChunk
        (storeObject set_sseChunk
           {| dec_sseChunk := zero_sseChunk; behind_Choices := [];
              behind_Citations := [] |} v)
  | None => None
  end.

(** [json.Unmarshal(data, &th)] on a zero [Thread]. *)
Definition json_Unmarshal_Thread (data : bytes) : option Thread :=
  match parseJSON data with
  | Some v =>
      option_map dec_Thread
        (storeObject set_Thread
           {| dec_Thread := zero_Thread; behind_Messages := [] |} v)
  | None => None
  end.

(* ================================================================= *)
(** ** Writing a [Thread] as JSON ([json.MarshalIndent] with an empty
    prefix and an indent of two spaces) *)

Definition hexDigit (n : Z) : byte :=
  if n <? 10 then z2b (0x30 + n) else z2b (0x61 + n - 10).

(** The body of a string literal, with HTML escaping as [Marshal]
    does it; a byte that is not part of a valid UTF-8 encoding is
    written as U+FFFD. *)
Fixpoint quoteBody (n : nat) (s : bytes) : bytes :=
  match n with
  | O => []
  | S n' =>
      match s with
      | [] => []
      | c :: t =>
          if b2z c <? 0x80 then
            (if Byte.eqb c x5c || Byte.eqb c x22 then [x5c; c]
             else if Byte.eqb c x08 then [x5c; x62]
             else if Byte.eqb c x0c then [x5c; x66]
             else if Byte.eqb c x0a then [x5c; x6e]
             else if Byte.eqb c x0d then [x5c; x72]
             else if Byte.eqb c x09 then [x5c; x74]
             else if (b2z c <? 0x20) || Byte.eqb c x3c || Byte.eqb c x3e
                     || Byte.eqb c x26 then
               [x5c; x75; x30; x30;
                hexDigit (Z.shiftr (b2z c) 4); hexDigit (Z.land (b2z c) 0xF)]
             else [c]) ++ quoteBody n' t
          else
            let '(r, size) := DecodeRune s in
            (if (r =? RuneError) && (size =? 1) then EncodeRune RuneError
             else if r =? 0x2028 then bs "\u2028"
             else if r =? 0x2029 then bs "\u2029"
             else slice_to s size) ++ quoteBody n' (slice_from s size)
      end
  end.

Definition quote (s : bytes) : bytes :=
  [x22] ++ quoteBody (length s) s ++ [x22].

Definition nl : bytes := [x0a].

Fixpoint join (sep : bytes) (l : list bytes) : bytes :=
  match l with
  | [] => []
  | [x] => x
  | x :: l' => x ++ sep ++ join sep l'
  end.

Definition marshal_Message (m : Message) : bytes :=
  bs "    {" ++ nl ++
  js "      'role': " ++ quote (Role m) ++ bs "," ++ nl ++
  js "      'content': " ++ quote (Content m) ++ nl ++
  bs "    }".

(** Go tells the nil slice, written [null], from a slice without
    elements that is not nil, written [[]]; the list [[]] stands for
    both.  A [Thread] that reaches [Save] in the program has at least
    one message.  This function writes the list without elements as
    the nil slice; [json_MarshalIndent_noMessages] below is the other
    text, and [marshalled] relates a conversation to both. *)
Definition json_MarshalIndent_Thread (th : Thread) : bytes :=
  bs "{" ++ nl ++
  js "  'id': " ++ quote (ID th) ++ bs "," ++ nl ++
  js "  'messages': " ++
  match Messages th with
  | [] => bs "null"
  | ms =>
      bs "[" ++ nl ++ join (bs "," ++ nl) (map marshal_Message ms) ++ nl ++
      bs "  ]"
  end ++ nl ++
  bs "}".

(* ================================================================= *)
(** ** Errors and results *)

Inductive error : Type :=
| io_EOF                              (* io.EOF *)
| context_Canceled                    (* context.Canceled *)
| ErrNew (msg : bytes)                (* errors.New, fmt.Errorf without %w *)
| ErrWrap (msg : bytes) (e : error)   (* fmt.Errorf with %w *)
| ErrOS (op path : bytes)             (* an error of package os *)
| ErrJSON                             (* an error of encoding/json *)
| ErrRead (msg : bytes).              (* a reader error other than io.EOF *)

(** [errors.Is(err, io.EOF)]. *)
Fixpoint errors_Is_EOF (e : error) : bool :=
  match e with
  | io_EOF => true
  | ErrWrap _ e' => errors_Is_EOF e'
  | _ => false
  end.

(** A Go result [(T, error)]. *)
Inductive result (A : Type) : Type :=
| Ok (a : A)
| Err (e : error).
Arguments Ok {A} a.
Arguments Err {A} e.

(** The three errors the specification names. *)
Definition ErrNotFound : error := ErrNew (bs "no matching thread found").

Definition ErrAmbiguousPrefix (idPrefix : bytes) : error :=
  ErrNew (bs "prefix '" ++ idPrefix ++ bs "' matched more than one thread").

Definition ErrPathViolation (filePath : bytes) : error :=
  ErrNew (bs "unsafe file path: " ++ filePath).

(* ================================================================= *)
(** ** Constants (main.go:25-37) *)

Definition stopCursorCode : bytes := [x1b] ++ bs "[?25l".
Definition startCursorCode : bytes := [x1b] ++ bs "[?25h".
Definition ssePrefixDataSize : Z := 6.
Definition smoothPrintBufferSize : Z := 1024.

(* ================================================================= *)
(** ** Paths (package [path/filepath], Unix) *)

Definition PathSeparator : byte := x2f.

Definition dot : bytes := bs ".".
Definition dotdot : bytes := bs "..".

(** The elements of a path between separators ([strings.Split]). *)
Fixpoint splitPath (p : bytes) : list bytes :=
  match p with
  | [] => [[]]
  | c :: t =>
      if Byte.eqb c PathSeparator then [] :: splitPath t
      else
        match splitPath t with
        | comp :: rest => (c :: comp) :: rest
        | [] => [[c]]
        end
  end.

(** One element in [filepath.Clean]; the stack holds the elements kept
    so far, the last one first. *)
Definition cleanStep (rooted : bool) (stack : list bytes) (comp : bytes)
  : list bytes :=
  if bytes_eqb comp [] || bytes_eqb comp dot then stack
  else if bytes_eqb comp dotdot then
    match stack with
    | top :: below =>
        if bytes_eqb top dotdot
        then (if rooted then stack else comp :: stack)
        else below
    | [] => if rooted then [] else [comp]
    end
  else comp :: stack.

(** A rooted path from its elements. *)
Definition rootedPath (comps : list bytes) : bytes :=
  PathSeparator :: join [PathSeparator] comps.

(** [filepath.Clean]. *)
Definition Clean (path : bytes) : bytes :=
  match path with
  | [] => dot
  | c :: _ =>
      let rooted := Byte.eqb c PathSeparator in
      let stack := fold_left (cleanStep rooted) (splitPath path) [] in
      if rooted then rootedPath (rev stack)
      else
        match stack with
        | [] => dot
        | _ :: _ => join [PathSeparator] (rev stack)
        end
  end.

(** [filepath.IsAbs]. *)
Definition IsAbs (path : bytes) : bool := HasPrefix path [PathSeparator].

(** [filepath.Join]: leading empty elements are dropped, the rest is
    joined with separators and cleaned. *)
Fixpoint filepath_Join (elem : list bytes) : bytes :=
  match elem with
  | [] => []
  | e :: rest =>
      match e with
      | [] => filepath_Join rest
      | _ :: _ => Clean (join [PathSeparator] elem)
      end
  end.

(** [filepath.Abs]; [wd] is what [os.Getwd] returns, [None] when it
    fails. *)
Definition filepath_Abs (wd : option bytes) (path : bytes) : result bytes :=
  if IsAbs path then Ok (Clean path)
  else
    match wd with
    | Some d => Ok (filepath_Join [d; path])
    | None => Err (ErrOS (bs "getwd") [])
    end.

(** [checkPath] (main.go:186-200). *)
Definition checkPath (wd : option bytes) (basePath filePath : bytes)
  : result bytes :=
  match filepath_Abs wd filePath with
  | Err e => Err e
  | Ok absFile =>
      match filepath_Abs wd basePath with
      | Err e => Err e
      | Ok absBase =>
          if negb (HasPrefix absFile (absBase ++ [PathSeparator]))
             && negb (bytes_eqb absFile absBase)
          then Err (ErrPathViolation filePath)
          else Ok absFile
      end
  end.

(* ================================================================= *)
(** ** The filesystem (package [os])

    Directories and regular files under their absolute clean paths:
    a path names at most one entry, and symbolic and hard links are
    not part of the model.  Limits on the length and the bytes of a
    file name and permissions are left out as well. *)

Record FS : Type :=
  { cwd : option bytes;
    dirs : list bytes;
    files : list (bytes * bytes) }.

Fixpoint mem (x : bytes) (l : list bytes) : bool :=
  match l with
  | [] => false
  | y :: l' => bytes_eqb x y || mem x l'
  end.

Fixpoint lookup (p : bytes) (l : list (bytes * bytes)) : option bytes :=
  match l with
  | [] => None
  | (q, d) :: l' => if bytes_eqb p q then Some d else lookup p l'
  end.

(** Overwrite the file [p] or create it after the existing ones. *)
Fixpoint update (p data : bytes) (l : list (bytes * bytes))
  : list (bytes * bytes) :=
  match l with
  | [] => [(p, data)]
  | (q, d) :: l' =>
      if bytes_eqb p q then (p, data) :: l' else (q, d) :: update p data l'
  end.

(** The path of the entry [name] of the directory [dir]. *)
Definition child (dir name : bytes) : bytes :=
  if bytes_eqb dir [PathSeparator] then dir ++ name
  else dir ++ [PathSeparator] ++ name.

(** The name under which [p] is an entry of [dir], if it is one. *)
Definition entryName (dir p : bytes) : option bytes :=
  let pre := child dir [] in
  if HasPrefix p pre then
    let name := skipn (length pre) p in
    if bytes_eqb name [] || Contains name [PathSeparator] then None
    else Some name
  else None.

Fixpoint entries (dir : bytes) (paths : list bytes) : list bytes :=
  match paths with
  | [] => []
  | p :: paths' =>
      match entryName dir p with
      | Some n => n :: entries dir paths'
      | None => entries dir paths'
      end
  end.

(** The directory that holds [p]: the text before the last separator. *)
Fixpoint parentDir_aux (p : bytes) : option bytes :=
  match p with
  | [] => None
  | c :: t =>
      match parentDir_aux t with
      | Some d => Some (c :: d)
      | None => if Byte.eqb c PathSeparator then Some [] else None
      end
  end.

Definition parentDir (p : bytes) : bytes :=
  match parentDir_aux p with
  | Some [] => [PathSeparator]
  | Some d => d
  | None => dot
  end.

(** The order of file names: byte strings compared byte by byte. *)
Fixpoint bytes_leb (a b : bytes) : bool :=
  match a, b with
  | [], _ => true
  | _ :: _, [] => false
  | x :: a', y :: b' =>
      if b2z x <? b2z y then true
      else if b2z y <? b2z x then false
      else bytes_leb a' b'
  end.

Fixpoint insertName (n : bytes) (l : list bytes) : list bytes :=
  match l with
  | [] => [n]
  | m :: l' => if bytes_leb n m then n :: l else m :: insertName n l'
  end.

Definition sortNames (l : list bytes) : list bytes :=
  fold_right insertName [] l.

(** The path [p] as the system resolves it: a relative path is taken
    from the working directory. *)
Definition resolve (fs : FS) (p : bytes) : option bytes :=
  if IsAbs p then Some p
  else
    match p, cwd fs with
    | _ :: _, Some d => Some (filepath_Join [d; p])
    | _, _ => None
    end.

(** [os.ReadDir]: the names of the entries of [dir], sorted by name. *)
Definition os_ReadDir (fs : FS) (dir : bytes) : result (list bytes) :=
  match resolve fs dir with
  | Some d =>
      if mem d (dirs fs)
      then Ok (sortNames (entries d (map fst (files fs) ++ dirs fs)))
      else Err (ErrOS (bs "open") dir)
  | None => Err (ErrOS (bs "open") dir)
  end.

(** [os.Open] followed by [io.ReadAll]. *)
Definition os_ReadFile (fs : FS) (p : bytes) : result bytes :=
  if mem p (dirs fs) then Err (ErrOS (bs "read") p)
  else
    match lookup p (files fs) with
    | Some d => Ok d
    | None => Err (ErrOS (bs "open") p)
    end.

(** [os.WriteFile]. *)
Definition os_WriteFile (fs : FS) (p data : bytes) : option error * FS :=
  if mem p (dirs fs) || negb (mem (parentDir p) (dirs fs))
  then (Some (ErrOS (bs "open") p), fs)
  else (None, {| cwd := cwd fs; dirs := dirs fs;
                 files := update p data (files fs) |}).

(** [safeReadFile] (main.go:156-172). *)
Definition safeReadFile (fs : FS) (basePath filePath : bytes)
  : result bytes :=
  match checkPath (cwd fs) basePath filePath with
  | Err e => Err e
  | Ok absFile => os_ReadFile fs absFile
  end.

(** [safeWriteFile] (main.go:174-184). *)
Definition safeWriteFile (fs : FS) (basePath filePath data : bytes)
  : option error * FS :=
  match checkPath (cwd fs) basePath filePath with
  | Err e => (Some e, fs)
  | Ok absFile => os_WriteFile fs absFile data
  end.

(* ================================================================= *)
(** ** The conversation store (main.go:56-154) *)

Record FSStore : Type := { basePath : bytes }.

(** The directories on the way to a path, the path included: for
    /a/b the root, /a and /a/b. *)
Fixpoint ancestors_from (pre comps : list bytes) : list bytes :=
  match comps with
  | [] => [rootedPath pre]
  | c :: comps' => rootedPath pre :: ancestors_from (pre ++ [c]) comps'
  end.

Definition ancestors (p : bytes) : list bytes :=
  ancestors_from []
    (filter (fun c => negb (bytes_eqb c [])) (splitPath p)).

(** The prefixes of a relative path that end at an element. *)
Fixpoint prefixes_from (pre comps : list bytes) : list bytes :=
  match comps with
  | [] => []
  | c :: comps' =>
      join [PathSeparator] (pre ++ [c]) :: prefixes_from (pre ++ [c]) comps'
  end.

(** The paths [os.MkdirAll] visits for [p], the shortest first. *)
Definition pathPrefixes (p : bytes) : list bytes :=
  if IsAbs p then ancestors p
  else
    prefixes_from []
      (filter (fun c => negb (bytes_eqb c [])) (splitPath p)).

Definition isFile (fs : FS) (p : bytes) : bool :=
  match lookup p (files fs) with
  | Some _ => true
  | None => false
  end.

Definition resolved (fs : FS) (p : bytes) : bytes :=
  match resolve fs p with
  | Some q => q
  | None => p
  end.

(** [os.MkdirAll]: the directory [p] and the missing directories on
    the way to it; it fails on the first entry on the way that is a
    file, and names it. *)
Definition os_MkdirAll (fs : FS) (p : bytes) : option error * FS :=
  match resolve fs p with
  | None => (Some (ErrOS (bs "mkdir") p), fs)
  | Some _ =>
      match find (fun q => isFile fs (resolved fs q)) (pathPrefixes p) with
      | Some q => (Some (ErrOS (bs "mkdir") q), fs)
      | None =>
          (None,
           {| cwd := cwd fs;
              dirs := dirs fs ++
                      filter (fun d => negb (mem d (dirs fs)))
                        (map (resolved fs) (pathPrefixes p));
              files := files fs |})
      end
  end.

(** [NewFSStore] (main.go:80-90); [home] is what [os.UserHomeDir]
    returns. *)
Definition NewFSStore (home : result bytes) (fs : FS)
  : result FSStore * FS :=
  match home with
  | Err err => (Err err, fs)
  | Ok h =>
      let base := filepath_Join [h; bs ".plexctl"; bs "threads"] in
      match os_MkdirAll fs base with
      | (Some err, fs') => (Err err, fs')
      | (None, fs') => (Ok {| basePath := base |}, fs')
      end
  end.

(** The interface [ThreadStore]: a store value of type [S] acting on a
    world of type [W]. *)
Class ThreadStore (S W : Type) : Type :=
  { Load : S -> bytes -> W -> result Thread;
    Save : S -> Thread -> W -> option error * W;
    List : S -> W -> result (list Thread) }.

Section FSStoreMethods.
(** [json.Unmarshal(data, &th)] and [json.MarshalIndent] of [th]. *)
Variable unmarshal : bytes -> option Thread.
Variable marshalIndent : Thread -> result bytes.

(** The loop of [Load] over the directory entries: the name matched so
    far, or the error that leaves the loop. *)
Fixpoint Load_scan (idPrefix : bytes) (names : list bytes) (mtch : bytes)
  : result bytes :=
  match names with
  | [] => Ok mtch
  | name :: names' =>
      if HasPrefix name idPrefix then
        if negb (bytes_eqb mtch [])
        then Err (ErrAmbiguousPrefix idPrefix)
        else Load_scan idPrefix names' name
      else Load_scan idPrefix names' mtch
  end.

(** [FSStore.Load] (main.go:92-122). *)
Definition FSStore_Load (st : FSStore) (idPrefix : bytes) (fs : FS)
  : result Thread :=
  match os_ReadDir fs (basePath st) with
  | Err e => Err e
  | Ok names =>
      match Load_scan idPrefix names [] with
      | Err e => Err e
      | Ok mtch =>
          if bytes_eqb mtch [] then Err ErrNotFound
          else
            let path := filepath_Join [basePath st; mtch] in
            match safeReadFile fs (basePath st) path with
            | Err e => Err e
            | Ok data =>
                match unmarshal data with
                | None => Err ErrJSON
                | Some th => Ok th
                end
            end
      end
  end.

(** [FSStore.Save] (main.go:124-131). *)
Definition FSStore_Save (st : FSStore) (th : Thread) (fs : FS)
  : option error * FS :=
  match marshalIndent th with
  | Err e => (Some e, fs)
  | Ok data =>
      let path := filepath_Join [basePath st; ID th ++ bs ".json"] in
      safeWriteFile fs (basePath st) path data
  end.

(** The loop of [List]; entries that are directories, that do not end
    in [.json], that cannot be read or that do not decode are skipped. *)
Fixpoint List_scan (st : FSStore) (fs : FS) (names : list bytes)
  : list Thread :=
  match names with
  | [] => []
  | name :: names' =>
      if mem (child (basePath st) name) (dirs fs)
         || negb (HasSuffix name (bs ".json"))
      then List_scan st fs names'
      else
        let path := filepath_Join [basePath st; name] in
        match safeReadFile fs (basePath st) path with
        | Err _ => List_scan st fs names'
        | Ok data =>
            match unmarshal data with
            | Some th => th :: List_scan st fs names'
            | None => List_scan st fs names'
            end
        end
  end.

(** [FSStore.List] (main.go:133-154). *)
Definition FSStore_List (st : FSStore) (fs : FS) : result (list Thread) :=
  match os_ReadDir fs (basePath st) with
  | Err e => Err e
  | Ok names => Ok (List_scan st fs names)
  end.

End FSStoreMethods.

(** The store of the program, with the library's JSON functions. *)
#[export] Instance FSStore_ThreadStore : ThreadStore FSStore FS :=
  { Load := FSStore_Load json_Unmarshal_Thread;
    Save := FSStore_Save (fun th => Ok (json_MarshalIndent_Thread th));
    List := FSStore_List json_Unmarshal_Thread }.

(* ================================================================= *)
(** ** The event reassembler and the stream orchestrator
       (main.go:349-425, 540-571) *)

(** The working state of one call of [readSSE]: the reassembly buffer
    [buf], the text [final], the citations [finalCitations], and the
    runes sent on [charCh] so far, oldest first. *)
Record sseState : Type :=
  { buf : bytes;
    final : bytes;
    finalCitations : list bytes;
    charCh : list rune }.

(** What [reader.ReadEvent()] returns. *)
Definition event : Type := bytes * option error.

(** A context as one call sees it: [None] when it is not cancelled
    while the call runs; [Some k] when it is cancelled and the [select]
    of the sending loop takes its [ctx.Done()] case after [k] sends. *)
Definition context_Context : Type := option nat.

(** [checkEventEnd] (main.go:540-563); the debug output on stderr is
    left out. *)
Definition checkEventEnd (raw : bytes) (err : option error)
  : bool * option error :=
  match err with
  | Some e =>
      if errors_Is_EOF e then (true, None)
      else (true, Some (ErrWrap (bs "SSE read") e))
  | None =>
      if Contains raw (bs "[DONE]") then (true, None) else (false, None)
  end.

(** [appendSSEChunk] (main.go:565-571): the buffer after the write. *)
Definition appendSSEChunk (buf raw : bytes) (dataIdx : Z) : bytes :=
  if dataIdx =? -1 then buf ++ raw
  else buf ++ slice_from raw (dataIdx + ssePrefixDataSize).

(** The loop [for _, r := range txt { select ... }] of
    [processSSEChunk]. *)
Fixpoint sendRunes (ctx : context_Context) (rs : list rune) (ch : list rune)
  : option error * list rune :=
  match rs with
  | [] => (None, ch)
  | r :: rs' =>
      match ctx with
      | Some O => (Some context_Canceled, ch)
      | Some (S k) => sendRunes (Some k) rs' (ch ++ [r])
      | None => sendRunes None rs' (ch ++ [r])
      end
  end.

Section Stream.
(** [json.Unmarshal(buf.Bytes(), &chunk)] on a zero [chunk]. *)
Variable unmarshal : bytes -> option sseChunk.

(** [processSSEChunk] (main.go:387-425). *)
Definition processSSEChunk (ctx : context_Context) (raw : bytes) (st : sseState)
  : option error * sseState :=
  if len raw =? 0 then (None, st)
  else
    let dataIdx := Index raw (bs "data: ") in
    let buf1 := appendSSEChunk (buf st) raw dataIdx in
    match unmarshal buf1 with
    | None =>
        (None, {| buf := buf1; final := final st;
                  finalCitations := finalCitations st;
                  charCh := charCh st |})
    | Some chunk =>
        let cits :=
          if 0 <? len (Citations chunk) then Citations chunk
          else finalCitations st in
        match Choices chunk with
        | [] =>
            (None, {| buf := []; final := final st;
                      finalCitations := cits; charCh := charCh st |})
        | c0 :: _ =>
            let txt := sseDelta_Content (Delta c0) in
            let '(err, ch) := sendRunes ctx (runes txt) (charCh st) in
            (err, {| buf := []; final := final st ++ txt;
                     finalCitations := cits; charCh := ch |})
        end
    end.

(** The Structured Chunk a call of [processSSEChunk] decodes, if it
    decodes one: the value of [chunk] after a successful
    [json.Unmarshal]. *)
Definition decoded (raw : bytes) (st : sseState) : option sseChunk :=
  if len raw =? 0 then None
  else unmarshal (appendSSEChunk (buf st) raw (Index raw (bs "data: "))).

(** The chunks decoded while the frames [frames] are processed in
    order, starting in the state [st]. *)
Fixpoint emitted (ctx : context_Context) (frames : list bytes) (st : sseState)
  : list sseChunk :=
  match frames with
  | [] => []
  | raw :: rest =>
      match decoded raw st with
      | Some c => [c]
      | None => []
      end ++ emitted ctx rest (snd (processSSEChunk ctx raw st))
  end.

(** The state after the frames [frames]. *)
Fixpoint processAll (ctx : context_Context) (frames : list bytes) (st : sseState)
  : sseState :=
  match frames with
  | [] => st
  | raw :: rest => processAll ctx rest (snd (processSSEChunk ctx raw st))
  end.

(** What [readSSE] returns, and the runes it has sent to the printer
    before it closed the channel. *)
Record sseOutcome : Type :=
  { ret_final : bytes;
    ret_citations : list bytes;
    ret_err : option error;
    sent : list rune }.

(** The loop of [readSSE] (main.go:365-383) over the events the reader
    delivers; [None] when the events end before the loop does, that is
    when the call is still waiting in [ReadEvent]. *)
Fixpoint readSSE_loop (ctx : context_Context) (events : list event) (st : sseState)
  : option sseOutcome :=
  match events with
  | [] => None
  | (raw, err) :: rest =>
      let '(done, checkErr) := checkEventEnd raw err in
      match checkErr with
      | Some e =>
          Some {| ret_final := []; ret_citations := []; ret_err := Some e;
                  sent := charCh st |}
      | None =>
          if done then
            Some {| ret_final := final st;
                    ret_citations := finalCitations st;
                    ret_err := None; sent := charCh st |}
          else
            match processSSEChunk ctx raw st with
            | (Some e, st') =>
                Some {| ret_final := []; ret_citations := [];
                        ret_err := Some e; sent := charCh st' |}
            | (None, st') => readSSE_loop ctx rest st'
            end
      end
  end.

Definition sseState0 : sseState :=
  {| buf := []; final := []; finalCitations := []; charCh := [] |}.

(** [readSSE] (main.go:350-384).  Its context is created by the call
    and cancelled by a deferred [cancel()], so it is not cancelled
    while the loop runs. *)
Definition readSSE (reader : list event) : option sseOutcome :=
  readSSE_loop None reader sseState0.

End Stream.

(** What [readSSE] writes on stdout: the cursor codes around the runes
    the printer writes. *)
Definition readSSE_stdout (printed : list rune) : bytes :=
  stopCursorCode ++ concat (map EncodeRune printed) ++ startCursorCode.

(* ================================================================= *)
(** ** Finishing a completion (main.go:427-448, 491-512) *)

Fixpoint itoa_fuel (fuel : nat) (n : Z) (acc : bytes) : bytes :=
  match fuel with
  | O => acc
  | S f =>
      let acc' := z2b (0x30 + n mod 10) :: acc in
      if n / 10 =? 0 then acc' else itoa_fuel f (n / 10) acc'
  end.

(** The verb [%d] on a non-negative number. *)
Definition itoa (n : Z) : bytes := itoa_fuel (S (Z.to_nat n)) n [].

(** The lines [fmt.Printf("[%d] %s\n", i+1, c)], from index [i]. *)
Fixpoint citationLines (i : Z) (citations : list bytes) : bytes :=
  match citations with
  | [] => []
  | c :: rest =>
      bs "[" ++ itoa (i + 1) ++ bs "] " ++ c ++ nl ++
      citationLines (i + 1) rest
  end.

Section Completion.
Context {S W : Type} `{ThreadStore S W}.

(** [handleCompletionResponse] (main.go:492-512): the error, the
    thread [th] as the call leaves it, the world and the text written
    on stdout. *)
Definition handleCompletionResponse (store : S) (th : Thread)
    (finalContent : bytes) (citations : list bytes) (w : W)
  : option error * Thread * W * bytes :=
  let printed :=
    if 0 <? len citations
    then nl ++ nl ++ bs "Citations:" ++ nl ++ citationLines 0 citations
    else [] in
  if negb (bytes_eqb finalContent []) then
    let th1 :=
      {| ID := ID th;
         Messages := Messages th ++
           [{| Role := bs "assistant"; Content := finalContent |}] |} in
    match Save store th1 w with
    | (Some err, w1) => (Some (ErrWrap (bs "save thread") err), th1, w1, [])
    | (None, w1) => (None, th1, w1, printed)
    end
  else (None, th, w, printed).

(** [streamCompletion] (main.go:427-448) after the HTTP request:
    [resp] is what [doCompletionRequest] returns, the response body
    being the events its reader delivers.  [None] when [readSSE] is
    still waiting for an event. *)
Definition streamCompletion (unmarshal : bytes -> option sseChunk)
    (resp : result (list event)) (th : Thread) (store : S) (w : W)
  : option (option error * Thread * W * bytes) :=
  match resp with
  | Err err => Some (Some err, th, w, [])
  | Ok reader =>
      match readSSE unmarshal reader with
      | None => None
      | Some out =>
          match ret_err out with
          | Some sseErr =>
              Some (Some (ErrWrap (bs "read SSE") sseErr), th, w,
                    readSSE_stdout (sent out))
          | None =>
              let '(err, th1, w1, printed) :=
                handleCompletionResponse store th (ret_final out)
                  (ret_citations out) w in
              Some (err, th1, w1, readSSE_stdout (sent out) ++ printed)
          end
      end
  end.

End Completion.

(** [handleThreadLogic] (main.go:322-337); [newID] is the identifier
    [newThreadID] derives from the first message and the clock. *)
Definition handleThreadLogic {S W : Type} `{ThreadStore S W}
    (store : S) (idPrefix userQuery : bytes) (newID : bytes) (w : W)
  : result Thread :=
  if negb (bytes_eqb idPrefix []) then
    match Load store idPrefix w with
    | Err e => Err e
    | Ok th =>
        Ok {| ID := ID th;
              Messages := Messages th ++
                [{| Role := bs "user"; Content := userQuery |}] |}
    end
  else
    Ok {| ID := newID;
          Messages := [{| Role := bs "user"; Content := userQuery |}] |}.

(* ================================================================= *)
(** ** The paced emitter (main.go:361-363, 514-538)

    The channel [charCh], the printer goroutine started by
    [startSmoothPrinter] and the goroutine of [readSSE] that feeds it,
    as a transition system.  A step is one channel operation or one
    tick; any interleaving of the two goroutines is a run. *)

(** Where the printer goroutine is: at its [select], waiting for the
    ticker after a print, or returned. *)
Inductive printer : Type := AtSelect | AtTick | Finished.

(** Where the goroutine of [readSSE] is: sending the runes of the
    call, waiting in [wg.Wait()] after [close(charCh)], or returned. *)
Inductive feeder : Type := Sending | Waiting | Returned.

Record emitter : Type :=
  { pending : list rune;   (* runes [readSSE] has still to send *)
    queue : list rune;     (* the buffer of [charCh], oldest first *)
    closed : bool;         (* [close(charCh)] has happened *)
    cancelled : bool;      (* [cancel()] has happened *)
    pr : printer;
    fd : feeder;
    sink : list rune }.    (* runes written on stdout, oldest first *)

Definition emitter0 (submitted : list rune) : emitter :=
  {| pending := submitted; queue := []; closed := false;
     cancelled := false; pr := AtSelect; fd := Sending; sink := [] |}.

Inductive step : emitter -> emitter -> Prop :=
(* [case charCh <- r:] with room in the buffer *)
| step_send r p q k c s :
    len q < smoothPrintBufferSize ->
    step {| pending := r :: p; queue := q; closed := false;
            cancelled := k; pr := c; fd := Sending; sink := s |}
         {| pending := p; queue := q ++ [r]; closed := false;
            cancelled := k; pr := c; fd := Sending; sink := s |}
(* [case <-ctx.Done():] in the sending loop; the call gives up *)
| step_send_cancelled r p q c s :
    step {| pending := r :: p; queue := q; closed := false;
            cancelled := true; pr := c; fd := Sending; sink := s |}
         {| pending := []; queue := q; closed := false;
            cancelled := true; pr := c; fd := Sending; sink := s |}
(* [close(charCh)] once nothing is left to send *)
| step_close q k c s :
    step {| pending := []; queue := q; closed := false;
            cancelled := k; pr := c; fd := Sending; sink := s |}
         {| pending := []; queue := q; closed := true;
            cancelled := k; pr := c; fd := Waiting; sink := s |}
(* [case r, ok := <-charCh:] with [ok], then [fmt.Printf] *)
| step_recv r p q b k f s :
    step {| pending := p; queue := r :: q; closed := b;
            cancelled := k; pr := AtSelect; fd := f; sink := s |}
         {| pending := p; queue := q; closed := b;
            cancelled := k; pr := AtTick; fd := f; sink := s ++ [r] |}
(* [<-tick.C] *)
| step_tick p q b k f s :
    step {| pending := p; queue := q; closed := b;
            cancelled := k; pr := AtTick; fd := f; sink := s |}
         {| pending := p; queue := q; closed := b;
            cancelled := k; pr := AtSelect; fd := f; sink := s |}
(* [case r, ok := <-charCh:] without [ok]: closed and drained *)
| step_recv_closed p k f s :
    step {| pending := p; queue := []; closed := true;
            cancelled := k; pr := AtSelect; fd := f; sink := s |}
         {| pending := p; queue := []; closed := true;
            cancelled := k; pr := Finished; fd := f; sink := s |}
(* [case <-ctx.Done():] in the printer *)
| step_printer_cancelled p q b f s :
    step {| pending := p; queue := q; closed := b;
            cancelled := true; pr := AtSelect; fd := f; sink := s |}
         {| pending := p; queue := q; closed := b;
            cancelled := true; pr := Finished; fd := f; sink := s |}
(* [wg.Wait()] returns, [readSSE] returns, the deferred [cancel()] runs *)
| step_join p q b k s :
    step {| pending := p; queue := q; closed := b;
            cancelled := k; pr := Finished; fd := Waiting; sink := s |}
         {| pending := p; queue := q; closed := b;
            cancelled := true; pr := Finished; fd := Returned; sink := s |}.

(** The states some run from [emitter0 submitted] reaches. *)
Definition reachable (submitted : list rune) (e : emitter) : Prop :=
  clos_refl_trans emitter step (emitter0 submitted) e.

(** An upper bound on the number of steps left. *)
Definition stepsLeft (e : emitter) : Z :=
  3 * len (pending e) + 2 * len (queue e)
  + match pr e with AtSelect => 1 | AtTick => 2 | Finished => 0 end
  + match fd e with Sending => 2 | Waiting => 1 | Returned => 0 end.

(* ================================================================= *)
(** ** Vocabulary of the properties *)

(** What a frame contributes to the reassembly buffer: the bytes after
    its first data marker, or the whole frame when it has none. *)
Definition payload (raw : bytes) : bytes :=
  appendSSEChunk [] raw (Index raw (bs "data: ")).

(** The last non-empty list of [l], or [init] when there is none. *)
Definition lastNonEmpty (init : list bytes) (l : list (list bytes))
  : list bytes :=
  fold_left (fun acc c => if 0 <? len c then c else acc) l init.

(** The event ends the loop of [readSSE]. *)
Definition terminal (ev : event) : bool :=
  fst (checkEventEnd (fst ev) (snd ev)).

(** The frames [readSSE] hands to [processSSEChunk]: those before the
    first terminal event. *)
Fixpoint processedFrames (events : list event) : list bytes :=
  match events with
  | [] => []
  | ev :: rest =>
      if terminal ev then [] else fst ev :: processedFrames rest
  end.

(** A terminal event in the words of the specification: the reader
    reports the end of the transport or a read error, or the frame
    contains the completion sentinel. *)
Definition endsCall (ev : event) : bool :=
  match snd ev with
  | Some _ => true
  | None => Contains (fst ev) (bs "[DONE]")
  end.

(** The event is not a read error other than the end of the
    transport. *)
Definition cleanEnd (ev : event) : bool :=
  match snd ev with
  | Some e => errors_Is_EOF e
  | None => true
  end.

(** The finish indicator of a chunk is set. *)
Definition finishSet (c : sseChunk) : bool :=
  existsb (fun ch => negb (bytes_eqb (FinishReason ch) [])) (Choices c).

(** A chunk without its finish indicators. *)
Definition eraseFinish (c : sseChunk) : sseChunk :=
  {| Choices :=
       map (fun ch => {| Delta := Delta ch; FinishReason := [] |})
         (Choices c);
     Citations := Citations c |}.

(** The content delta of a chunk: the text of its first choice. *)
Definition contentDelta (c : sseChunk) : bytes :=
  match Choices c with
  | [] => []
  | c0 :: _ => sseDelta_Content (Delta c0)
  end.

(** What a call of [processSSEChunk] does once it has decoded
    [chunk]: lines 408-424. *)
Definition applyChunk (ctx : context_Context) (chunk : sseChunk) (st : sseState)
  : option error * sseState :=
  let cits :=
    if 0 <? len (Citations chunk) then Citations chunk
    else finalCitations st in
  match Choices chunk with
  | [] =>
      (None, {| buf := []; final := final st;
                finalCitations := cits; charCh := charCh st |})
  | c0 :: _ =>
      let txt := sseDelta_Content (Delta c0) in
      let '(err, ch) := sendRunes ctx (runes txt) (charCh st) in
      (err, {| buf := []; final := final st ++ txt;
               finalCitations := cits; charCh := ch |})
  end.

(** The errors the calls of [processSSEChunk] return while the frames
    are processed in order. *)
Fixpoint returned (unmarshal : bytes -> option sseChunk) (ctx : context_Context)
    (frames : list bytes) (st : sseState) : list (option error) :=
  match frames with
  | [] => []
  | raw :: rest =>
      fst (processSSEChunk unmarshal ctx raw st)
      :: returned unmarshal ctx rest
           (snd (processSSEChunk unmarshal ctx raw st))
  end.

(* ================================================================= *)
(** ** Sample inputs *)

(** A data frame whose record carries the text [Hello] and one
    citation, and the same frame cut into three pieces. *)
Definition frame_hello : bytes :=
  js "data: {'choices':[{'delta':{'content':'Hello'}}],'citations':['a.com']}".

Definition pieces_hello : list bytes :=
  [js "data: {'choi"; js "ces':[{'delta':{'content':'Hel";
   js "lo'}}],'citations':['a.com']}"].

Definition chunk_hello : sseChunk :=
  {| Choices :=
       [{| Delta := {| sseDelta_Content := bs "Hello" |};
           FinishReason := [] |}];
     Citations := [bs "a.com"] |}.

(** A data frame whose text contains the data marker, and the same
    frame cut in two before the marker inside the text. *)
Definition frame_marker : bytes :=
  js "data: {'choices':[{'delta':{'content':'a data: b'}}]}".

Definition pieces_marker : list bytes :=
  [js "data: {'choices':[{'delta':{'content':'a"; js " data: b'}}]}"].

(** A record that arrives in three frames. *)
Definition frames_partial : list bytes :=
  [js "data: {'choices':[{'delta':"; js "{'content':'He"].

Definition frame_last : bytes := js "llo'}}]}".

(** A chunk with its finish indicator set, and one that follows it. *)
Definition frame_finish : bytes :=
  js "data: {'choices':[{'delta':{'content':'a'},'finish_reason':'stop'}]}".

Definition frame_after : bytes :=
  js "data: {'choices':[{'delta':{'content':'b'}}]}".

(** Two frames with citations, then the sentinel. *)
Definition events_citations : list event :=
  [(js "data: {'citations':['a.com','b.com'],'choices':[{'delta':{'content':'x'}}]}", None);
   (js "data: {'citations':['c.com']}", None);
   (js "data: [DONE]", None)].

(** An ordinary data frame whose text contains the sentinel. *)
Definition frame_done_inside : bytes :=
  js "data: {'choices':[{'delta':{'content':'say [DONE] now'}}]}".

(** The end-to-end scenario of the specification. *)
Definition events_hello : list event :=
  [(js "data: {'choices':[{'delta':{'content':'He'}}]}", None);
   (js "data: {'choices':[{'delta':{'content':'llo'}}]}", None);
   (js "data: [DONE]", None)].

(** What holds of the emitter in every state a run reaches. *)
Definition emitterInv (submitted : list rune) (e : emitter) : Prop :=
  sink e ++ queue e ++ pending e = submitted
  /\ (cancelled e = true -> fd e = Returned)
  /\ (closed e = false <-> fd e = Sending)
  /\ (closed e = true -> pending e = [])
  /\ (pr e = Finished -> queue e = [] /\ closed e = true)
  /\ (fd e = Returned -> pr e = Finished).

(** A path element without separator. *)
Definition slashFree (c : bytes) : Prop := ~ In PathSeparator c.

(** A path element as a clean path has them: not empty, without
    separator, and neither [.] nor [..]. *)
Definition plain (c : bytes) : Prop :=
  c <> [] /\ slashFree c /\ c <> dot /\ c <> dotdot.

(** An absolute clean path: the root followed by plain elements. *)
Definition canonical (p : bytes) : Prop :=
  exists cs, Forall plain cs /\ p = rootedPath cs.

(** The candidate [absFile] is the base directory or lies strictly
    under it: the base, a separator and a non-empty remainder. *)
Definition insideBase (absBase absFile : bytes) : Prop :=
  absFile = absBase
  \/ exists rest, rest <> [] /\ absFile = absBase ++ [PathSeparator] ++ rest.

(** The entries whose name starts with [idPrefix]. *)
Definition matching (idPrefix : bytes) (names : list bytes) : list bytes :=
  filter (fun n => HasPrefix n idPrefix) names.

(** The identifier of the conversation stored under the file name
    [name]: the name without its suffix [.json]. *)
Definition identifierOf (name : bytes) : option bytes :=
  if HasSuffix name (bs ".json")
  then Some (firstn (length name - 5) name)
  else None.

Fixpoint storedIDs (names : list bytes) : list bytes :=
  match names with
  | [] => []
  | n :: names' =>
      match identifierOf n with
      | Some id => id :: storedIDs names'
      | None => storedIDs names'
      end
  end.

(** No path is held twice, as a file or as a directory. *)
Definition fsWF (fs : FS) : Prop := NoDup (map fst (files fs) ++ dirs fs).

(** A store, an empty base directory and two conversations, one
    identifier being a prefix of the other. *)
Definition sample_store : FSStore :=
  {| basePath := bs "/home/u/.plexctl/threads" |}.

Definition sample_fs0 : FS :=
  {| cwd := Some (bs "/home/u");
     dirs := [bs "/"; bs "/home"; bs "/home/u"; bs "/home/u/.plexctl";
              bs "/home/u/.plexctl/threads"];
     files := [] |}.

Definition thread_abc : Thread :=
  {| ID := bs "abc";
     Messages := [{| Role := bs "user"; Content := bs "hi" |}] |}.

Definition thread_abcd : Thread :=
  {| ID := bs "abcd";
     Messages := [{| Role := bs "user"; Content := bs "yo" |}] |}.

Definition sample_fs_abc : FS := snd (Save sample_store thread_abc sample_fs0).

Definition sample_fs_abcd : FS :=
  snd (Save sample_store thread_abcd sample_fs0).

(** A store that records the conversations it is asked to save; its
    world is the list of them, oldest first. *)
Record Recorder : Type := { saveResult : option error }.

#[export] Instance Recorder_ThreadStore : ThreadStore Recorder (list Thread) :=
  { Load := fun _ _ _ => Err ErrNotFound;
    Save := fun r th saved => (saveResult r, saved ++ [th]);
    List := fun _ saved => Ok saved }.

(** The conversation [th] with one assistant message more. *)
Definition withAssistant (th : Thread) (text : bytes) : Thread :=
  {| ID := ID th;
     Messages := Messages th ++
       [{| Role := bs "assistant"; Content := text |}] |}.

(** The conversation of the end-to-end scenario. *)
Definition thread_hi : Thread :=
  {| ID := bs "9Pme8Nvc";
     Messages := [{| Role := bs "user"; Content := bs "hi" |}] |}.

(** A call in which only citations arrive. *)
Definition events_only_citations : list event :=
  [(js "data: {'citations':['a.com']}", None); (js "data: [DONE]", None)].

(* ================================================================= *)
(** ** More of main.go: the commands and their helpers *)

Definition snippetLen : Z := 50.
Definition idTruncLen : Z := 8.

(** [snippet] (main.go:575-580). *)
Definition snippet (s : bytes) : bytes :=
  if snippetLen <? len s then slice_to s snippetLen ++ bs "..." else s.

(** The identifier as the thread commands show it: cut to
    [idTruncLen] bytes (main.go:254-257 and 299-302). *)
Definition shortID (id : bytes) : bytes :=
  if idTruncLen <? len id then slice_to id idTruncLen else id.

Section GetCommand.
Context {S W : Type} `{ThreadStore S W}.

(** The function [RunE] of the command [get] (main.go:222-235):
    [threadID] is the flag [--thread], [args] the words of the query,
    [newID] the identifier [newThreadID] would give and [resp] what
    [doCompletionRequest] returns for the conversation.  The result is
    the error, the world and the text on stdout; [None] when [readSSE]
    is still waiting for an event. *)
Definition getCmd_RunE (unmarshal : bytes -> option sseChunk)
    (store : S) (threadID : bytes) (args : list bytes) (newID : bytes)
    (resp : result (list event)) (w : W)
  : option (option error * W * bytes) :=
  let query := join (bs " ") args in
  match handleThreadLogic store threadID query newID w with
  | Err err => Some (Some err, w, [])
  | Ok th =>
      match streamCompletion unmarshal resp th store w with
      | None => None
      | Some (err, _, w1, printed) => Some (err, w1, printed)
      end
  end.

End GetCommand.

(** ** Vocabulary of the further properties *)

(** A frame without bytes, delivered without error. *)
Definition emptyFrame (ev : event) : bool :=
  match ev with
  | ([], None) => true
  | _ => false
  end.

Definition dropEmpty (events : list event) : list event :=
  filter (fun ev => negb (emptyFrame ev)) events.

(** The conversation [th] with the user message of a turn and the
    assistant's answer. *)
Definition withTurn (th : Thread) (query text : bytes) : Thread :=
  {| ID := ID th;
     Messages := Messages th ++
       [{| Role := bs "user"; Content := query |};
        {| Role := bs "assistant"; Content := text |}] |}.

(** A conversation whose identifier climbs out of the base directory. *)
Definition thread_climbing : Thread :=
  {| ID := bs "../../etc/passwd";
     Messages := [{| Role := bs "user"; Content := bs "hi" |}] |}.

(** A base directory that holds the conversation [abc], a file that
    does not decode and a file without the suffix. *)
Definition sample_fs_mixed : FS :=
  {| cwd := cwd sample_fs_abc;
     dirs := dirs sample_fs_abc;
     files := files sample_fs_abc ++
       [(bs "/home/u/.plexctl/threads/broken.json", bs "{'id': ");
        (bs "/home/u/.plexctl/threads/notes.txt", bs "hello")] |}.

(** A base directory that holds the conversations [abc] and [abcd]. *)
Definition sample_fs_both : FS :=
  snd (Save sample_store thread_abcd sample_fs_abc).

(** A conversation with an identifier of the length [newThreadID]
    gives, beside the conversation [abc]. *)
Definition thread_long : Thread :=
  {| ID := bs "5HueCGU8rMjxEXxiPuD5BDku";
     Messages := [{| Role := bs "user"; Content := bs "hi" |}] |}.

Definition sample_fs_long : FS :=
  snd (Save sample_store thread_long sample_fs_abc).

(** A run of the emitter with its number of steps. *)
Inductive run : nat -> emitter -> emitter -> Prop :=
| run_nil e : run 0 e e
| run_step n e1 e2 e3 : run n e1 e2 -> step e2 e3 -> run (S n) e1 e3.


(** ** Vocabulary of the facts on JSON texts *)

(** Only white space. *)
Definition allSpace (s : bytes) : bool := forallb isSpace s.

Definition isNumber (v : json) : bool :=
  match v with
  | JNumber _ => true
  | _ => false
  end.

(** The four stages of [scanNumber]: sign, integer part, fraction and
    exponent, each with what it leaves. *)
Definition numSign (s : bytes) : bytes * bytes :=
  match s with
  | c :: t => if Byte.eqb c x2d then ([c], t) else ([], s)
  | [] => ([], s)
  end.

Definition numInt (s1 : bytes) : option (bytes * bytes) :=
  match s1 with
  | c :: t =>
      if Byte.eqb c x30 then Some ([c], t)
      else if isDigit c then
        let '(d, r) := spanDigits t in Some (c :: d, r)
      else None
  | [] => None
  end.

Definition numFrac (s2 : bytes) : option (bytes * bytes) :=
  match s2 with
  | c :: t =>
      if Byte.eqb c x2e then
        match spanDigits t with
        | ([], _) => None
        | (d, r) => Some (c :: d, r)
        end
      else Some ([], s2)
  | [] => Some ([], s2)
  end.

Definition numExp (s3 : bytes) : option (bytes * bytes) :=
  match s3 with
  | c :: t =>
      if Byte.eqb c x65 || Byte.eqb c x45 then
        let '(sg, t1) :=
          match t with
          | d :: t' =>
              if Byte.eqb d x2b || Byte.eqb d x2d
              then ([d], t') else ([], t)
          | [] => ([], t)
          end in
        match spanDigits t1 with
        | ([], _) => None
        | (d, r) => Some (c :: sg ++ d, r)
        end
      else Some ([], s3)
  | [] => Some ([], s3)
  end.

(** A decoder that accepts a record whatever white space follows it
    and nothing else after it, and that accepts no text of white
    space alone. *)
Definition selfDelimiting (unmarshal : bytes -> option sseChunk) : Prop :=
  (forall p r c c',
     unmarshal p = Some c -> unmarshal (p ++ r) = Some c' ->
     c' = c /\ allSpace r = true)
  /\ (forall s, allSpace s = true -> unmarshal s = None).

(** A frame the reader delivers without error. *)
Definition frameEvent (raw : bytes) : event := (raw, None).

(** A record followed by white space, cut before the white space. *)
Definition frame_spaced : bytes :=
  js "data: {'choices':[{'delta':{'content':'Hi'}}]} ".

Definition pieces_spaced : list bytes :=
  [js "data: {'choices':[{'delta':{'content':'Hi'}}]}"; bs " "].

(** The frame whose text contains the sentinel, cut inside the
    sentinel. *)
Definition pieces_done_inside : list bytes :=
  [js "data: {'choices':[{'delta':{'content':'say [DO";
   js "NE] now'}}]}"].

(** ** Vocabulary of the round trip through JSON *)

(** [utf8.Valid]. *)
Fixpoint Valid_fuel (n : nat) (s : bytes) : bool :=
  match s with
  | [] => true
  | _ :: _ =>
      match n with
      | O => false
      | S n' =>
          let '(r, w) := DecodeRune s in
          if (r =? RuneError) && (w =? 1) then false
          else Valid_fuel n' (slice_from s w)
      end
  end.

Definition utf8_Valid (s : bytes) : bool := Valid_fuel (length s) s.

(** The identifier and the text of every message are valid UTF-8. *)
Definition validThread (th : Thread) : bool :=
  utf8_Valid (ID th)
  && forallb (fun m => utf8_Valid (Role m) && utf8_Valid (Content m))
       (Messages th).

(** The JSON value of a message and of a conversation. *)
Definition json_of_Message (m : Message) : json :=
  JObject [(bs "role", JString (Role m)); (bs "content", JString (Content m))].

Definition json_of_Thread (th : Thread) : json :=
  JObject [(bs "id", JString (ID th));
           (bs "messages",
            match Messages th with
            | [] => JNull
            | ms => JArray (map json_of_Message ms)
            end)].

(** The text [MarshalIndent] writes for a conversation whose slice of
    messages is empty without being nil. *)
Definition json_MarshalIndent_noMessages (id : bytes) : bytes :=
  bs "{" ++ nl ++
  js "  'id': " ++ quote id ++ bs "," ++ nl ++
  js "  'messages': []" ++ nl ++
  bs "}".

(** [data] is what [MarshalIndent] writes for [th]. *)
Definition marshalled (th : Thread) (data : bytes) : Prop :=
  data = json_MarshalIndent_Thread th
  \/ (Messages th = [] /\ data = json_MarshalIndent_noMessages (ID th)).

(** What [quoteBody] writes for an ASCII byte, and for the rune at
    the head of a text that does not start with one. *)
Definition asciiQuote (c : byte) : bytes :=
  if Byte.eqb c x5c || Byte.eqb c x22 then [x5c; c]
  else if Byte.eqb c x08 then [x5c; x62]
  else if Byte.eqb c x0c then [x5c; x66]
  else if Byte.eqb c x0a then [x5c; x6e]
  else if Byte.eqb c x0d then [x5c; x72]
  else if Byte.eqb c x09 then [x5c; x74]
  else if (b2z c <? 0x20) || Byte.eqb c x3c || Byte.eqb c x3e
          || Byte.eqb c x26 then
    [x5c; x75; x30; x30;
     hexDigit (Z.shiftr (b2z c) 4); hexDigit (Z.land (b2z c) 0xF)]
  else [c].

Definition runeQuote (s : bytes) : bytes :=
  let '(r, size) := DecodeRune s in
  if (r =? RuneError) && (size =? 1) then EncodeRune RuneError
  else if r =? 0x2028 then bs "\u2028"
  else if r =? 0x2029 then bs "\u2029"
  else slice_to s size.

(** All bytes, and the runes of the encodings of two, three and four
    bytes. *)
Definition allBytes : list byte :=
  map (fun n => z2b (Z.of_nat n)) (seq 0 256).

Definition dec2 (b0 b1 : byte) : rune :=
  Z.lor (Z.shiftl (Z.land (b2z b0) 0x1F) 6) (cont b1).

Definition dec3 (b0 b1 b2 : byte) : rune :=
  Z.lor (Z.shiftl (Z.land (b2z b0) 0x0F) 12)
    (Z.lor (Z.shiftl (cont b1) 6) (cont b2)).

Definition dec4 (b0 b1 b2 b3 : byte) : rune :=
  Z.lor (Z.shiftl (Z.land (b2z b0) 0x07) 18)
    (Z.lor (Z.shiftl (cont b1) 12)
       (Z.lor (Z.shiftl (cont b2) 6) (cont b3))).

Definition lead2 (b0 : byte) : bool := (0xC2 <=? b2z b0) && (b2z b0 <=? 0xDF).
Definition lead3 (b0 : byte) : bool := (0xE0 <=? b2z b0) && (b2z b0 <=? 0xEF).
Definition lead4 (b0 : byte) : bool := (0xF0 <=? b2z b0) && (b2z b0 <=? 0xF4).

Definition second3 (b0 b1 : byte) : bool :=
  in_range b1 (if b2z b0 =? 0xE0 then 0xA0 else 0x80)
    (if b2z b0 =? 0xED then 0x9F else 0xBF).

Definition second4 (b0 b1 : byte) : bool :=
  in_range b1 (if b2z b0 =? 0xF0 then 0x90 else 0x80)
    (if b2z b0 =? 0xF4 then 0x8F else 0xBF).

Definition isCont (b : byte) : bool := in_range b 0x80 0xBF.

(** A conversation whose text is not valid UTF-8. *)
Definition thread_invalid : Thread :=
  {| ID := bs "bad";
     Messages := [{| Role := bs "user"; Content := [x61; xff] |}] |}.

(** A conversation with three messages and text outside ASCII. *)
Definition thread_three : Thread :=
  {| ID := bs "abcd";
     Messages :=
       [{| Role := bs "user"; Content := bs "caf" ++ [xc3; xa9] |};
        {| Role := bs "assistant";
           Content := js "<b>'yes'</b>" ++ [x0a; xe2; x82; xac] |};
        {| Role := bs "user"; Content := [xf0; x9f; x99; x82] |}] |}.

(* ================================================================= *)
(** * Properties *)

(** Split a conjunction into its parts, and no further. *)
Ltac split_all := repeat match goal with |- _ /\ _ => split end.

(** ** Byte strings *)

Lemma bytes_eqb_eq (a b : bytes) : bytes_eqb a b = true <-> a = b.
Proof.
  revert b; induction a as [|x a IH]; intros [|y b]; simpl;
    try (split; [discriminate | congruence]); try tauto.
  rewrite andb_true_iff, IH. split.
  - intros [H ->]. apply byte_dec_bl in H. now subst.
  - intros H; inversion H; subst. split; auto using byte_dec_lb.
Qed.

Lemma bytes_eqb_refl (a : bytes) : bytes_eqb a a = true.
Proof. now apply bytes_eqb_eq. Qed.

Lemma bytes_eqb_neq (a b : bytes) : bytes_eqb a b = false <-> a <> b.
Proof.
  rewrite <- bytes_eqb_eq. destruct (bytes_eqb a b); split; congruence.
Qed.

Lemma HasPrefix_iff (s p : bytes) :
  HasPrefix s p = true <-> exists r, s = p ++ r.
Proof.
  revert s; induction p as [|c p IH]; intros s; simpl.
  - split; [exists s; reflexivity | reflexivity].
  - destruct s as [|d s].
    + split; [discriminate | intros [r H]; discriminate].
    + rewrite andb_true_iff, IH. split.
      * intros [H [r ->]]. apply byte_dec_bl in H. subst. eauto.
      * intros [r H]. inversion H; subst. split; eauto using byte_dec_lb.
Qed.

Lemma HasPrefix_app (p r : bytes) : HasPrefix (p ++ r) p = true.
Proof. apply HasPrefix_iff; eauto. Qed.

Lemma HasPrefix_refl (p : bytes) : HasPrefix p p = true.
Proof. apply HasPrefix_iff. exists []. now rewrite app_nil_r. Qed.

Lemma len_zero {A} (l : list A) : (len l =? 0) = true <-> l = [].
Proof.
  unfold len. destruct l; simpl; split; try reflexivity; discriminate.
Qed.

Lemma len_nonzero {A} (l : list A) : l <> [] -> (len l =? 0) = false.
Proof.
  intros H. destruct (len l =? 0) eqn:E; [|reflexivity].
  apply len_zero in E. contradiction.
Qed.

Lemma len_pos {A} (l : list A) : (0 <? len l) = negb (len l =? 0).
Proof. unfold len. destruct l; reflexivity. Qed.

(* ----------------------------------------------------------------- *)
(** ** The event reassembler *)

Lemma payload_nil : payload [] = [].
Proof. reflexivity. Qed.

Lemma appendSSEChunk_payload (b raw : bytes) :
  appendSSEChunk b raw (Index raw (bs "data: ")) = b ++ payload raw.
Proof.
  unfold payload, appendSSEChunk.
  destruct (Index raw (bs "data: ") =? -1); reflexivity.
Qed.

(** A frame without the marker is its own payload. *)
Lemma payload_no_marker (raw : bytes) :
  Contains raw (bs "data: ") = false -> payload raw = raw.
Proof.
  unfold Contains, payload, appendSSEChunk. intros H.
  apply negb_false_iff in H. now rewrite H.
Qed.

Lemma sendRunes_None (rs ch : list rune) :
  sendRunes None rs ch = (None, ch ++ rs).
Proof.
  revert ch; induction rs as [|r rs IH]; intros ch; simpl.
  - now rewrite app_nil_r.
  - rewrite IH, <- app_assoc. reflexivity.
Qed.

Section StreamFacts.
Variable unmarshal : bytes -> option sseChunk.

Lemma processSSEChunk_nil (ctx : context_Context) (st : sseState) :
  processSSEChunk unmarshal ctx [] st = (None, st).
Proof. reflexivity. Qed.

(** The two outcomes of a call on a non-empty frame. *)
Lemma processSSEChunk_fail (ctx : context_Context) (raw : bytes) (st : sseState) :
  raw <> [] ->
  unmarshal (buf st ++ payload raw) = None ->
  processSSEChunk unmarshal ctx raw st =
    (None, {| buf := buf st ++ payload raw; final := final st;
              finalCitations := finalCitations st; charCh := charCh st |}).
Proof.
  intros Hraw Hd. unfold processSSEChunk.
  rewrite (len_nonzero _ Hraw), appendSSEChunk_payload, Hd. reflexivity.
Qed.

Lemma processSSEChunk_buf_reset (ctx : context_Context) (raw : bytes)
    (st : sseState) (chunk : sseChunk) :
  raw <> [] ->
  unmarshal (buf st ++ payload raw) = Some chunk ->
  buf (snd (processSSEChunk unmarshal ctx raw st)) = [].
Proof.
  intros Hraw Hd. unfold processSSEChunk.
  rewrite (len_nonzero _ Hraw), appendSSEChunk_payload, Hd.
  destruct (Choices chunk) as [|c0 cs]; [reflexivity|].
  destruct (sendRunes ctx _ _); reflexivity.
Qed.

Lemma decoded_eq (raw : bytes) (st : sseState) :
  raw <> [] -> decoded unmarshal raw st = unmarshal (buf st ++ payload raw).
Proof.
  intros Hraw. unfold decoded.
  now rewrite (len_nonzero _ Hraw), appendSSEChunk_payload.
Qed.

Lemma decoded_nil (st : sseState) : decoded unmarshal [] st = None.
Proof. reflexivity. Qed.

(** The state depends on the buffer only through [buf]. *)
Lemma processSSEChunk_None_ok (raw : bytes) (st : sseState) :
  fst (processSSEChunk unmarshal None raw st) = None.
Proof.
  unfold processSSEChunk.
  destruct (len raw =? 0); [reflexivity|].
  destruct (unmarshal _) as [chunk|]; [|reflexivity].
  destruct (Choices chunk); [reflexivity|].
  now rewrite sendRunes_None.
Qed.

(** Frames that never complete a record pile up in the buffer. *)
Lemma processAll_accumulate (ctx : context_Context) (frames : list bytes) :
  forall st,
    (forall k, (1 <= k <= length frames)%nat ->
       unmarshal (buf st ++ concat (map payload (firstn k frames))) = None) ->
    processAll unmarshal ctx frames st =
      {| buf := buf st ++ concat (map payload frames); final := final st;
         finalCitations := finalCitations st; charCh := charCh st |}
    /\ emitted unmarshal ctx frames st = []
    /\ returned unmarshal ctx frames st = map (fun _ => None) frames.
Proof.
  induction frames as [|raw frames IH]; intros st H.
  - simpl. rewrite app_nil_r. destruct st; auto.
  - assert (Hstep :
      processSSEChunk unmarshal ctx raw st =
        (None, {| buf := buf st ++ payload raw; final := final st;
                  finalCitations := finalCitations st;
                  charCh := charCh st |})
      /\ decoded unmarshal raw st = None).
    { destruct raw as [|c raw].
      - rewrite processSSEChunk_nil, payload_nil, app_nil_r.
        destruct st; auto.
      - assert (H1 := H 1%nat). simpl in H1. rewrite app_nil_r in H1.
        assert (Hd : unmarshal (buf st ++ payload (c :: raw)) = None)
          by (apply H1; lia).
        split; [apply processSSEChunk_fail; [discriminate | exact Hd] |].
        rewrite decoded_eq by discriminate. exact Hd. }
    destruct Hstep as [Hp Hdec].
    simpl. rewrite Hp, Hdec. simpl.
    destruct (IH {| buf := buf st ++ payload raw; final := final st;
                    finalCitations := finalCitations st;
                    charCh := charCh st |}) as (IH1 & IH2 & IH3).
    + intros k Hk. simpl. rewrite <- app_assoc.
      specialize (H (S k)). simpl in H. apply H. lia.
    + rewrite IH1, IH2, IH3. simpl. rewrite <- app_assoc. auto.
Qed.

Lemma processSSEChunk_success (ctx : context_Context) (raw : bytes)
    (st : sseState) (chunk : sseChunk) :
  raw <> [] ->
  unmarshal (buf st ++ payload raw) = Some chunk ->
  processSSEChunk unmarshal ctx raw st = applyChunk ctx chunk st.
Proof.
  intros Hraw Hd. unfold processSSEChunk, applyChunk.
  rewrite (len_nonzero _ Hraw), appendSSEChunk_payload, Hd. reflexivity.
Qed.

Lemma applyChunk_buf (ctx : context_Context) (chunk : sseChunk) (st : sseState) :
  buf (snd (applyChunk ctx chunk st)) = [].
Proof.
  unfold applyChunk. destruct (Choices chunk); [reflexivity|].
  destruct (sendRunes ctx _ _); reflexivity.
Qed.

(** [applyChunk] does not read the buffer. *)
Lemma applyChunk_ignores_buf (ctx : context_Context) (chunk : sseChunk)
    (st : sseState) (b : bytes) :
  applyChunk ctx chunk
    {| buf := b; final := final st; finalCitations := finalCitations st;
       charCh := charCh st |} = applyChunk ctx chunk st.
Proof. reflexivity. Qed.

End StreamFacts.

(* ----------------------------------------------------------------- *)
(** ** The stream orchestrator *)

Lemma lastNonEmpty_app (init : list bytes) (l1 l2 : list (list bytes)) :
  lastNonEmpty init (l1 ++ l2) = lastNonEmpty (lastNonEmpty init l1) l2.
Proof. apply fold_left_app. Qed.

Section OrchestratorFacts.
Variable unmarshal : bytes -> option sseChunk.

(** One call, seen through the chunk it decodes. *)
Lemma processSSEChunk_decoded (ctx : context_Context) (raw : bytes) (st : sseState) :
  processSSEChunk unmarshal ctx raw st =
    match decoded unmarshal raw st with
    | Some chunk => applyChunk ctx chunk st
    | None =>
        (None, {| buf := buf (snd (processSSEChunk unmarshal ctx raw st));
                  final := final st; finalCitations := finalCitations st;
                  charCh := charCh st |})
    end.
Proof.
  unfold decoded, processSSEChunk.
  destruct (len raw =? 0); [destruct st; reflexivity|].
  destruct (unmarshal _); reflexivity.
Qed.

Lemma applyChunk_citations (ctx : context_Context) (chunk : sseChunk)
    (st : sseState) :
  finalCitations (snd (applyChunk ctx chunk st)) =
    lastNonEmpty (finalCitations st) [Citations chunk].
Proof.
  unfold applyChunk, lastNonEmpty. simpl.
  destruct (Choices chunk); [reflexivity|].
  destruct (sendRunes ctx _ _); reflexivity.
Qed.

Lemma applyChunk_final (ctx : context_Context) (chunk : sseChunk) (st : sseState) :
  final (snd (applyChunk ctx chunk st)) = final st ++ contentDelta chunk.
Proof.
  unfold applyChunk, contentDelta.
  destruct (Choices chunk); simpl; [now rewrite app_nil_r|].
  destruct (sendRunes ctx _ _); reflexivity.
Qed.

(** The citations after a run of frames are the last non-empty list
    among the chunks decoded. *)
Lemma processAll_citations (ctx : context_Context) (frames : list bytes) :
  forall st,
    finalCitations (processAll unmarshal ctx frames st) =
      lastNonEmpty (finalCitations st)
        (map Citations (emitted unmarshal ctx frames st)).
Proof.
  induction frames as [|raw rest IH]; intros st; [reflexivity|].
  simpl. rewrite IH, map_app, lastNonEmpty_app. f_equal.
  rewrite processSSEChunk_decoded.
  destruct (decoded unmarshal raw st) as [chunk|]; simpl.
  - apply applyChunk_citations.
  - reflexivity.
Qed.

(** The text after a run of frames is the content deltas in order. *)
Lemma processAll_final (ctx : context_Context) (frames : list bytes) :
  forall st,
    final (processAll unmarshal ctx frames st) =
      final st ++
      concat (map contentDelta (emitted unmarshal ctx frames st)).
Proof.
  induction frames as [|raw rest IH]; intros st.
  - simpl. now rewrite app_nil_r.
  - simpl. rewrite IH, map_app, concat_app, app_assoc. f_equal.
    rewrite processSSEChunk_decoded.
    destruct (decoded unmarshal raw st) as [chunk|]; simpl.
    + rewrite applyChunk_final, app_nil_r. reflexivity.
    + now rewrite app_nil_r.
Qed.

(** [readSSE] returns when some event is terminal, and then returns
    what the frames before it have accumulated. *)
Lemma readSSE_loop_outcome (events : list event) :
  forall st out,
    readSSE_loop unmarshal None events st = Some out ->
    ret_err out = None ->
    let st1 := processAll unmarshal None (processedFrames events) st in
    ret_final out = final st1
    /\ ret_citations out = finalCitations st1
    /\ sent out = charCh st1.
Proof.
  induction events as [|[raw err] rest IH]; intros st out Hrun Herr;
    [discriminate|].
  simpl in Hrun. unfold processedFrames; fold processedFrames.
  unfold terminal. simpl fst; simpl snd.
  destruct (checkEventEnd raw err) as [done [e|]] eqn:Hc.
  - inversion Hrun; subst out. discriminate.
  - destruct done; simpl.
    + inversion Hrun; subst out. simpl. auto.
    + pose proof (processSSEChunk_None_ok unmarshal raw st) as Hok.
      destruct (processSSEChunk unmarshal None raw st) as [[e|] st'];
        [discriminate|].
      simpl. apply IH; assumption.
Qed.

Lemma checkEventEnd_error_done (raw : bytes) (err : option error) (e : error) :
  snd (checkEventEnd raw err) = Some e -> fst (checkEventEnd raw err) = true.
Proof.
  unfold checkEventEnd. destruct err as [e'|].
  - destruct (errors_Is_EOF e'); reflexivity.
  - destruct (Contains raw _); discriminate.
Qed.

(** The loop ends exactly when a terminal event arrives. *)
Lemma readSSE_loop_done_iff (events : list event) :
  forall st,
    readSSE_loop unmarshal None events st <> None <->
    existsb terminal events = true.
Proof.
  induction events as [|[raw err] rest IH]; intros st.
  - simpl. split; [congruence | discriminate].
  - simpl. unfold terminal at 1. simpl fst; simpl snd.
    pose proof (checkEventEnd_error_done raw err) as Herr.
    destruct (checkEventEnd raw err) as [done [e|]].
    + rewrite (Herr e eq_refl). simpl. split; [reflexivity | discriminate].
    + destruct done; simpl; [split; [reflexivity | discriminate]|].
      pose proof (processSSEChunk_None_ok unmarshal raw st) as Hok.
      destruct (processSSEChunk unmarshal None raw st) as [[e|] st'];
        [discriminate|].
      apply IH.
Qed.

(** A frame with the sentinel ends the loop like end-of-transport. *)
Lemma readSSE_loop_sentinel (ctx : context_Context) (raw : bytes)
    (rest : list event) (st : sseState) :
  Contains raw (bs "[DONE]") = true ->
  readSSE_loop unmarshal ctx ((raw, None) :: rest) st =
    Some {| ret_final := final st; ret_citations := finalCitations st;
            ret_err := None; sent := charCh st |}.
Proof. intros H. simpl. rewrite H. reflexivity. Qed.

Lemma readSSE_loop_EOF (ctx : context_Context) (raw : bytes)
    (rest : list event) (st : sseState) :
  readSSE_loop unmarshal ctx ((raw, Some io_EOF) :: rest) st =
    Some {| ret_final := final st; ret_citations := finalCitations st;
            ret_err := None; sent := charCh st |}.
Proof. reflexivity. Qed.

Lemma readSSE_loop_app_sentinel (ctx : context_Context) (pre : list event)
    (raw : bytes) (rest : list event) :
  Contains raw (bs "[DONE]") = true ->
  forall st,
    readSSE_loop unmarshal ctx (pre ++ (raw, None) :: rest) st =
    readSSE_loop unmarshal ctx (pre ++ [([], Some io_EOF)]) st.
Proof.
  intros H. induction pre as [|[r e] pre IH]; intros st.
  - simpl app. now rewrite readSSE_loop_sentinel, readSSE_loop_EOF.
  - simpl. destruct (checkEventEnd r e) as [done [e'|]]; [reflexivity|].
    destruct done; [reflexivity|].
    destruct (processSSEChunk unmarshal ctx r st) as [[e'|] st'];
      [reflexivity | apply IH].
Qed.

(** The finish indicator of the chunks has no part in a call. *)
Lemma processSSEChunk_eraseFinish (ctx : context_Context) (raw : bytes)
    (st : sseState) :
  processSSEChunk (fun b => option_map eraseFinish (unmarshal b)) ctx raw st
  = processSSEChunk unmarshal ctx raw st.
Proof.
  unfold processSSEChunk.
  destruct (len raw =? 0); [reflexivity|].
  destruct (unmarshal _) as [chunk|]; simpl; [|reflexivity].
  destruct (Choices chunk); reflexivity.
Qed.

Lemma readSSE_loop_eraseFinish (ctx : context_Context) (events : list event) :
  forall st,
    readSSE_loop (fun b => option_map eraseFinish (unmarshal b))
      ctx events st
    = readSSE_loop unmarshal ctx events st.
Proof.
  induction events as [|[raw err] rest IH]; intros st; [reflexivity|].
  simpl. rewrite processSSEChunk_eraseFinish.
  destruct (checkEventEnd raw err) as [done [e|]]; [reflexivity|].
  destruct done; [reflexivity|].
  destruct (processSSEChunk unmarshal ctx raw st) as [[e|] st'];
    [reflexivity | apply IH].
Qed.

End OrchestratorFacts.

Lemma terminal_false (raw : bytes) (err : option error) :
  terminal (raw, err) = false -> checkEventEnd raw err = (false, None).
Proof.
  unfold terminal. simpl. intros H.
  pose proof (checkEventEnd_error_done raw err) as He.
  destruct (checkEventEnd raw err) as [done [e|]]; simpl in *.
  - rewrite (He e eq_refl) in H. discriminate.
  - now subst done.
Qed.

(** The loop over events none of which is terminal. *)
Lemma readSSE_loop_prefix (unmarshal : bytes -> option sseChunk)
    (pre evs : list event) :
  existsb terminal pre = false ->
  forall st,
    readSSE_loop unmarshal None (pre ++ evs) st =
    readSSE_loop unmarshal None evs
      (processAll unmarshal None (map fst pre) st).
Proof.
  induction pre as [|[raw err] pre IH]; intros Hpre st; [reflexivity|].
  simpl in Hpre. apply orb_false_iff in Hpre. destruct Hpre as [Ht Hpre].
  simpl. rewrite (terminal_false raw err Ht).
  pose proof (processSSEChunk_None_ok unmarshal raw st) as Hok.
  destruct (processSSEChunk unmarshal None raw st) as [[e|] st'];
    [discriminate|].
  simpl. now apply IH.
Qed.

Lemma terminal_endsCall (ev : event) : terminal ev = endsCall ev.
Proof.
  destruct ev as [raw [e|]]; unfold terminal, endsCall, checkEventEnd; simpl.
  - destruct (errors_Is_EOF e); reflexivity.
  - destruct (Contains raw _); reflexivity.
Qed.

Lemma existsb_terminal_endsCall (events : list event) :
  existsb terminal events = existsb endsCall events.
Proof.
  induction events as [|ev events IH]; simpl; [reflexivity|].
  now rewrite terminal_endsCall, IH.
Qed.

(* ----------------------------------------------------------------- *)
(** ** Claims on the reassembler and the orchestrator *)

(** C8.  While the reassembly buffer does not decode, no call of
    [processSSEChunk] returns an error and no chunk is emitted; the
    buffer keeps the payload of every frame, in order, and leaves the
    accumulated text, the citations and the channel alone.  The next
    frame's payload is appended to that buffer and the decode is tried
    on the whole: when it fails again the buffer keeps everything,
    when it succeeds the chunk is processed and the buffer is reset to
    empty. *)
Theorem decode_failure_accumulates_and_retries :
  forall (unmarshal : bytes -> option sseChunk) (ctx : context_Context)
         (frames : list bytes) (raw : bytes) (st : sseState),
    (forall k, (1 <= k <= length frames)%nat ->
       unmarshal (buf st ++ concat (map payload (firstn k frames))) = None) ->
    raw <> [] ->
    let st1 := processAll unmarshal ctx frames st in
    let whole := buf st ++ concat (map payload frames) ++ payload raw in
    returned unmarshal ctx frames st = map (fun _ => None) frames
    /\ emitted unmarshal ctx frames st = []
    /\ st1 = {| buf := buf st ++ concat (map payload frames);
                final := final st; finalCitations := finalCitations st;
                charCh := charCh st |}
    /\ decoded unmarshal raw st1 = unmarshal whole
    /\ (unmarshal whole = None ->
        processSSEChunk unmarshal ctx raw st1 =
          (None, {| buf := whole; final := final st;
                    finalCitations := finalCitations st;
                    charCh := charCh st |}))
    /\ (forall chunk, unmarshal whole = Some chunk ->
        processSSEChunk unmarshal ctx raw st1 = applyChunk ctx chunk st
        /\ buf (snd (processSSEChunk unmarshal ctx raw st1)) = []).
Proof.
  intros unmarshal ctx frames raw st Hfail Hraw st1 whole.
  destruct (processAll_accumulate unmarshal ctx frames st Hfail)
    as (Hst & Hem & Hret).
  fold st1 in Hst.
  assert (Hwhole : buf st1 ++ payload raw = whole).
  { rewrite Hst. unfold whole. simpl. now rewrite app_assoc. }
  repeat split; try assumption.
  - rewrite decoded_eq by exact Hraw. now rewrite Hwhole.
  - intros Hnone.
    rewrite processSSEChunk_fail by (rewrite ?Hwhole; assumption).
    rewrite Hwhole, Hst. reflexivity.
  - rewrite (processSSEChunk_success unmarshal ctx raw st1 chunk Hraw)
      by (rewrite Hwhole; assumption).
    rewrite Hst. apply applyChunk_ignores_buf.
  - eapply processSSEChunk_buf_reset; [exact Hraw|].
    rewrite Hwhole. eassumption.
Qed.

Lemma decode_failure_accumulates_and_retries_witness :
  (forall k, (1 <= k <= length frames_partial)%nat ->
     json_Unmarshal_sseChunk
       (buf sseState0 ++ concat (map payload (firstn k frames_partial)))
     = None)
  /\ frame_last <> []
  /\ processAll json_Unmarshal_sseChunk None frames_partial sseState0 =
       {| buf := js "{'choices':[{'delta':{'content':'He";
          final := []; finalCitations := []; charCh := [] |}
  /\ processSSEChunk json_Unmarshal_sseChunk None frame_last
       (processAll json_Unmarshal_sseChunk None frames_partial sseState0) =
       (None, {| buf := []; final := bs "Hello"; finalCitations := [];
                 charCh := runes (bs "Hello") |}).
Proof.
  assert (H1 : forall k, (1 <= k <= length frames_partial)%nat ->
     json_Unmarshal_sseChunk
       (buf sseState0 ++ concat (map payload (firstn k frames_partial)))
     = None).
  { intros k Hk. simpl in Hk.
    assert (E : k = 1%nat \/ k = 2%nat) by lia.
    destruct E as [-> | ->]; vm_compute; reflexivity. }
  assert (H2 : frame_last <> []) by (vm_compute; discriminate).
  destruct (decode_failure_accumulates_and_retries
              json_Unmarshal_sseChunk None frames_partial frame_last
              sseState0 H1 H2) as (_ & _ & Hst & _ & _ & Hok).
  split; [exact H1|]. split; [exact H2|]. split.
  - rewrite Hst. vm_compute. reflexivity.
  - destruct (Hok {| Choices :=
                       [{| Delta := {| sseDelta_Content := bs "Hello" |};
                           FinishReason := [] |}];
                     Citations := [] |}) as [Hp _].
    + vm_compute. reflexivity.
    + rewrite Hp. vm_compute. reflexivity.
Defined.

(** C6.  When a call of [readSSE] ends without error, the citations it
    returns are those of the last chunk decoded during the call whose
    citation list is not empty, and the empty list when there is no
    such chunk: a later non-empty list replaces an earlier one whole,
    and a chunk without citations leaves the list as it is. *)
Theorem final_citations_last_nonempty :
  forall (unmarshal : bytes -> option sseChunk) (events : list event)
         (out : sseOutcome),
    readSSE unmarshal events = Some out ->
    ret_err out = None ->
    ret_citations out =
      lastNonEmpty []
        (map Citations
           (emitted unmarshal None (processedFrames events) sseState0)).
Proof.
  intros unmarshal events out Hrun Herr.
  destruct (readSSE_loop_outcome unmarshal events sseState0 out Hrun Herr)
    as (_ & Hc & _).
  rewrite Hc. apply processAll_citations.
Qed.

Lemma final_citations_last_nonempty_witness :
  readSSE json_Unmarshal_sseChunk events_citations =
    Some {| ret_final := bs "x"; ret_citations := [bs "c.com"];
            ret_err := None; sent := [120] |}
  /\ [bs "c.com"] =
     lastNonEmpty []
       (map Citations
          (emitted json_Unmarshal_sseChunk None
             (processedFrames events_citations) sseState0)).
Proof.
  assert (H : readSSE json_Unmarshal_sseChunk events_citations =
    Some {| ret_final := bs "x"; ret_citations := [bs "c.com"];
            ret_err := None; sent := [120] |}) by (vm_compute; reflexivity).
  split; [exact H|].
  exact (final_citations_last_nonempty json_Unmarshal_sseChunk
           events_citations _ H eq_refl).
Defined.

(** The scenario of the specification: citations [a.com, b.com]
    followed by [c.com] give exactly [c.com]. *)
Example citations_replaced_not_merged :
  map Citations
    (emitted json_Unmarshal_sseChunk None
       (processedFrames events_citations) sseState0)
    = [[bs "a.com"; bs "b.com"]; [bs "c.com"]]
  /\ option_map ret_citations
       (readSSE json_Unmarshal_sseChunk events_citations)
     = Some [bs "c.com"].
Proof. split; vm_compute; reflexivity. Qed.

(** C2, as stated, fails: after a chunk whose finish indicator is set
    the call is still reading. *)
Lemma finish_indicator_does_not_end_call :
  ~ (forall (st : sseState) (raw : bytes) (chunk : sseChunk),
       decoded json_Unmarshal_sseChunk raw st = Some chunk ->
       finishSet chunk = true ->
       readSSE_loop json_Unmarshal_sseChunk None [(raw, None)] st <> None).
Proof.
  intros H.
  apply (H sseState0 frame_finish
           {| Choices :=
                [{| Delta := {| sseDelta_Content := bs "a" |};
                    FinishReason := bs "stop" |}];
              Citations := [] |});
    vm_compute; reflexivity.
Qed.

(** The frames that follow such a chunk are processed as usual. *)
Example frames_after_finish_are_processed :
  option_map ret_final
    (readSSE json_Unmarshal_sseChunk
       [(frame_finish, None); (frame_after, None); ([], Some io_EOF)])
  = Some (bs "ab").
Proof. vm_compute. reflexivity. Qed.

(** C2, as the code has it.  A call of [readSSE] ends exactly at the
    first terminal event the reader delivers: the end of the
    transport, a read error, or a frame that contains the sentinel.
    Until such an event arrives the call is still reading; when it
    arrives, every frame before it has been processed, whatever the
    chunks decoded from them carry, and the call returns what they
    have accumulated, or the read error.  The finish indicator of a
    chunk is decoded and never consulted: erasing it from every chunk
    changes nothing in the call. *)
Theorem stream_end_only_by_terminal_event :
  forall (unmarshal : bytes -> option sseChunk) (events : list event)
         (ctx : context_Context) (st : sseState),
    (readSSE_loop unmarshal None events st <> None <->
     existsb endsCall events = true)
    /\ (forall pre ev rest,
          events = pre ++ ev :: rest ->
          existsb endsCall pre = false ->
          endsCall ev = true ->
          exists out,
            readSSE_loop unmarshal None events st = Some out
            /\ sent out = charCh (processAll unmarshal None (map fst pre) st)
            /\ (ret_err out = None <-> cleanEnd ev = true)
            /\ (ret_err out = None ->
                ret_final out =
                  final (processAll unmarshal None (map fst pre) st)
                /\ ret_citations out =
                   finalCitations
                     (processAll unmarshal None (map fst pre) st)))
    /\ readSSE_loop (fun b => option_map eraseFinish (unmarshal b))
         ctx events st
       = readSSE_loop unmarshal ctx events st.
Proof.
  intros unmarshal events ctx st. split; [|split].
  - rewrite <- existsb_terminal_endsCall. apply readSSE_loop_done_iff.
  - intros pre [raw err] rest -> Hpre Hev.
    rewrite <- existsb_terminal_endsCall in Hpre.
    rewrite (readSSE_loop_prefix unmarshal pre _ Hpre).
    remember (processAll unmarshal None (map fst pre) st) as st1.
    unfold endsCall in Hev. unfold cleanEnd. simpl in Hev |- *.
    destruct err as [e|]; simpl.
    + destruct (errors_Is_EOF e); eexists; (split; [reflexivity|]); simpl;
        repeat split; auto; discriminate.
    + rewrite Hev. eexists. split; [reflexivity|]. simpl.
      repeat split; auto.
  - apply readSSE_loop_eraseFinish.
Qed.

(** A call in which a chunk with its finish indicator set arrives
    before the sentinel: the frames after that chunk are processed
    and the call ends at the sentinel. *)
Example finish_indicator_then_sentinel :
  existsb endsCall [(frame_finish, None); (frame_after, None)] = false
  /\ readSSE_loop json_Unmarshal_sseChunk None
       [(frame_finish, None); (frame_after, None)] sseState0 = None
  /\ readSSE json_Unmarshal_sseChunk
       [(frame_finish, None); (frame_after, None); (bs "data: [DONE]", None)]
     = Some {| ret_final := bs "ab"; ret_citations := [];
               ret_err := None; sent := runes (bs "ab") |}.
Proof. repeat split; vm_compute; reflexivity. Qed.

(** C10.  A frame that contains the sentinel anywhere ends the call
    cleanly: the call returns the text and the citations accumulated
    before the frame, whatever the frame holds besides the sentinel
    and whatever follows it, as if the transport had ended there. *)
Theorem sentinel_anywhere_ends_stream :
  forall (unmarshal : bytes -> option sseChunk) (ctx : context_Context)
         (pre : list event) (raw : bytes) (rest : list event)
         (st : sseState),
    Contains raw (bs "[DONE]") = true ->
    readSSE_loop unmarshal ctx ((raw, None) :: rest) st =
      Some {| ret_final := final st; ret_citations := finalCitations st;
              ret_err := None; sent := charCh st |}
    /\ readSSE_loop unmarshal ctx (pre ++ (raw, None) :: rest) st =
       readSSE_loop unmarshal ctx (pre ++ [([], Some io_EOF)]) st.
Proof.
  intros unmarshal ctx pre raw rest st H. split.
  - now apply readSSE_loop_sentinel.
  - now apply readSSE_loop_app_sentinel.
Qed.

Lemma sentinel_anywhere_ends_stream_witness :
  Contains frame_done_inside (bs "[DONE]") = true
  /\ readSSE json_Unmarshal_sseChunk
       ([(frame_after, None)] ++ (frame_done_inside, None)
          :: [(frame_after, None)])
     = Some {| ret_final := bs "b"; ret_citations := [];
               ret_err := None; sent := [98] |}.
Proof.
  assert (H : Contains frame_done_inside (bs "[DONE]") = true)
    by (vm_compute; reflexivity).
  split; [exact H|].
  destruct (sentinel_anywhere_ends_stream json_Unmarshal_sseChunk
              None [(frame_after, None)] frame_done_inside
              [(frame_after, None)] sseState0 H) as [_ W].
  unfold readSSE. etransitivity; [exact W|].
  vm_compute. reflexivity.
Defined.

(** The end-to-end scenario of the specification: three frames give
    the text [Hello] and no citations. *)
Example scenario_hello :
  readSSE json_Unmarshal_sseChunk events_hello =
    Some {| ret_final := bs "Hello"; ret_citations := [];
            ret_err := None; sent := runes (bs "Hello") |}.
Proof. vm_compute. reflexivity. Qed.

(* ----------------------------------------------------------------- *)
(** ** Frames without the data marker *)

Lemma HasPrefix_app_l (s x m : bytes) :
  HasPrefix s m = true -> HasPrefix (s ++ x) m = true.
Proof.
  intros H. apply HasPrefix_iff in H. destruct H as [r ->].
  rewrite <- app_assoc. apply HasPrefix_app.
Qed.

Lemma Index_from_nonneg (s m : bytes) :
  forall i, 0 <= i -> Index_from i s m = -1 \/ i <= Index_from i s m.
Proof.
  induction s as [|c s IH]; intros i Hi; simpl.
  - destruct (HasPrefix [] m); [right | left]; lia.
  - destruct (HasPrefix (c :: s) m); [right; lia|].
    destruct (IH (i + 1)) as [E|E]; [lia | now left | right; lia].
Qed.

(** [Index] fails exactly when no suffix starts with the pattern. *)
Lemma Index_from_none_iff (s m : bytes) :
  forall i, 0 <= i ->
    (Index_from i s m = -1 <-> forall k, HasPrefix (skipn k s) m = false).
Proof.
  induction s as [|c s IH]; intros i Hi; simpl.
  - destruct (HasPrefix [] m) eqn:E.
    + split; [lia|]. intros H. specialize (H 0%nat). simpl in H. congruence.
    + split; [|reflexivity]. intros _ k. now rewrite skipn_nil.
  - destruct (HasPrefix (c :: s) m) eqn:E.
    + split; [lia|]. intros H. specialize (H 0%nat). simpl in H. congruence.
    + rewrite IH by lia. split.
      * intros H [|k]; [exact E | apply H].
      * intros H k. apply (H (S k)).
Qed.

Lemma Contains_app_false (a b m : bytes) :
  Contains (a ++ b) m = false ->
  Contains a m = false /\ Contains b m = false.
Proof.
  unfold Contains, Index. rewrite !negb_false_iff, !Z.eqb_eq.
  rewrite !Index_from_none_iff by lia. intros H. split.
  - intros k. destruct (HasPrefix (skipn k a) m) eqn:E; [|reflexivity].
    destruct (Nat.le_gt_cases k (length a)) as [Hk|Hk].
    + specialize (H k). rewrite skipn_app in H.
      replace (k - length a)%nat with 0%nat in H by lia. simpl in H.
      rewrite HasPrefix_app_l in H by assumption. discriminate.
    + rewrite skipn_all2 in E by lia.
      specialize (H 0%nat). simpl in H.
      destruct m; [discriminate | discriminate].
  - intros k. specialize (H (length a + k)%nat).
    rewrite skipn_app in H. rewrite skipn_all2 in H by lia.
    replace (length a + k - length a)%nat with k in H by lia.
    exact H.
Qed.

Lemma payload_pieces_no_marker (pieces : list bytes) :
  Contains (concat pieces) (bs "data: ") = false ->
  concat (map payload pieces) = concat pieces.
Proof.
  induction pieces as [|p pieces IH]; simpl; intros H; [reflexivity|].
  apply Contains_app_false in H. destruct H as [H1 H2].
  now rewrite payload_no_marker, IH.
Qed.

(** The runes sent to the printer are those of the content deltas, in
    order. *)
Lemma processAll_sent (unmarshal : bytes -> option sseChunk)
    (frames : list bytes) :
  forall st,
    charCh (processAll unmarshal None frames st) =
      charCh st ++
      concat (map (fun c => runes (contentDelta c))
                (emitted unmarshal None frames st)).
Proof.
  induction frames as [|raw rest IH]; intros st.
  - simpl. now rewrite app_nil_r.
  - simpl. rewrite IH, map_app, concat_app, app_assoc. f_equal.
    rewrite processSSEChunk_decoded.
    destruct (decoded unmarshal raw st) as [chunk|]; simpl.
    + rewrite app_nil_r. unfold applyChunk, contentDelta.
      destruct (Choices chunk); simpl; [now rewrite app_nil_r|].
      now rewrite sendRunes_None.
    + now rewrite app_nil_r.
Qed.

(* ================================================================= *)
(** * Facts on the JSON scanner *)

Lemma skipSpace_app_cons (s r : bytes) (c : byte) (t : bytes) :
  skipSpace s = c :: t -> skipSpace (s ++ r) = c :: t ++ r.
Proof.
  induction s as [|x s IH]; simpl; [discriminate|].
  destruct (isSpace x); [exact IH|].
  intros H; inversion H; reflexivity.
Qed.

Lemma skipSpace_nil (s : bytes) : skipSpace s = [] <-> allSpace s = true.
Proof.
  induction s as [|x s IH]; simpl; [tauto|].
  destruct (isSpace x); simpl; [exact IH|]. split; discriminate.
Qed.

Lemma skipSpace_allSpace_app (s r : bytes) :
  allSpace s = true -> skipSpace (s ++ r) = skipSpace r.
Proof.
  induction s as [|x s IH]; simpl; [reflexivity|].
  destruct (isSpace x); simpl; [exact IH | discriminate].
Qed.

Lemma allSpace_app (a b : bytes) :
  allSpace (a ++ b) = allSpace a && allSpace b.
Proof. apply forallb_app. Qed.

Lemma consTo_Some (pre : bytes) (x : option (bytes * bytes))
    (body rest : bytes) :
  consTo pre x = Some (body, rest) ->
  exists body', x = Some (body', rest) /\ body = pre ++ body'.
Proof.
  destruct x as [[b r]|]; simpl; [|discriminate].
  intros H; inversion H; subst. eauto.
Qed.

(** The scanner inside a string does not look past the closing
    quote. *)
Lemma scanString_app (n : nat) :
  forall s body rest r,
    (length s <= n)%nat ->
    scanString s = Some (body, rest) ->
    scanString (s ++ r) = Some (body, rest ++ r).
Proof.
  induction n as [|n IH]; intros s body rest r Hn H.
  - destruct s; [discriminate | simpl in Hn; lia].
  - destruct s as [|c t]; [discriminate|].
    simpl in Hn. simpl app. simpl in H. simpl.
    destruct (Byte.eqb c x22).
    { inversion H; subst. reflexivity. }
    destruct (Byte.eqb c x5c).
    { destruct t as [|e t']; [discriminate|]. simpl in Hn. simpl.
      destruct (simpleEscape e).
      - apply consTo_Some in H. destruct H as (b' & H & ->).
        rewrite (IH t' b' rest r) by (lia || assumption). reflexivity.
      - destruct (Byte.eqb e x75); [|discriminate].
        destruct t' as [|h1 [|h2 [|h3 [|h4 t'']]]]; try discriminate.
        simpl in Hn. simpl app. cbv iota.
        destruct (hexval h1), (hexval h2), (hexval h3), (hexval h4);
          try discriminate.
        apply consTo_Some in H. destruct H as (b' & H & ->).
        rewrite (IH t'' b' rest r) by (lia || assumption). reflexivity. }
    destruct (b2z c <? 32); [discriminate|].
    apply consTo_Some in H. destruct H as (b' & H & ->).
    rewrite (IH t b' rest r) by (lia || assumption). reflexivity.
Qed.

Lemma spanDigits_app (s : bytes) :
  forall d rest r,
    spanDigits s = (d, rest) -> rest <> [] ->
    spanDigits (s ++ r) = (d, rest ++ r).
Proof.
  induction s as [|c t IH]; intros d rest r H Hne; simpl in H.
  - inversion H; subst. contradiction.
  - simpl. destruct (isDigit c).
    + destruct (spanDigits t) as [d' r'] eqn:E. inversion H; subst.
      rewrite (IH d' rest r eq_refl Hne). reflexivity.
    + inversion H; subst. reflexivity.
Qed.

Lemma spanDigits_rest_nil (s : bytes) (d : bytes) :
  spanDigits s = (d, []) -> forall c t, s = c :: t -> isDigit c = true.
Proof.
  intros H c t ->. simpl in H. destruct (isDigit c); [reflexivity|].
  discriminate.
Qed.

Lemma scanNumber_stages (s : bytes) :
  scanNumber s =
    let '(sign, s1) := numSign s in
    match numInt s1 with
    | None => None
    | Some (ip, s2) =>
        match numFrac s2 with
        | None => None
        | Some (fp, s3) =>
            match numExp s3 with
            | None => None
            | Some (ep, s4) => Some (sign ++ ip ++ fp ++ ep, s4)
            end
        end
    end.
Proof. reflexivity. Qed.

Lemma numSign_app (s sg s1 r : bytes) :
  numSign s = (sg, s1) -> s1 <> [] -> numSign (s ++ r) = (sg, s1 ++ r).
Proof.
  destruct s as [|c t]; simpl.
  - intros H; inversion H; subst. contradiction.
  - destruct (Byte.eqb c x2d); intros H _; inversion H; reflexivity.
Qed.

Lemma numInt_app (s1 ip s2 r : bytes) :
  numInt s1 = Some (ip, s2) -> s2 <> [] ->
  numInt (s1 ++ r) = Some (ip, s2 ++ r).
Proof.
  destruct s1 as [|c t]; simpl; [discriminate|].
  destruct (Byte.eqb c x30).
  - intros H _; inversion H; reflexivity.
  - destruct (isDigit c); [|discriminate].
    destruct (spanDigits t) as [d r'] eqn:E.
    intros H Hne; inversion H; subst.
    now rewrite (spanDigits_app t d s2 r E Hne).
Qed.

Lemma numFrac_app (s2 fp s3 r : bytes) :
  numFrac s2 = Some (fp, s3) -> s3 <> [] ->
  numFrac (s2 ++ r) = Some (fp, s3 ++ r).
Proof.
  destruct s2 as [|c t]; simpl.
  - intros H; inversion H; subst. contradiction.
  - destruct (Byte.eqb c x2e).
    + destruct (spanDigits t) as [d r'] eqn:E.
      destruct d as [|d0 d]; [discriminate|].
      intros H Hne; inversion H; subst.
      now rewrite (spanDigits_app t (d0 :: d) s3 r E Hne).
    + intros H _; inversion H; reflexivity.
Qed.

Lemma numExp_app (s3 ep s4 r : bytes) :
  numExp s3 = Some (ep, s4) -> s4 <> [] ->
  numExp (s3 ++ r) = Some (ep, s4 ++ r).
Proof.
  destruct s3 as [|c t]; simpl.
  - intros H; inversion H; subst. contradiction.
  - destruct (Byte.eqb c x65 || Byte.eqb c x45).
    + destruct t as [|d t']; simpl.
      * discriminate.
      * destruct (Byte.eqb d x2b || Byte.eqb d x2d).
        -- destruct (spanDigits t') as [ds r'] eqn:E.
           destruct ds as [|d0 ds]; [discriminate|].
           intros H Hne; inversion H; subst.
           now rewrite (spanDigits_app t' (d0 :: ds) s4 r E Hne).
        -- destruct (spanDigits (d :: t')) as [ds r'] eqn:E.
           destruct ds as [|d0 ds]; [discriminate|].
           intros H Hne; inversion H; subst.
           change (d :: t' ++ r) with ((d :: t') ++ r).
           now rewrite (spanDigits_app (d :: t') (d0 :: ds) s4 r E Hne).
    + intros H _; inversion H; reflexivity.
Qed.

Lemma numFrac_nil (fp s3 : bytes) : numFrac [] = Some (fp, s3) -> s3 = [].
Proof. simpl. intros H; now inversion H. Qed.

Lemma numExp_nil (ep s4 : bytes) : numExp [] = Some (ep, s4) -> s4 = [].
Proof. simpl. intros H; now inversion H. Qed.

(** A number that is followed by something is scanned the same way
    when more text follows. *)
Lemma scanNumber_app (s lit rest r : bytes) :
  scanNumber s = Some (lit, rest) -> rest <> [] ->
  scanNumber (s ++ r) = Some (lit, rest ++ r).
Proof.
  rewrite !scanNumber_stages.
  destruct (numSign s) as [sg s1] eqn:E0.
  destruct (numInt s1) as [[ip s2]|] eqn:E1; [|discriminate].
  destruct (numFrac s2) as [[fp s3]|] eqn:E2; [|discriminate].
  destruct (numExp s3) as [[ep s4]|] eqn:E3; [|discriminate].
  intros H Hne. inversion H; subst lit s4.
  assert (H3 : s3 <> []).
  { intros ->. apply numExp_nil in E3. contradiction. }
  assert (H2 : s2 <> []).
  { intros ->. apply numFrac_nil in E2. contradiction. }
  assert (H1 : s1 <> []).
  { intros ->. discriminate. }
  rewrite (numSign_app s sg s1 r E0 H1).
  rewrite (numInt_app s1 ip s2 r E1 H2).
  rewrite (numFrac_app s2 fp s3 r E2 H3).
  rewrite (numExp_app s3 ep rest r E3 Hne).
  reflexivity.
Qed.

Lemma skipSpace_cons_nonempty (s : bytes) (c : byte) (t : bytes) :
  skipSpace s = c :: t -> s <> [].
Proof. destruct s; [discriminate | discriminate]. Qed.

Lemma HasPrefix_length (s p : bytes) :
  HasPrefix s p = true -> (length p <= length s)%nat.
Proof.
  intros H. apply HasPrefix_iff in H. destruct H as [r ->].
  rewrite length_app. lia.
Qed.

Lemma slice_from_app (s r : bytes) (n : Z) :
  (Z.to_nat n <= length s)%nat ->
  slice_from (s ++ r) n = slice_from s n ++ r.
Proof.
  intros H. unfold slice_from. rewrite skipn_app.
  replace (Z.to_nat n - length s)%nat with 0%nat by lia. reflexivity.
Qed.

(** One step of the three functions of the parser. *)
Lemma parseValue_S (f : nat) (depth : Z) (s : bytes) :
  parseValue (S f) depth s =
    match skipSpace s with
    | [] => None
    | c :: t =>
        if Byte.eqb c x7b then
          if maxNestingDepth <=? depth then None
          else
            match skipSpace t with
            | c' :: t' =>
                if Byte.eqb c' x7d then Some (JObject [], t')
                else
                  match parseMembers f (depth + 1) t with
                  | Some (ms, r) => Some (JObject ms, r)
                  | None => None
                  end
            | [] => None
            end
        else if Byte.eqb c x5b then
          if maxNestingDepth <=? depth then None
          else
            match skipSpace t with
            | c' :: t' =>
                if Byte.eqb c' x5d then Some (JArray [], t')
                else
                  match parseElems f (depth + 1) t with
                  | Some (vs, r) => Some (JArray vs, r)
                  | None => None
                  end
            | [] => None
            end
        else if Byte.eqb c x22 then
          match scanString t with
          | Some (body, r) =>
              match unquote body with
              | Some str => Some (JString str, r)
              | None => None
              end
          | None => None
          end
        else if Byte.eqb c x2d || isDigit c then
          match scanNumber (c :: t) with
          | Some (lit, r) => Some (JNumber lit, r)
          | None => None
          end
        else if HasPrefix (c :: t) (bs "true") then
          Some (JBool true, slice_from (c :: t) 4)
        else if HasPrefix (c :: t) (bs "false") then
          Some (JBool false, slice_from (c :: t) 5)
        else if HasPrefix (c :: t) (bs "null") then
          Some (JNull, slice_from (c :: t) 4)
        else None
    end.
Proof. reflexivity. Qed.

Lemma parseElems_S (f : nat) (depth : Z) (s : bytes) :
  parseElems (S f) depth s =
    match parseValue f depth s with
    | Some (v, r) =>
        match skipSpace r with
        | c :: r' =>
            if Byte.eqb c x2c then
              match parseElems f depth r' with
              | Some (vs, r'') => Some (v :: vs, r'')
              | None => None
              end
            else if Byte.eqb c x5d then Some ([v], r')
            else None
        | [] => None
        end
    | None => None
    end.
Proof. reflexivity. Qed.

Lemma parseMembers_S (f : nat) (depth : Z) (s : bytes) :
  parseMembers (S f) depth s =
    match skipSpace s with
    | q :: t =>
        if Byte.eqb q x22 then
          match scanString t with
          | Some (kbody, r) =>
              match unquote kbody, skipSpace r with
              | Some k, colon :: r1 =>
                  if Byte.eqb colon x3a then
                    match parseValue f depth r1 with
                    | Some (v, r2) =>
                        match skipSpace r2 with
                        | c :: r3 =>
                            if Byte.eqb c x2c then
                              match parseMembers f depth r3 with
                              | Some (ms, r4) => Some ((k, v) :: ms, r4)
                              | None => None
                              end
                            else if Byte.eqb c x7d then Some ([(k, v)], r3)
                            else None
                        | [] => None
                        end
                    | None => None
                    end
                  else None
              | _, _ => None
              end
          | None => None
          end
        else None
    | [] => None
    end.
Proof. reflexivity. Qed.

(** The parser does not look past the value it returns, except at
    the end of a number, and more fuel does not change its result. *)
Lemma parse_app (f : nat) :
  (forall f' depth s v rest r,
     parseValue f depth s = Some (v, rest) -> (f <= f')%nat ->
     r = [] \/ isNumber v = false \/ rest <> [] ->
     parseValue f' depth (s ++ r) = Some (v, rest ++ r))
  /\ (forall f' depth s vs rest r,
        parseElems f depth s = Some (vs, rest) -> (f <= f')%nat ->
        parseElems f' depth (s ++ r) = Some (vs, rest ++ r))
  /\ (forall f' depth s ms rest r,
        parseMembers f depth s = Some (ms, rest) -> (f <= f')%nat ->
        parseMembers f' depth (s ++ r) = Some (ms, rest ++ r)).
Proof.
  induction f as [|f (IHV & IHE & IHM)].
  { split; [|split]; intros; discriminate. }
  split; [|split].
  - intros f' depth s v rest r H Hf Hside.
    destruct f' as [|f']; [lia|]. apply le_S_n in Hf.
    rewrite parseValue_S in H. rewrite parseValue_S.
    destruct (skipSpace s) as [|c t] eqn:Es; [discriminate|].
    rewrite (skipSpace_app_cons s r c t Es).
    destruct (Byte.eqb c x7b).
    { destruct (maxNestingDepth <=? depth); [discriminate|].
      destruct (skipSpace t) as [|c' t'] eqn:Et; [discriminate|].
      rewrite (skipSpace_app_cons t r c' t' Et).
      destruct (Byte.eqb c' x7d); [inversion H; reflexivity|].
      destruct (parseMembers f (depth + 1) t) as [[ms r0]|] eqn:Em;
        [|discriminate].
      inversion H; subst. now rewrite (IHM f' _ _ _ _ r Em Hf). }
    destruct (Byte.eqb c x5b).
    { destruct (maxNestingDepth <=? depth); [discriminate|].
      destruct (skipSpace t) as [|c' t'] eqn:Et; [discriminate|].
      rewrite (skipSpace_app_cons t r c' t' Et).
      destruct (Byte.eqb c' x5d); [inversion H; reflexivity|].
      destruct (parseElems f (depth + 1) t) as [[vs r0]|] eqn:Em;
        [|discriminate].
      inversion H; subst. now rewrite (IHE f' _ _ _ _ r Em Hf). }
    destruct (Byte.eqb c x22).
    { destruct (scanString t) as [[body r0]|] eqn:Eb; [|discriminate].
      rewrite (scanString_app _ t body r0 r (le_n _) Eb).
      destruct (unquote body); [|discriminate].
      inversion H; reflexivity. }
    destruct (Byte.eqb c x2d || isDigit c).
    { destruct (scanNumber (c :: t)) as [[lit r0]|] eqn:En; [|discriminate].
      inversion H; subst v rest.
      destruct Hside as [-> | [Hs | Hs]]; [| discriminate |].
      - rewrite !app_nil_r, En. reflexivity.
      - change (c :: t ++ r) with ((c :: t) ++ r).
        now rewrite (scanNumber_app _ _ _ r En Hs). }
    change (c :: t ++ r) with ((c :: t) ++ r).
    destruct (HasPrefix (c :: t) (bs "true")) eqn:E1.
    { rewrite (HasPrefix_app_l _ r _ E1). inversion H; subst.
      rewrite slice_from_app; [reflexivity|].
      apply HasPrefix_length in E1. exact E1. }
    destruct (HasPrefix (c :: t) (bs "false")) eqn:E2.
    { assert (Ec : c = x66).
      { apply HasPrefix_iff in E2. destruct E2 as [r' E2].
        now inversion E2. }
      subst c. rewrite (HasPrefix_app_l _ r _ E2).
      change (HasPrefix ((x66 :: t) ++ r) (bs "true")) with false.
      cbv iota. inversion H; subst.
      rewrite slice_from_app; [reflexivity|].
      apply HasPrefix_length in E2. exact E2. }
    destruct (HasPrefix (c :: t) (bs "null")) eqn:E3; [|discriminate].
    assert (Ec : c = x6e).
    { apply HasPrefix_iff in E3. destruct E3 as [r' E3]. now inversion E3. }
    subst c. rewrite (HasPrefix_app_l _ r _ E3).
    change (HasPrefix ((x6e :: t) ++ r) (bs "true")) with false.
    change (HasPrefix ((x6e :: t) ++ r) (bs "false")) with false.
    cbv iota. inversion H; subst.
    rewrite slice_from_app; [reflexivity|].
    apply HasPrefix_length in E3. exact E3.
  - intros f' depth s vs rest r H Hf.
    destruct f' as [|f']; [lia|]. apply le_S_n in Hf.
    rewrite parseElems_S in H. rewrite parseElems_S.
    destruct (parseValue f depth s) as [[v r0]|] eqn:Ev; [|discriminate].
    destruct (skipSpace r0) as [|c r'] eqn:Es; [discriminate|].
    rewrite (IHV f' _ _ _ _ r Ev Hf)
      by (right; right; eapply skipSpace_cons_nonempty; eassumption).
    rewrite (skipSpace_app_cons r0 r c r' Es).
    destruct (Byte.eqb c x2c).
    { destruct (parseElems f depth r') as [[vs' r'']|] eqn:Ee;
        [|discriminate].
      inversion H; subst. now rewrite (IHE f' _ _ _ _ r Ee Hf). }
    destruct (Byte.eqb c x5d); [|discriminate].
    inversion H; reflexivity.
  - intros f' depth s ms rest r H Hf.
    destruct f' as [|f']; [lia|]. apply le_S_n in Hf.
    rewrite parseMembers_S in H. rewrite parseMembers_S.
    destruct (skipSpace s) as [|q t] eqn:Es; [discriminate|].
    rewrite (skipSpace_app_cons s r q t Es).
    destruct (Byte.eqb q x22); [|discriminate].
    destruct (scanString t) as [[kbody r0]|] eqn:Eb; [|discriminate].
    rewrite (scanString_app _ t kbody r0 r (le_n _) Eb).
    destruct (unquote kbody) as [k|]; [|discriminate].
    destruct (skipSpace r0) as [|colon r1] eqn:Ec; [discriminate|].
    rewrite (skipSpace_app_cons r0 r colon r1 Ec).
    destruct (Byte.eqb colon x3a); [|discriminate].
    destruct (parseValue f depth r1) as [[v r2]|] eqn:Ev; [|discriminate].
    destruct (skipSpace r2) as [|c r3] eqn:E2; [discriminate|].
    rewrite (IHV f' _ _ _ _ r Ev Hf)
      by (right; right; eapply skipSpace_cons_nonempty; eassumption).
    rewrite (skipSpace_app_cons r2 r c r3 E2).
    destruct (Byte.eqb c x2c).
    { destruct (parseMembers f depth r3) as [[ms' r4]|] eqn:Em;
        [|discriminate].
      inversion H; subst. now rewrite (IHM f' _ _ _ _ r Em Hf). }
    destruct (Byte.eqb c x7d); [|discriminate].
    inversion H; reflexivity.
Qed.

(** A text of white space alone is no JSON text. *)
Lemma parseJSON_allSpace (s : bytes) : allSpace s = true -> parseJSON s = None.
Proof.
  intros H. unfold parseJSON.
  replace (2 * length s + 2)%nat with (S (2 * length s + 1)) by lia.
  rewrite parseValue_S. apply skipSpace_nil in H. now rewrite H.
Qed.

(** What follows a JSON text that is not a number, in a longer JSON
    text, is white space, and the value is the same. *)
Lemma parseJSON_app (p r : bytes) (v v' : json) :
  parseJSON p = Some v -> isNumber v = false ->
  parseJSON (p ++ r) = Some v' ->
  v' = v /\ allSpace r = true.
Proof.
  unfold parseJSON. intros H Hv H'.
  destruct (parseValue (2 * length p + 2) 0 p) as [[v0 rest]|] eqn:E;
    [|discriminate].
  destruct (skipSpace rest) eqn:Es; [|discriminate].
  inversion H; subst v0.
  destruct (parse_app (2 * length p + 2)) as (PV & _ & _).
  rewrite (PV (2 * length (p ++ r) + 2)%nat 0 p v rest r E) in H'.
  - destruct (skipSpace (rest ++ r)) eqn:Er; [|discriminate].
    inversion H'; subst v'. split; [reflexivity|].
    apply skipSpace_nil in Er. rewrite allSpace_app in Er.
    now apply andb_true_iff in Er.
  - rewrite length_app. lia.
  - right. now left.
Qed.

Lemma storeObject_not_number {T : Type}
    (setField : bytes -> json -> T -> option T) (cur x : T) (v : json) :
  storeObject setField cur v = Some x -> isNumber v = false.
Proof. destruct v; simpl; try discriminate; reflexivity. Qed.

(** The decoder of the chunks is self-delimiting. *)
Lemma json_Unmarshal_sseChunk_selfDelimiting :
  selfDelimiting json_Unmarshal_sseChunk.
Proof.
  split.
  - intros p r c c' H H'. unfold json_Unmarshal_sseChunk in *.
    destruct (parseJSON p) as [v|] eqn:E; [|discriminate].
    destruct (parseJSON (p ++ r)) as [v'|] eqn:E'; [|discriminate].
    assert (Hv : isNumber v = false).
    { destruct (storeObject set_sseChunk _ v) eqn:Es; [|discriminate].
      eapply storeObject_not_number; eassumption. }
    destruct (parseJSON_app p r v v' E Hv E') as [-> Hr].
    split; [congruence | exact Hr].
  - intros s H. unfold json_Unmarshal_sseChunk.
    now rewrite (parseJSON_allSpace s H).
Qed.

(* ================================================================= *)
(** * A record that arrives in pieces *)

Lemma processedFrames_none (events : list event) :
  existsb terminal events = false -> processedFrames events = map fst events.
Proof.
  induction events as [|ev events IH]; simpl; [reflexivity|].
  intros H. apply orb_false_iff in H. destruct H as [H1 H2].
  now rewrite H1, IH.
Qed.

Lemma Contains_concat_false (pieces : list bytes) (m : bytes) :
  Contains (concat pieces) m = false ->
  Forall (fun p => Contains p m = false) pieces.
Proof.
  induction pieces as [|p pieces IH]; simpl; intros H; constructor.
  - now apply Contains_app_false in H.
  - apply IH. now apply Contains_app_false in H.
Qed.

Lemma frames_not_terminal (pieces : list bytes) :
  Contains (concat pieces) (bs "[DONE]") = false ->
  existsb terminal (map frameEvent pieces) = false.
Proof.
  intros H. apply Contains_concat_false in H.
  induction H as [|p pieces Hp _ IH]; simpl; [reflexivity|].
  unfold terminal at 1, checkEventEnd. simpl. now rewrite Hp, IH.
Qed.

Lemma map_fst_frameEvent (pieces : list bytes) :
  map fst (map frameEvent pieces) = pieces.
Proof. induction pieces as [|p l IH]; simpl; [|rewrite IH]; reflexivity. Qed.

(** At a terminal event the loop returns what the text, the
    citations and the channel hold; the reassembly buffer has no
    part in it. *)
Lemma readSSE_loop_terminal (unmarshal : bytes -> option sseChunk)
    (ctx : context_Context) (ev : event) (rest : list event)
    (a b : sseState) :
  terminal ev = true ->
  final a = final b -> finalCitations a = finalCitations b ->
  charCh a = charCh b ->
  readSSE_loop unmarshal ctx (ev :: rest) a =
  readSSE_loop unmarshal ctx (ev :: rest) b.
Proof.
  destruct ev as [raw err]. unfold terminal. simpl.
  intros Ht H1 H2 H3.
  destruct (checkEventEnd raw err) as [done [e|]]; simpl in Ht.
  - now rewrite H3.
  - subst done. now rewrite H1, H2, H3.
Qed.

Section Fragments.
Variable unmarshal : bytes -> option sseChunk.
Hypothesis Hsd : selfDelimiting unmarshal.

Lemma allSpace_payloads_firstn (frames : list bytes) (k : nat) :
  allSpace (concat (map payload frames)) = true ->
  allSpace (concat (map payload (firstn k frames))) = true.
Proof.
  intros H. rewrite <- (firstn_skipn k frames) in H.
  rewrite map_app, concat_app, allSpace_app in H.
  now apply andb_true_iff in H.
Qed.

(** Frames that bring white space to an empty buffer. *)
Lemma processAll_white (ctx : context_Context) (frames : list bytes)
    (st : sseState) :
  buf st = [] ->
  allSpace (concat (map payload frames)) = true ->
  emitted unmarshal ctx frames st = []
  /\ processAll unmarshal ctx frames st =
     {| buf := concat (map payload frames); final := final st;
        finalCitations := finalCitations st; charCh := charCh st |}.
Proof.
  intros Hb Hw.
  destruct (processAll_accumulate unmarshal ctx frames st) as (H1 & H2 & _).
  - intros k _. rewrite Hb. simpl. apply (proj2 Hsd).
    now apply allSpace_payloads_firstn.
  - split; [exact H2|]. now rewrite H1, Hb.
Qed.

(** The pieces of a record: the chunk is emitted once, when the
    buffer first decodes, and what follows is white space that stays
    in the buffer. *)
Lemma processAll_delimited (ctx : context_Context) (rec : bytes)
    (chunk : sseChunk) :
  unmarshal rec = Some chunk ->
  forall (pieces : list bytes) (st : sseState),
    buf st ++ concat (map payload pieces) = rec ->
    buf st <> rec ->
    emitted unmarshal ctx pieces st = [chunk]
    /\ exists ws,
         allSpace ws = true
         /\ processAll unmarshal ctx pieces st =
            {| buf := ws;
               final := final (snd (applyChunk ctx chunk st));
               finalCitations :=
                 finalCitations (snd (applyChunk ctx chunk st));
               charCh := charCh (snd (applyChunk ctx chunk st)) |}.
Proof.
  intros Hrec.
  induction pieces as [|raw rest IH]; intros st Hcat Hne.
  - simpl in Hcat. rewrite app_nil_r in Hcat. contradiction.
  - destruct raw as [|c raw'].
    + simpl. apply IH; auto.
    + set (raw := c :: raw') in *.
      assert (Hraw : raw <> []) by discriminate.
      simpl in Hcat. rewrite app_assoc in Hcat.
      destruct (unmarshal (buf st ++ payload raw)) as [c0|] eqn:Ed.
      * (* the buffer decodes *)
        assert (Hc : chunk = c0 /\
                     allSpace (concat (map payload rest)) = true).
        { apply (proj1 Hsd (buf st ++ payload raw)); [exact Ed|].
          now rewrite Hcat. }
        destruct Hc as [<- Hw].
        simpl. rewrite decoded_eq, Ed by exact Hraw.
        rewrite (processSSEChunk_success unmarshal ctx raw st chunk Hraw Ed).
        destruct (processAll_white ctx rest (snd (applyChunk ctx chunk st))
                    (applyChunk_buf ctx chunk st) Hw) as [E1 E2].
        rewrite E1, E2. split; [reflexivity|].
        exists (concat (map payload rest)). split; [exact Hw | reflexivity].
      * (* it does not: the payload stays in the buffer *)
        simpl. rewrite decoded_eq, Ed by exact Hraw.
        rewrite (processSSEChunk_fail unmarshal ctx raw st Hraw Ed).
        simpl.
        destruct (IH {| buf := buf st ++ payload raw; final := final st;
                        finalCitations := finalCitations st;
                        charCh := charCh st |}) as [E1 E2].
        -- exact Hcat.
        -- simpl. intros E. rewrite E in Ed. congruence.
        -- rewrite applyChunk_ignores_buf in E2. auto.
Qed.

End Fragments.

(** C1, as the code has it.  Let a frame without the sentinel carry,
    after its data marker, a record the decoder accepts.  Cut the
    frame into any number of pieces such that the payloads of the
    pieces (for each piece, the bytes after its first data marker, or
    the whole piece when it has none) make up the payload of the
    frame.  Then the pieces, delivered in order to an empty buffer,
    yield exactly the one Structured Chunk that the frame yields when
    delivered whole, and a call that ends after the pieces returns
    what a call that ends after the whole frame returns. *)
Theorem fragmented_record_same_chunk :
  forall (w : bytes) (pieces : list bytes) (chunk : sseChunk)
         (st : sseState),
    buf st = [] ->
    concat pieces = w ->
    concat (map payload pieces) = payload w ->
    Contains w (bs "[DONE]") = false ->
    json_Unmarshal_sseChunk (payload w) = Some chunk ->
    emitted json_Unmarshal_sseChunk None
      (processedFrames (map frameEvent pieces)) st = [chunk]
    /\ emitted json_Unmarshal_sseChunk None
         (processedFrames [frameEvent w]) st = [chunk]
    /\ forall ev rest,
         endsCall ev = true ->
         readSSE_loop json_Unmarshal_sseChunk None
           (map frameEvent pieces ++ ev :: rest) st
         = readSSE_loop json_Unmarshal_sseChunk None
             (frameEvent w :: ev :: rest) st.
Proof.
  intros w pieces chunk st Hb Hcat Hpay Hdone Hdec.
  pose proof json_Unmarshal_sseChunk_selfDelimiting as Hsd.
  assert (Hne : buf st <> payload w).
  { rewrite Hb. intros E. rewrite <- E in Hdec.
    rewrite (proj2 Hsd [] eq_refl) in Hdec. discriminate. }
  assert (Tp : existsb terminal (map frameEvent pieces) = false).
  { apply frames_not_terminal. now rewrite Hcat. }
  assert (Tw : existsb terminal [frameEvent w] = false).
  { apply (frames_not_terminal [w]). simpl. now rewrite app_nil_r. }
  destruct (processAll_delimited json_Unmarshal_sseChunk Hsd None
              (payload w) chunk Hdec pieces st) as (E1 & ws & _ & E2).
  { now rewrite Hb, Hpay. }
  { exact Hne. }
  destruct (processAll_delimited json_Unmarshal_sseChunk Hsd None
              (payload w) chunk Hdec [w] st) as (E3 & ws' & _ & E4).
  { rewrite Hb. simpl. now rewrite app_nil_r. }
  { exact Hne. }
  split; [|split].
  - now rewrite (processedFrames_none _ Tp), map_fst_frameEvent.
  - rewrite (processedFrames_none _ Tw). exact E3.
  - intros ev rest Hev.
    rewrite (readSSE_loop_prefix json_Unmarshal_sseChunk _ _ Tp).
    change (frameEvent w :: ev :: rest) with ([frameEvent w] ++ ev :: rest).
    rewrite (readSSE_loop_prefix json_Unmarshal_sseChunk _ _ Tw).
    rewrite map_fst_frameEvent.
    change (map fst [frameEvent w]) with [w].
    rewrite E2, E4.
    apply readSSE_loop_terminal;
      [now rewrite terminal_endsCall | reflexivity ..].
Qed.

Lemma fragmented_record_same_chunk_witness :
  buf sseState0 = []
  /\ concat pieces_hello = frame_hello
  /\ concat (map payload pieces_hello) = payload frame_hello
  /\ Contains frame_hello (bs "[DONE]") = false
  /\ json_Unmarshal_sseChunk (payload frame_hello) = Some chunk_hello
  /\ emitted json_Unmarshal_sseChunk None
       (processedFrames (map frameEvent pieces_hello)) sseState0
     = [chunk_hello]
  /\ emitted json_Unmarshal_sseChunk None
       (processedFrames [frameEvent frame_hello]) sseState0
     = [chunk_hello]
  /\ readSSE json_Unmarshal_sseChunk
       (map frameEvent pieces_hello ++ [([], Some io_EOF)])
     = readSSE json_Unmarshal_sseChunk
         [frameEvent frame_hello; ([], Some io_EOF)].
Proof.
  assert (H1 : buf sseState0 = []) by reflexivity.
  assert (H2 : concat pieces_hello = frame_hello) by (vm_compute; reflexivity).
  assert (H3 : concat (map payload pieces_hello) = payload frame_hello)
    by (vm_compute; reflexivity).
  assert (H4 : Contains frame_hello (bs "[DONE]") = false)
    by (vm_compute; reflexivity).
  assert (H5 : json_Unmarshal_sseChunk (payload frame_hello)
               = Some chunk_hello) by (vm_compute; reflexivity).
  pose proof (fragmented_record_same_chunk frame_hello pieces_hello
                chunk_hello sseState0 H1 H2 H3 H4 H5) as (W1 & W2 & W3).
  refine (conj H1 (conj H2 (conj H3 (conj H4 (conj H5
            (conj W1 (conj W2 _))))))).
  exact (W3 ([], Some io_EOF) [] eq_refl).
Defined.

(** The white space that follows a record may arrive in a piece of
    its own: the chunk is the same, and the white space stays in the
    buffer. *)
Example fragmented_record_trailing_space :
  concat pieces_spaced = frame_spaced
  /\ emitted json_Unmarshal_sseChunk None pieces_spaced sseState0
     = emitted json_Unmarshal_sseChunk None [frame_spaced] sseState0
  /\ buf (processAll json_Unmarshal_sseChunk None pieces_spaced sseState0)
     = bs " "
  /\ buf (processAll json_Unmarshal_sseChunk None [frame_spaced] sseState0)
     = [].
Proof. repeat split; vm_compute; reflexivity. Qed.

(** C1, as stated, fails: a record whose text contains the data marker
    and that is cut before that marker decodes to another chunk than
    the whole frame does, because the marker is looked for in every
    piece. *)
Lemma fragmented_record_marker_in_text :
  ~ (forall (w : bytes) (pieces : list bytes) (chunk : sseChunk),
       concat pieces = w ->
       emitted json_Unmarshal_sseChunk None [w] sseState0 = [chunk] ->
       emitted json_Unmarshal_sseChunk None pieces sseState0 = [chunk]).
Proof.
  intros H.
  specialize (H frame_marker pieces_marker
                {| Choices :=
                     [{| Delta := {| sseDelta_Content := bs "a data: b" |};
                         FinishReason := [] |}];
                   Citations := [] |}).
  assert (E : emitted json_Unmarshal_sseChunk None pieces_marker sseState0 =
              [{| Choices :=
                    [{| Delta := {| sseDelta_Content := bs "ab" |};
                        FinishReason := [] |}];
                  Citations := [] |}]) by (vm_compute; reflexivity).
  rewrite E in H.
  assert (C : concat pieces_marker = frame_marker) by (vm_compute; reflexivity).
  specialize (H C). 
  assert (D : emitted json_Unmarshal_sseChunk None [frame_marker] sseState0 =
              [{| Choices :=
                    [{| Delta := {| sseDelta_Content := bs "a data: b" |};
                        FinishReason := [] |}];
                  Citations := [] |}]) by (vm_compute; reflexivity).
  specialize (H D). vm_compute in H. discriminate H.
Qed.


(** Nor does it hold of a frame that contains the sentinel: the whole
    frame ends the call before its record is decoded, and pieces that
    cut the sentinel deliver the record. *)
Lemma fragmented_record_sentinel_cut :
  concat pieces_done_inside = frame_done_inside
  /\ concat (map payload pieces_done_inside) = payload frame_done_inside
  /\ option_map ret_final
       (readSSE json_Unmarshal_sseChunk
          [frameEvent frame_done_inside; ([], Some io_EOF)])
     = Some []
  /\ option_map ret_final
       (readSSE json_Unmarshal_sseChunk
          (map frameEvent pieces_done_inside ++ [([], Some io_EOF)]))
     = Some (bs "say [DONE] now").
Proof. repeat split; vm_compute; reflexivity. Qed.

(* ----------------------------------------------------------------- *)
(** ** The paced emitter *)

Lemma emitterInv_init (submitted : list rune) :
  emitterInv submitted (emitter0 submitted).
Proof.
  unfold emitterInv, emitter0; simpl.
  repeat split; try discriminate; auto.
Qed.

Lemma emitterInv_step (submitted : list rune) (e e' : emitter) :
  step e e' -> emitterInv submitted e -> emitterInv submitted e'.
Proof.
  intros Hs (Hseq & Hcan & Hcl & Hpend & Hfin & Hret).
  destruct Hs; unfold emitterInv; simpl in *;
    (split;
     [ first [ exact Hseq
             | rewrite <- Hseq, <- ?app_assoc; reflexivity
             | exfalso; intuition discriminate ]
     | intuition (subst; try discriminate; try congruence) ]).
Qed.

Lemma reachable_inv (submitted : list rune) (e : emitter) :
  reachable submitted e -> emitterInv submitted e.
Proof.
  unfold reachable. intros H. apply clos_rt_rtn1 in H.
  induction H as [|e1 e2 Hs _ IH].
  - apply emitterInv_init.
  - eapply emitterInv_step; eassumption.
Qed.

Lemma step_decreases (e e' : emitter) :
  step e e' -> 0 <= stepsLeft e' < stepsLeft e.
Proof.
  intros Hs. destruct Hs; unfold stepsLeft, len; simpl pending;
    simpl queue; simpl pr; simpl fd;
    rewrite ?length_app; simpl length; cbv iota;
    repeat match goal with
           | |- context [match ?x with _ => _ end] => is_var x; destruct x
           end; lia.
Qed.

Lemma step_well_founded : well_founded (fun e' e => step e e').
Proof.
  apply (well_founded_lt_compat _ (fun e => Z.to_nat (stepsLeft e))).
  intros e' e Hs. apply step_decreases in Hs. lia.
Qed.

Lemma emitter_progress (submitted : list rune) (e : emitter) :
  emitterInv submitted e -> fd e <> Returned -> exists e', step e e'.
Proof.
  intros (Hseq & Hcan & Hcl & Hpend & Hfin & Hret) Hnr.
  destruct e as [p q b k c f s]; simpl in *.
  destruct c.
  - (* at the select *)
    destruct q as [|r q].
    + destruct b.
      * eexists. apply step_recv_closed.
      * assert (f = Sending) by (apply Hcl; reflexivity). subst f.
        destruct p as [|r p].
        -- eexists. apply step_close.
        -- eexists. apply step_send. unfold len, smoothPrintBufferSize.
           simpl. lia.
    + eexists. apply step_recv.
  - eexists. apply step_tick.
  - destruct (Hfin eq_refl) as [-> ->].
    destruct f.
    + assert (true = false) by (apply Hcl; reflexivity). discriminate.
    + eexists. apply step_join.
    + contradiction.
Qed.

(** C9.  In every state that a run of the emitter reaches, the runes
    printed, the runes queued in the channel and the runes still to be
    sent make up the submitted sequence, in its order: nothing is
    lost, duplicated or reordered, however sends and receives
    interleave.  The printer returns only once the channel is closed
    and drained, so when it has returned, and when [readSSE] has
    returned, the sink holds the whole submitted sequence.  Every run
    gets there: a state in which [readSSE] has not returned has a next
    step, and no run is infinite. *)
Theorem paced_emitter_preserves_order_and_drains :
  forall submitted : list rune,
    (forall e, reachable submitted e ->
       sink e ++ queue e ++ pending e = submitted)
    /\ (forall e, reachable submitted e -> pr e = Finished ->
          closed e = true /\ sink e = submitted)
    /\ (forall e, reachable submitted e -> fd e = Returned ->
          sink e = submitted)
    /\ (forall e, reachable submitted e -> fd e <> Returned ->
          exists e', step e e')
    /\ well_founded (fun e' e => step e e').
Proof.
  intros submitted.
  assert (Hfin : forall e, reachable submitted e -> pr e = Finished ->
            closed e = true /\ sink e = submitted).
  { intros e Hr Hp.
    destruct (reachable_inv _ _ Hr) as (Hseq & _ & _ & Hpend & Hf & _).
    destruct (Hf Hp) as [Hq Hc]. split; [exact Hc|].
    rewrite Hq, (Hpend Hc) in Hseq. simpl in Hseq.
    now rewrite app_nil_r in Hseq. }
  split; [|split; [|split; [|split]]].
  - intros e Hr. apply (reachable_inv _ _ Hr).
  - exact Hfin.
  - intros e Hr Hret. apply Hfin; [assumption|].
    apply (reachable_inv _ _ Hr). exact Hret.
  - intros e Hr. apply emitter_progress with submitted.
    now apply reachable_inv.
  - apply step_well_founded.
Qed.

(* ----------------------------------------------------------------- *)
(** ** Paths *)

Lemma byte_eqb_refl (x : byte) : Byte.eqb x x = true.
Proof. now apply byte_dec_lb. Qed.

Lemma byte_eqb_neq (x y : byte) : x <> y -> Byte.eqb x y = false.
Proof.
  intros H. destruct (Byte.eqb x y) eqn:E; [|reflexivity].
  apply byte_dec_bl in E. contradiction.
Qed.

Lemma mem_In (x : bytes) (l : list bytes) : mem x l = true <-> In x l.
Proof.
  induction l as [|y l IH]; simpl; [split; [discriminate | tauto]|].
  rewrite orb_true_iff, IH, bytes_eqb_eq. split; intros [H|H]; auto.
Qed.

Lemma mem_not_In (x : bytes) (l : list bytes) : mem x l = false <-> ~ In x l.
Proof.
  rewrite <- mem_In. destruct (mem x l); split; congruence.
Qed.

Lemma splitPath_nonempty (p : bytes) : splitPath p <> [].
Proof.
  induction p as [|c p IH]; simpl; [discriminate|].
  destruct (Byte.eqb c PathSeparator); [discriminate|].
  destruct (splitPath p); [contradiction | discriminate].
Qed.

Lemma splitPath_app_sep (a b : bytes) :
  splitPath (a ++ PathSeparator :: b) = splitPath a ++ splitPath b.
Proof.
  induction a as [|c a IH]; simpl.
  - reflexivity.
  - destruct (Byte.eqb c PathSeparator); rewrite IH; [reflexivity|].
    pose proof (splitPath_nonempty a) as Hne.
    destruct (splitPath a); [contradiction | reflexivity].
Qed.

Lemma splitPath_slashFree (c : bytes) : slashFree c -> splitPath c = [c].
Proof.
  unfold slashFree. induction c as [|x c IH]; simpl; intros H;
    [reflexivity|].
  rewrite byte_eqb_neq by (intros E; apply H; auto).
  rewrite IH by (intros E; apply H; auto). reflexivity.
Qed.

Lemma splitPath_all_slashFree (p : bytes) : Forall slashFree (splitPath p).
Proof.
  unfold slashFree. induction p as [|c p IH]; simpl.
  - constructor; [tauto | constructor].
  - destruct (Byte.eqb c PathSeparator) eqn:E.
    + constructor; [tauto | exact IH].
    + destruct (splitPath p) as [|comp rest]; inversion IH; subst.
      * constructor; [|constructor]. simpl. intros [H|H]; [|tauto].
        subst c. rewrite byte_eqb_refl in E. discriminate.
      * constructor; [|assumption]. simpl. intros [H|H]; [|tauto].
        subst c. rewrite byte_eqb_refl in E. discriminate.
Qed.

Lemma cleanStep_plain (rooted : bool) (stack : list bytes) (c : bytes) :
  plain c -> cleanStep rooted stack c = c :: stack.
Proof.
  intros (H1 & _ & H2 & H3). unfold cleanStep.
  rewrite (proj2 (bytes_eqb_neq c [])), (proj2 (bytes_eqb_neq c dot)),
    (proj2 (bytes_eqb_neq c dotdot)) by assumption.
  reflexivity.
Qed.

Lemma cleanStep_empty (rooted : bool) (stack : list bytes) :
  cleanStep rooted stack [] = stack.
Proof. reflexivity. Qed.

Lemma fold_cleanStep_plain (rooted : bool) (cs : list bytes) :
  Forall plain cs ->
  forall stack, fold_left (cleanStep rooted) cs stack = rev cs ++ stack.
Proof.
  induction 1 as [|c cs Hc _ IH]; intros stack; simpl; [reflexivity|].
  rewrite cleanStep_plain by assumption.
  rewrite IH, <- app_assoc. reflexivity.
Qed.

(** On a rooted path the stack of [Clean] holds plain elements only. *)
Lemma fold_cleanStep_rooted_plain (cs : list bytes) :
  Forall slashFree cs ->
  forall stack, Forall plain stack ->
    Forall plain (fold_left (cleanStep true) cs stack).
Proof.
  induction 1 as [|c cs Hc _ IH]; intros stack Hst; simpl; [assumption|].
  apply IH. unfold cleanStep.
  destruct (bytes_eqb c []) eqn:E1; simpl; [assumption|].
  destruct (bytes_eqb c dot) eqn:E2; simpl; [assumption|].
  destruct (bytes_eqb c dotdot) eqn:E3.
  - destruct stack as [|top below]; [constructor|].
    destruct (bytes_eqb top dotdot); [assumption|].
    now inversion Hst.
  - constructor; [|assumption].
    apply bytes_eqb_neq in E1, E2, E3. repeat split; assumption.
Qed.

Lemma Clean_rooted (p : bytes) :
  Clean (PathSeparator :: p) =
    rootedPath (rev (fold_left (cleanStep true) (splitPath p) [])).
Proof. reflexivity. Qed.

Lemma Clean_rooted_canonical (p : bytes) : canonical (Clean (PathSeparator :: p)).
Proof.
  rewrite Clean_rooted. eexists. split; [|reflexivity].
  apply Forall_rev. apply fold_cleanStep_rooted_plain.
  - apply splitPath_all_slashFree.
  - constructor.
Qed.

Lemma IsAbs_cons (p : bytes) :
  IsAbs p = true -> exists p', p = PathSeparator :: p'.
Proof.
  unfold IsAbs. intros H. apply HasPrefix_iff in H.
  destruct H as [r ->]. now exists r.
Qed.

(** With an absolute working directory, [filepath.Abs] returns
    canonical paths. *)
Lemma filepath_Abs_canonical (wd : option bytes) (p a : bytes) :
  (forall d, wd = Some d -> IsAbs d = true) ->
  filepath_Abs wd p = Ok a -> canonical a.
Proof.
  intros Hwd. unfold filepath_Abs.
  destruct (IsAbs p) eqn:Ep.
  - intros H; inversion H; subst a.
    destruct (IsAbs_cons p Ep) as [p' ->]. apply Clean_rooted_canonical.
  - destruct wd as [d|]; [|discriminate].
    intros H; inversion H; subst a.
    destruct (IsAbs_cons d (Hwd d eq_refl)) as [d' ->].
    simpl. apply Clean_rooted_canonical.
Qed.

Lemma join_last (cs : list bytes) :
  Forall plain cs -> cs <> [] ->
  exists t x, join [PathSeparator] cs = t ++ [x] /\ x <> PathSeparator.
Proof.
  induction 1 as [|c cs Hc Hcs IH]; intros Hne; [contradiction|].
  destruct cs as [|c2 cs'].
  - destruct Hc as (H1 & H2 & _).
    destruct (exists_last H1) as (t & x & E). exists t, x.
    split; [exact E|]. intros Hx. apply H2. rewrite E.
    apply in_or_app. right. left. exact Hx.
  - destruct IH as (t & x & E & Hx); [discriminate|].
    exists (c ++ [PathSeparator] ++ t), x. split; [|exact Hx].
    change (join [PathSeparator] (c :: c2 :: cs'))
      with (c ++ [PathSeparator] ++ join [PathSeparator] (c2 :: cs')).
    rewrite E, <- !app_assoc. reflexivity.
Qed.

Lemma canonical_nonempty (p : bytes) : canonical p -> p <> [].
Proof. intros (cs & _ & ->). discriminate. Qed.

Lemma canonical_no_trailing_sep (p q : bytes) :
  canonical p -> p = q ++ [PathSeparator] -> q = [].
Proof.
  intros (cs & Hcs & ->) E. destruct cs as [|c cs].
  - change (rootedPath []) with ([] ++ [PathSeparator]) in E.
    apply app_inj_tail in E. now destruct E.
  - destruct (join_last (c :: cs) Hcs) as (t & x & Ej & Hx);
      [discriminate|].
    unfold rootedPath in E. rewrite Ej in E.
    change (PathSeparator :: t ++ [x]) with ((PathSeparator :: t) ++ [x]) in E.
    apply app_inj_tail in E. destruct E as [_ E]. contradiction.
Qed.

(** C5.  With the base directory and the candidate resolved to
    canonical absolute form, [checkPath] succeeds, returning the
    resolved candidate, when the candidate is the base directory
    itself or lies strictly under it -- the base, a separator and a
    non-empty remainder -- and fails with the path-violation error
    otherwise.  In particular a sibling that shares the base's name as
    a string prefix (base /a/b, candidate /a/bx) and the traversal
    path [../outside] resolved against the base are rejected. *)
Theorem checkPath_separator_bounded :
  forall (wd : option bytes) (basePath filePath absBase absFile : bytes),
    (forall d, wd = Some d -> IsAbs d = true) ->
    filepath_Abs wd basePath = Ok absBase ->
    filepath_Abs wd filePath = Ok absFile ->
    (insideBase absBase absFile ->
     checkPath wd basePath filePath = Ok absFile)
    /\ (~ insideBase absBase absFile ->
        checkPath wd basePath filePath = Err (ErrPathViolation filePath))
    /\ checkPath wd (bs "/a/b") (bs "/a/bx")
       = Err (ErrPathViolation (bs "/a/bx"))
    /\ checkPath wd (bs "/a/b") (filepath_Join [bs "/a/b"; bs "../outside"])
       = Err (ErrPathViolation (bs "/a/outside"))
    /\ checkPath (Some (bs "/a/b")) (bs "/a/b") (bs "../outside")
       = Err (ErrPathViolation (bs "../outside")).
Proof.
  intros wd basePath filePath absBase absFile Hwd Hb Hf.
  pose proof (filepath_Abs_canonical wd _ _ Hwd Hb) as Cb.
  pose proof (filepath_Abs_canonical wd _ _ Hwd Hf) as Cf.
  unfold checkPath. rewrite Hb, Hf.
  split; [|split; [|split; [|split]]].
  - intros [E | (rest & _ & E)].
    + subst. rewrite bytes_eqb_refl, andb_false_r. reflexivity.
    + subst absFile. rewrite app_assoc, HasPrefix_app. reflexivity.
  - intros Hout.
    destruct (HasPrefix absFile (absBase ++ [PathSeparator])) eqn:Ep.
    + exfalso. apply Hout. right.
      apply HasPrefix_iff in Ep. destruct Ep as [r E].
      exists r. split; [|now rewrite E, <- app_assoc].
      intros ->. rewrite app_nil_r in E.
      apply (canonical_nonempty _ Cb).
      exact (canonical_no_trailing_sep _ _ Cf E).
    + destruct (bytes_eqb absFile absBase) eqn:Ee; [|reflexivity].
      exfalso. apply Hout. left. now apply bytes_eqb_eq.
  - reflexivity.
  - reflexivity.
  - reflexivity.
Qed.

Lemma checkPath_separator_bounded_witness :
  (forall d, Some (bs "/w") = Some d -> IsAbs d = true)
  /\ filepath_Abs (Some (bs "/w")) (bs "/a/b") = Ok (bs "/a/b")
  /\ filepath_Abs (Some (bs "/w")) (bs "t/../x.json") = Ok (bs "/w/x.json")
  /\ ~ insideBase (bs "/a/b") (bs "/w/x.json")
  /\ checkPath (Some (bs "/w")) (bs "/a/b") (bs "t/../x.json")
     = Err (ErrPathViolation (bs "t/../x.json"))
  /\ insideBase (bs "/w") (bs "/w/x.json")
  /\ checkPath (Some (bs "/w")) (bs "/w") (bs "t/../x.json")
     = Ok (bs "/w/x.json").
Proof.
  assert (H1 : forall d, Some (bs "/w") = Some d -> IsAbs d = true).
  { intros d E. inversion E; subst d. reflexivity. }
  assert (H2 : filepath_Abs (Some (bs "/w")) (bs "/a/b") = Ok (bs "/a/b"))
    by reflexivity.
  assert (H3 : filepath_Abs (Some (bs "/w")) (bs "t/../x.json")
               = Ok (bs "/w/x.json")) by reflexivity.
  assert (H4 : ~ insideBase (bs "/a/b") (bs "/w/x.json")).
  { intros [E | (rest & _ & E)]; vm_compute in E; discriminate E. }
  assert (H5 : filepath_Abs (Some (bs "/w")) (bs "/w") = Ok (bs "/w"))
    by reflexivity.
  assert (H6 : insideBase (bs "/w") (bs "/w/x.json")).
  { right. exists (bs "x.json"). split; [discriminate | reflexivity]. }
  refine (conj H1 (conj H2 (conj H3 (conj H4 (conj _ (conj H6 _)))))).
  - exact (proj1 (proj2 (checkPath_separator_bounded _ _ _ _ _ H1 H2 H3)) H4).
  - exact (proj1 (checkPath_separator_bounded _ _ _ _ _ H1 H5 H3) H6).
Defined.

(* ----------------------------------------------------------------- *)
(** ** The conversation store *)

Lemma join_snoc (cs : list bytes) (n : bytes) :
  cs <> [] ->
  join [PathSeparator] (cs ++ [n]) =
    join [PathSeparator] cs ++ PathSeparator :: n.
Proof.
  induction cs as [|c cs IH]; intros Hne; [contradiction|].
  destruct cs as [|c2 cs'].
  - reflexivity.
  - change (join [PathSeparator] ((c :: c2 :: cs') ++ [n]))
      with (c ++ [PathSeparator] ++ join [PathSeparator] ((c2 :: cs') ++ [n])).
    rewrite IH by discriminate.
    change (join [PathSeparator] (c :: c2 :: cs'))
      with (c ++ [PathSeparator] ++ join [PathSeparator] (c2 :: cs')).
    rewrite <- !app_assoc. reflexivity.
Qed.

Lemma splitPath_join (cs : list bytes) :
  Forall plain cs -> cs <> [] ->
  splitPath (join [PathSeparator] cs) = cs.
Proof.
  induction 1 as [|c cs Hc Hcs IH]; intros Hne; [contradiction|].
  destruct cs as [|c2 cs'].
  - simpl. apply splitPath_slashFree. apply Hc.
  - change (join [PathSeparator] (c :: c2 :: cs'))
      with (c ++ PathSeparator :: join [PathSeparator] (c2 :: cs')).
    rewrite splitPath_app_sep, IH by discriminate.
    rewrite splitPath_slashFree by apply Hc. reflexivity.
Qed.

(** A canonical path is clean. *)
Lemma Clean_rootedPath (cs : list bytes) :
  Forall plain cs -> Clean (rootedPath cs) = rootedPath cs.
Proof.
  intros Hcs. unfold rootedPath at 1. rewrite Clean_rooted.
  destruct cs as [|c cs'].
  - reflexivity.
  - rewrite splitPath_join by (assumption || discriminate).
    rewrite fold_cleanStep_plain by assumption.
    now rewrite app_nil_r, rev_involutive.
Qed.

(** A plain element appended to a canonical path. *)
Lemma Clean_child (cs : list bytes) (n : bytes) :
  Forall plain cs -> plain n ->
  Clean (rootedPath cs ++ PathSeparator :: n) = rootedPath (cs ++ [n]).
Proof.
  intros Hcs Hn. unfold rootedPath at 1.
  change ((PathSeparator :: join [PathSeparator] cs) ++ PathSeparator :: n)
    with (PathSeparator :: (join [PathSeparator] cs ++ PathSeparator :: n)).
  rewrite Clean_rooted, splitPath_app_sep.
  rewrite (splitPath_slashFree n) by apply Hn.
  rewrite fold_left_app.
  destruct cs as [|c cs'].
  - simpl. rewrite cleanStep_plain by assumption. reflexivity.
  - rewrite splitPath_join by (assumption || discriminate).
    rewrite (fold_cleanStep_plain true (c :: cs') Hcs), app_nil_r.
    simpl fold_left. rewrite cleanStep_plain by assumption.
    simpl. rewrite rev_app_distr, rev_involutive. reflexivity.
Qed.

Lemma rootedPath_snoc (cs : list bytes) (n : bytes) :
  cs <> [] ->
  rootedPath (cs ++ [n]) = rootedPath cs ++ PathSeparator :: n.
Proof.
  intros Hne. unfold rootedPath. now rewrite join_snoc.
Qed.

Lemma rootedPath_not_root (cs : list bytes) :
  Forall plain cs -> cs <> [] -> rootedPath cs <> [PathSeparator].
Proof.
  intros Hcs Hne E.
  destruct (join_last cs Hcs Hne) as (t & x & Ej & _).
  unfold rootedPath in E. rewrite Ej in E.
  inversion E as [E']. destruct t; discriminate.
Qed.

Section BaseDirectory.
(** The base directory of a store: canonical and not the root. *)
Variable base : bytes.
Variable cb : list bytes.
Hypothesis base_eq : base = rootedPath cb.
Hypothesis cb_plain : Forall plain cb.
Hypothesis cb_nonempty : cb <> [].

Lemma child_base (n : bytes) : child base n = base ++ PathSeparator :: n.
Proof.
  unfold child.
  rewrite (proj2 (bytes_eqb_neq base [PathSeparator])); [reflexivity|].
  rewrite base_eq. now apply rootedPath_not_root.
Qed.

Lemma Abs_base (wd : option bytes) : filepath_Abs wd base = Ok base.
Proof.
  unfold filepath_Abs. rewrite base_eq. unfold rootedPath at 1.
  simpl IsAbs. cbv iota.
  change (PathSeparator :: join [PathSeparator] cb) with (rootedPath cb).
  now rewrite Clean_rootedPath.
Qed.

Lemma Join_base (n : bytes) :
  plain n -> filepath_Join [base; n] = child base n.
Proof.
  intros Hn. rewrite child_base. rewrite base_eq at 1.
  unfold filepath_Join, rootedPath at 1.
  change (join [PathSeparator] [rootedPath cb; n])
    with (rootedPath cb ++ PathSeparator :: n).
  rewrite Clean_child by assumption.
  rewrite rootedPath_snoc by assumption. now rewrite base_eq.
Qed.

Lemma Abs_child (wd : option bytes) (n : bytes) :
  plain n -> filepath_Abs wd (child base n) = Ok (child base n).
Proof.
  intros Hn. rewrite child_base, base_eq.
  unfold filepath_Abs, rootedPath at 1. simpl IsAbs. cbv iota.
  change ((PathSeparator :: join [PathSeparator] cb) ++ PathSeparator :: n)
    with (rootedPath cb ++ PathSeparator :: n).
  rewrite Clean_child by assumption.
  now rewrite rootedPath_snoc.
Qed.

(** The path check lets the entries of the base directory through. *)
Lemma checkPath_child (wd : option bytes) (n : bytes) :
  plain n -> checkPath wd base (child base n) = Ok (child base n).
Proof.
  intros Hn. unfold checkPath.
  rewrite (Abs_child wd n Hn), Abs_base.
  rewrite child_base.
  change (base ++ PathSeparator :: n) with (base ++ [PathSeparator] ++ n).
  rewrite app_assoc, HasPrefix_app. reflexivity.
Qed.

Lemma parentDir_aux_slashFree (n : bytes) :
  slashFree n -> parentDir_aux n = None.
Proof.
  unfold slashFree. induction n as [|c n IH]; intros H; [reflexivity|].
  simpl. rewrite IH by (intros E; apply H; now right).
  rewrite byte_eqb_neq; [reflexivity|]. intros E. apply H. now left.
Qed.

Lemma parentDir_aux_app (b n : bytes) :
  slashFree n -> parentDir_aux (b ++ PathSeparator :: n) = Some b.
Proof.
  intros Hn. induction b as [|c b IH]; simpl.
  - now rewrite parentDir_aux_slashFree.
  - now rewrite IH.
Qed.

Lemma parentDir_child (n : bytes) :
  slashFree n -> parentDir (child base n) = base.
Proof.
  intros Hn. rewrite child_base. unfold parentDir.
  rewrite parentDir_aux_app by assumption.
  destruct base eqn:E; [|reflexivity].
  rewrite base_eq in E. discriminate.
Qed.

End BaseDirectory.

(** Directory entries. *)

Lemma Index_from_single (c : byte) (s : bytes) :
  forall i, 0 <= i -> (Index_from i s [c] = -1 <-> ~ In c s).
Proof.
  induction s as [|x s IH]; intros i Hi; simpl.
  - tauto.
  - destruct (Byte.eqb x c) eqn:E; simpl.
    + apply byte_dec_bl in E. subst. split; [lia | intros H; exfalso; auto].
    + rewrite IH by lia. apply Byte.eqb_false in E.
      split; [intros H [F|F]; auto | tauto].
Qed.

Lemma Contains_single (c : byte) (s : bytes) :
  Contains s [c] = false <-> ~ In c s.
Proof.
  unfold Contains, Index. rewrite negb_false_iff, Z.eqb_eq.
  apply Index_from_single. lia.
Qed.

Lemma child_app (dir n : bytes) : child dir n = child dir [] ++ n.
Proof.
  unfold child. destruct (bytes_eqb dir [PathSeparator]).
  - now rewrite app_nil_r.
  - rewrite <- !app_assoc. reflexivity.
Qed.

Lemma skipn_length_app {A} (l r : list A) : skipn (length l) (l ++ r) = r.
Proof. induction l; simpl; auto. Qed.

Lemma entryName_Some (dir p n : bytes) :
  entryName dir p = Some n ->
  p = child dir n /\ n <> [] /\ slashFree n.
Proof.
  unfold entryName. destruct (HasPrefix p (child dir [])) eqn:Ep;
    [|discriminate].
  apply HasPrefix_iff in Ep. destruct Ep as [r ->].
  rewrite skipn_length_app.
  destruct (bytes_eqb r []) eqn:E1; [discriminate|].
  destruct (Contains r [PathSeparator]) eqn:E2; [discriminate|].
  simpl. intros H; inversion H; subst n.
  repeat split.
  - symmetry. apply child_app.
  - now apply bytes_eqb_neq.
  - now apply Contains_single.
Qed.

Lemma entryName_child (dir n : bytes) :
  n <> [] -> slashFree n -> entryName dir (child dir n) = Some n.
Proof.
  intros H1 H2. unfold entryName.
  rewrite (child_app dir n), HasPrefix_app, skipn_length_app.
  rewrite (proj2 (bytes_eqb_neq n [])) by assumption.
  rewrite (proj2 (Contains_single _ n)) by assumption. reflexivity.
Qed.

Lemma entries_In (dir : bytes) (paths : list bytes) (n : bytes) :
  In n (entries dir paths) <->
  exists p, In p paths /\ entryName dir p = Some n.
Proof.
  induction paths as [|p paths IH]; simpl.
  - split; [tauto | intros (p & [] & _)].
  - destruct (entryName dir p) as [m|] eqn:E; simpl; rewrite IH.
    + split.
      * intros [-> | (q & Hq & Eq)]; [exists p; auto | exists q; auto].
      * intros (q & [-> | Hq] & Eq); [left; congruence | right; eauto].
    + split.
      * intros (q & Hq & Eq). exists q; auto.
      * intros (q & [-> | Hq] & Eq); [congruence | eauto].
Qed.

Lemma entries_app (dir : bytes) (l1 l2 : list bytes) :
  entries dir (l1 ++ l2) = entries dir l1 ++ entries dir l2.
Proof.
  induction l1 as [|p l1 IH]; simpl; [reflexivity|].
  destruct (entryName dir p); rewrite IH; reflexivity.
Qed.

Lemma entries_NoDup (dir : bytes) (paths : list bytes) :
  NoDup paths -> NoDup (entries dir paths).
Proof.
  induction 1 as [|p paths Hp _ IH]; simpl; [constructor|].
  destruct (entryName dir p) as [n|] eqn:E; [|assumption].
  constructor; [|assumption].
  rewrite entries_In. intros (q & Hq & Eq).
  apply entryName_Some in E, Eq. destruct E as [-> _], Eq as [-> _].
  contradiction.
Qed.

Lemma entries_wf (dir : bytes) (paths : list bytes) (n : bytes) :
  In n (entries dir paths) -> n <> [] /\ slashFree n.
Proof.
  rewrite entries_In. intros (p & _ & E).
  apply entryName_Some in E. tauto.
Qed.

(** Files. *)

Lemma lookup_update (p d : bytes) (l : list (bytes * bytes)) :
  lookup p (update p d l) = Some d.
Proof.
  induction l as [|[q e] l IH]; simpl.
  - now rewrite bytes_eqb_refl.
  - destruct (bytes_eqb p q) eqn:E; simpl.
    + now rewrite bytes_eqb_refl.
    + now rewrite E.
Qed.

Lemma update_keys (p d : bytes) (l : list (bytes * bytes)) (q : bytes) :
  In q (map fst (update p d l)) <-> q = p \/ In q (map fst l).
Proof.
  induction l as [|[k e] l IH]; simpl.
  - split; [intros [H|[]]; auto | intros [H|[]]; auto].
  - destruct (bytes_eqb p k) eqn:E; simpl.
    + apply bytes_eqb_eq in E. subst k.
      split; [intros [H|H]; auto | intros [H|[H|H]]; auto].
    + rewrite IH. split; [intros [H|[H|H]]; auto | intros [H|[H|H]]; auto].
Qed.

Lemma update_NoDup (p d : bytes) (l : list (bytes * bytes))
    (ds : list bytes) :
  NoDup (map fst l ++ ds) -> ~ In p ds ->
  NoDup (map fst (update p d l) ++ ds).
Proof.
  intros H Hp. induction l as [|[k e] l IH]; simpl in *.
  - constructor; assumption.
  - inversion H as [|? ? Hk Hrest]; subst.
    destruct (bytes_eqb p k) eqn:E; simpl.
    + apply bytes_eqb_eq in E. subst k. constructor; assumption.
    + apply bytes_eqb_neq in E. constructor; [|apply IH; assumption].
      rewrite in_app_iff, update_keys. rewrite in_app_iff in Hk.
      intros [[F|F]|F]; auto.
Qed.

Lemma filter_unique {A} (f : A -> bool) (a : A) (l : list A) :
  NoDup l -> In a l -> f a = true ->
  (forall x, In x l -> f x = true -> x = a) ->
  filter f l = [a].
Proof.
  induction 1 as [|y l Hy Hnd IH]; intros Hin Hfa Huniq; [contradiction|].
  simpl. destruct (f y) eqn:Ey.
  - assert (y = a) by (apply Huniq; [now left | assumption]). subst y.
    f_equal.
    assert (Hnone : forall x, In x l -> f x = false).
    { intros x Hx. destruct (f x) eqn:Ex; [|reflexivity].
      assert (x = a) by (apply Huniq; [now right | assumption]).
      subst x. contradiction. }
    clear - Hnone. induction l as [|z l IH]; [reflexivity|].
    simpl. rewrite Hnone by now left. apply IH.
    intros x Hx. apply Hnone. now right.
  - apply IH.
    + destruct Hin as [->|Hin]; [congruence | assumption].
    + assumption.
    + intros x Hx. apply Huniq. now right.
Qed.

(** The loop of [Load], by the entries that match. *)
Lemma Load_scan_matching (idPrefix : bytes) (names : list bytes) :
  Forall (fun n => n <> []) names ->
  forall mtch,
    Load_scan idPrefix names mtch =
      match matching idPrefix names with
      | [] => Ok mtch
      | n :: rest =>
          if negb (bytes_eqb mtch []) then Err (ErrAmbiguousPrefix idPrefix)
          else
            match rest with
            | [] => Ok n
            | _ :: _ => Err (ErrAmbiguousPrefix idPrefix)
            end
      end.
Proof.
  unfold matching.
  induction 1 as [|name names Hname _ IH]; intros mtch; [reflexivity|].
  simpl. destruct (HasPrefix name idPrefix) eqn:E.
  - destruct (negb (bytes_eqb mtch [])); [reflexivity|].
    rewrite IH.
    rewrite (proj2 (bytes_eqb_neq name [])) by assumption. simpl.
    destruct (filter (fun n => HasPrefix n idPrefix) names); reflexivity.
  - apply IH.
Qed.

Section LoadSave.
Variable unmarshal : bytes -> option Thread.
Variable marshalIndent : Thread -> result bytes.

Lemma insertName_perm (n : bytes) (l : list bytes) :
  Permutation (insertName n l) (n :: l).
Proof.
  induction l as [|m l IH]; simpl; [reflexivity|].
  destruct (bytes_leb n m); [reflexivity|].
  rewrite IH. apply perm_swap.
Qed.

Lemma sortNames_perm (l : list bytes) : Permutation (sortNames l) l.
Proof.
  induction l as [|n l IH]; simpl; [reflexivity|].
  rewrite insertName_perm. now constructor.
Qed.

Lemma resolve_abs (fs : FS) (p : bytes) :
  IsAbs p = true -> resolve fs p = Some p.
Proof. unfold resolve. now intros ->. Qed.

Lemma os_ReadDir_abs (fs : FS) (dir : bytes) :
  IsAbs dir = true ->
  os_ReadDir fs dir =
    if mem dir (dirs fs)
    then Ok (sortNames (entries dir (map fst (files fs) ++ dirs fs)))
    else Err (ErrOS (bs "open") dir).
Proof. intros H. unfold os_ReadDir. now rewrite (resolve_abs fs dir H). Qed.

Lemma os_ReadDir_resolved (fs : FS) (dir : bytes) (names : list bytes) :
  os_ReadDir fs dir = Ok names ->
  exists d,
    resolve fs dir = Some d /\ mem d (dirs fs) = true
    /\ Permutation names (entries d (map fst (files fs) ++ dirs fs)).
Proof.
  unfold os_ReadDir. destruct (resolve fs dir) as [d|]; [|discriminate].
  destruct (mem d (dirs fs)) eqn:E; [|discriminate].
  intros H; inversion H. exists d.
  split; [reflexivity|]. split; [exact E | apply sortNames_perm].
Qed.

Lemma os_ReadDir_names (fs : FS) (dir : bytes) (names : list bytes) :
  IsAbs dir = true ->
  os_ReadDir fs dir = Ok names ->
  mem dir (dirs fs) = true
  /\ Permutation names (entries dir (map fst (files fs) ++ dirs fs)).
Proof.
  intros Habs H. apply os_ReadDir_resolved in H.
  destruct H as (d & Hd & Hm & P).
  rewrite (resolve_abs fs dir Habs) in Hd. inversion Hd; subst d.
  now split.
Qed.

Lemma os_ReadDir_nonempty (fs : FS) (dir : bytes) (names : list bytes) :
  os_ReadDir fs dir = Ok names -> Forall (fun n => n <> []) names.
Proof.
  intros H. apply os_ReadDir_resolved in H. destruct H as (d & _ & _ & P).
  apply Forall_forall. intros n Hn.
  apply (Permutation_in _ P) in Hn. now apply entries_wf in Hn.
Qed.

(** [Load] when exactly the entry [n] matches. *)
Lemma FSStore_Load_unique (st : FSStore) (fs : FS) (idPrefix : bytes)
    (names : list bytes) (cb : list bytes) (n : bytes) :
  basePath st = rootedPath cb -> Forall plain cb -> cb <> [] ->
  os_ReadDir fs (basePath st) = Ok names ->
  matching idPrefix names = [n] ->
  n <> dot -> n <> dotdot ->
  FSStore_Load unmarshal st idPrefix fs =
    match os_ReadFile fs (child (basePath st) n) with
    | Err e => Err e
    | Ok data =>
        match unmarshal data with
        | Some th => Ok th
        | None => Err ErrJSON
        end
    end.
Proof.
  intros Hb Hcb Hne Hdir Hm Hd Hdd.
  assert (Hn : plain n).
  { assert (Hin : In n names).
    { assert (Hin : In n (matching idPrefix names)) by (rewrite Hm; now left).
      unfold matching in Hin. apply filter_In in Hin. tauto. }
    assert (Habs : IsAbs (basePath st) = true) by (rewrite Hb; reflexivity).
    destruct (os_ReadDir_names _ _ _ Habs Hdir) as [_ P].
    apply (Permutation_in _ P) in Hin.
    apply entries_wf in Hin. destruct Hin. repeat split; assumption. }
  assert (Hscan : Load_scan idPrefix names [] = Ok n).
  { rewrite Load_scan_matching
      by (eapply os_ReadDir_nonempty; eassumption).
    rewrite Hm. reflexivity. }
  unfold FSStore_Load. rewrite Hdir, Hscan.
  rewrite (proj2 (bytes_eqb_neq n [])) by apply Hn. cbv zeta.
  rewrite (Join_base (basePath st) cb Hb Hcb Hne n Hn).
  unfold safeReadFile.
  rewrite (checkPath_child (basePath st) cb Hb Hcb Hne (cwd fs) n Hn).
  destruct (os_ReadFile fs (child (basePath st) n)) as [data|e];
    [|reflexivity].
  destruct (unmarshal data); reflexivity.
Qed.

End LoadSave.

(** C3, as stated, fails: the prefix is compared with the names of the
    stored files, identifier and suffix, so a prefix that no stored
    identifier starts with can still select a conversation. *)
Lemma Load_prefix_beyond_identifier :
  ~ (forall (st : FSStore) (fs : FS) (idPrefix : bytes)
            (names : list bytes),
       os_ReadDir fs (basePath st) = Ok names ->
       matching idPrefix (storedIDs names) = [] ->
       Load st idPrefix fs = Err ErrNotFound).
Proof.
  intros H.
  specialize (H sample_store sample_fs_abc (bs "abc.json")
                [bs "abc.json"]).
  assert (E : Load sample_store (bs "abc.json") sample_fs_abc
              = Ok thread_abc) by (vm_compute; reflexivity).
  rewrite E in H.
  assert (F : Ok thread_abc = Err ErrNotFound :> result Thread).
  { apply H; vm_compute; reflexivity. }
  discriminate F.
Qed.

(** C3, as the code has it.  [Load] compares the prefix with the names
    of the entries of the base directory.  When no name starts with
    the prefix it returns the not-found error; when exactly one does
    it reads that file and returns the conversation decoded from it,
    or the error of the read or of the decoding; when two or more do
    it returns the ambiguous-prefix error and reads nothing. *)
Theorem Load_by_file_name_prefix :
  forall (unmarshal : bytes -> option Thread) (st : FSStore) (fs : FS)
         (idPrefix : bytes) (names : list bytes) (cb : list bytes),
    basePath st = rootedPath cb -> Forall plain cb -> cb <> [] ->
    os_ReadDir fs (basePath st) = Ok names ->
    (matching idPrefix names = [] ->
     FSStore_Load unmarshal st idPrefix fs = Err ErrNotFound)
    /\ (forall n, matching idPrefix names = [n] ->
        n <> dot -> n <> dotdot ->
        FSStore_Load unmarshal st idPrefix fs =
          match os_ReadFile fs (child (basePath st) n) with
          | Err e => Err e
          | Ok data =>
              match unmarshal data with
              | Some th => Ok th
              | None => Err ErrJSON
              end
          end)
    /\ (forall n1 n2 rest, matching idPrefix names = n1 :: n2 :: rest ->
        FSStore_Load unmarshal st idPrefix fs
          = Err (ErrAmbiguousPrefix idPrefix)).
Proof.
  intros unmarshal st fs idPrefix names cb Hb Hcb Hne Hdir.
  pose proof (os_ReadDir_nonempty _ _ _ Hdir) as Hnames.
  split; [|split].
  - intros Hm. unfold FSStore_Load.
    rewrite Hdir, Load_scan_matching, Hm by assumption. reflexivity.
  - intros n Hm Hd Hdd.
    eapply FSStore_Load_unique; eassumption.
  - intros n1 n2 rest Hm. unfold FSStore_Load.
    rewrite Hdir, Load_scan_matching, Hm by assumption. reflexivity.
Qed.

Lemma Load_by_file_name_prefix_witness :
  basePath sample_store
    = rootedPath [bs "home"; bs "u"; bs ".plexctl"; bs "threads"]
  /\ Forall plain [bs "home"; bs "u"; bs ".plexctl"; bs "threads"]
  /\ [bs "home"; bs "u"; bs ".plexctl"; bs "threads"] <> []
  /\ os_ReadDir sample_fs_abc (basePath sample_store) = Ok [bs "abc.json"]
  /\ Load sample_store (bs "x") sample_fs_abc = Err ErrNotFound
  /\ Load sample_store (bs "ab") sample_fs_abc = Ok thread_abc.
Proof.
  assert (H1 : basePath sample_store
    = rootedPath [bs "home"; bs "u"; bs ".plexctl"; bs "threads"])
    by reflexivity.
  assert (H2 : Forall plain [bs "home"; bs "u"; bs ".plexctl"; bs "threads"]).
  { repeat constructor; try discriminate;
      intros F; vm_compute in F; intuition discriminate. }
  assert (H3 : [bs "home"; bs "u"; bs ".plexctl"; bs "threads"] <> [])
    by discriminate.
  assert (H4 : os_ReadDir sample_fs_abc (basePath sample_store)
               = Ok [bs "abc.json"]) by (vm_compute; reflexivity).
  split_all; try assumption.
  - apply (proj1 (Load_by_file_name_prefix json_Unmarshal_Thread
                    sample_store sample_fs_abc (bs "x") _ _ H1 H2 H3 H4)).
    reflexivity.
  - etransitivity.
    + apply (proj1 (proj2 (Load_by_file_name_prefix json_Unmarshal_Thread
                    sample_store sample_fs_abc (bs "ab") _ _ H1 H2 H3 H4))
               (bs "abc.json")); [reflexivity | discriminate | discriminate].
    + vm_compute. reflexivity.
Defined.

(** Two entries that start with the prefix give the error. *)
Example Load_ambiguous_example :
  Load sample_store (bs "abc")
    (snd (Save sample_store thread_abcd sample_fs_abc))
  = Err (ErrAmbiguousPrefix (bs "abc")).
Proof. vm_compute. reflexivity. Qed.

(** C4, as stated, fails: the identifier [abc] is held by one stored
    conversation only, but the file of the conversation [abcd] starts
    with it too, and [Load] on the full identifier reports an
    ambiguous prefix. *)
Lemma Save_then_Load_prefix_of_another :
  ~ (forall (st : FSStore) (fs fs' : FS) (th : Thread)
            (names : list bytes),
       Save st th fs = (None, fs') ->
       os_ReadDir fs' (basePath st) = Ok names ->
       length (filter (bytes_eqb (ID th)) (storedIDs names)) = 1%nat ->
       Load st (ID th) fs' = Ok th).
Proof.
  intros H.
  specialize (H sample_store sample_fs_abcd
                (snd (Save sample_store thread_abc sample_fs_abcd))
                thread_abc [bs "abc.json"; bs "abcd.json"]).
  assert (E : Load sample_store (ID thread_abc)
                (snd (Save sample_store thread_abc sample_fs_abcd))
              = Err (ErrAmbiguousPrefix (bs "abc")))
    by (vm_compute; reflexivity).
  rewrite E in H.
  assert (F : Err (ErrAmbiguousPrefix (bs "abc")) = Ok thread_abc
              :> result Thread).
  { apply H; vm_compute; reflexivity. }
  discriminate F.
Qed.

Lemma json_name_plain (id : bytes) :
  slashFree id -> plain (id ++ bs ".json").
Proof.
  intros Hid. repeat split.
  - destruct id; discriminate.
  - unfold slashFree. rewrite in_app_iff. intros [F|F]; [auto|].
    vm_compute in F. intuition discriminate.
  - intros E. apply (f_equal (@length byte)) in E.
    rewrite length_app in E.
    change (length (bs ".json")) with 5%nat in E.
    change (length dot) with 1%nat in E. lia.
  - intros E. apply (f_equal (@length byte)) in E.
    rewrite length_app in E.
    change (length (bs ".json")) with 5%nat in E.
    change (length dotdot) with 2%nat in E. lia.
Qed.

(** [Save] followed by [Load] on the full identifier, when what is
    written decodes to the conversation. *)
Lemma Save_then_Load_when_decoded :
  forall (unmarshal : bytes -> option Thread)
         (marshalIndent : Thread -> result bytes)
         (st : FSStore) (fs : FS) (th : Thread)
         (cb : list bytes) (names : list bytes) (data : bytes),
    basePath st = rootedPath cb -> Forall plain cb -> cb <> [] ->
    fsWF fs ->
    os_ReadDir fs (basePath st) = Ok names ->
    slashFree (ID th) ->
    mem (child (basePath st) (ID th ++ bs ".json")) (dirs fs) = false ->
    (forall n, In n names -> n <> ID th ++ bs ".json" ->
       HasPrefix n (ID th) = false) ->
    marshalIndent th = Ok data ->
    unmarshal data = Some th ->
    exists fs',
      FSStore_Save marshalIndent st th fs = (None, fs')
      /\ FSStore_Load unmarshal st (ID th) fs' = Ok th.
Proof.
  intros unmarshal marshalIndent st fs th cb names data
    Hb Hcb Hne Hwf Hdir Hid Hnodir Hothers Hm Hu.
  assert (Hname : plain (ID th ++ bs ".json")) by now apply json_name_plain.
  remember (ID th ++ bs ".json") as name eqn:Ename.
  remember (child (basePath st) name) as p eqn:Ep.
  assert (Habs : IsAbs (basePath st) = true) by (rewrite Hb; reflexivity).
    destruct (os_ReadDir_names _ _ _ Habs Hdir) as [Hbase Hnames].
  set (fs' := {| cwd := cwd fs; dirs := dirs fs;
                 files := update p data (files fs) |}).
  exists fs'. split.
  - unfold FSStore_Save. rewrite Hm.
    rewrite <- Ename.
    rewrite (Join_base (basePath st) cb Hb Hcb Hne name Hname).
    unfold safeWriteFile.
    rewrite (checkPath_child (basePath st) cb Hb Hcb Hne (cwd fs) name Hname).
    unfold os_WriteFile.
    rewrite (parentDir_child (basePath st) cb Hb Hcb Hne name)
      by apply Hname.
    rewrite <- Ep, Hnodir, Hbase. reflexivity.
  - assert (Hdir' : os_ReadDir fs' (basePath st)
                    = Ok (sortNames
                            (entries (basePath st)
                               (map fst (files fs') ++ dirs fs')))).
    { rewrite os_ReadDir_abs by (rewrite Hb; reflexivity).
      simpl dirs. now rewrite Hbase. }
    pose proof (sortNames_perm
                  (entries (basePath st) (map fst (files fs') ++ dirs fs')))
      as P'.
    assert (Hmatch : matching (ID th)
                       (sortNames
                          (entries (basePath st)
                             (map fst (files fs') ++ dirs fs'))) = [name]).
    { unfold matching. apply filter_unique.
      - apply (Permutation_NoDup (Permutation_sym P')).
        apply entries_NoDup. simpl. apply update_NoDup; [exact Hwf|].
        now apply mem_not_In.
      - apply (Permutation_in _ (Permutation_sym P')).
        apply entries_In. exists p. split.
        + simpl. apply in_or_app. left. apply update_keys. now left.
        + rewrite Ep. apply entryName_child; apply Hname.
      - rewrite Ename. apply HasPrefix_app.
      - intros x Hx Hpx.
        destruct (list_eq_dec byte_eq_dec x name) as [E|E]; [exact E|].
        exfalso. rewrite (Hothers x) in Hpx; [discriminate | | exact E].
        apply (Permutation_in _ (Permutation_sym Hnames)).
        apply entries_In. apply (Permutation_in _ P') in Hx.
        apply entries_In in Hx.
        destruct Hx as (q & Hq & Eq). exists q. split; [|exact Eq].
        simpl in Hq. rewrite in_app_iff in *. rewrite update_keys in Hq.
        destruct Hq as [[-> | Hq] | Hq]; auto.
        exfalso. apply E. rewrite Ep in Eq.
        rewrite entryName_child in Eq by apply Hname. congruence. }
    rewrite (FSStore_Load_unique unmarshal st fs' (ID th) _ cb name
               Hb Hcb Hne Hdir' Hmatch) by apply Hname.
    unfold os_ReadFile. simpl dirs. rewrite <- Ep, Hnodir.
    simpl files. rewrite lookup_update, Hu. reflexivity.
Qed.

(** The base directory of a store made by [NewFSStore]. *)

Lemma ancestors_from_last (comps pre : list bytes) :
  In (rootedPath (pre ++ comps)) (ancestors_from pre comps).
Proof.
  revert pre. induction comps as [|c comps IH]; intros pre; simpl.
  - rewrite app_nil_r. now left.
  - right. specialize (IH (pre ++ [c])).
    now rewrite <- app_assoc in IH.
Qed.

Lemma splitPath_rooted (x : bytes) :
  splitPath (PathSeparator :: x) = [] :: splitPath x.
Proof. reflexivity. Qed.

Lemma filter_nonempty_plain (cs : list bytes) :
  Forall plain cs -> filter (fun c => negb (bytes_eqb c [])) cs = cs.
Proof.
  induction 1 as [|c cs Hc _ IH]; simpl; [reflexivity|].
  rewrite (proj2 (bytes_eqb_neq c [])) by apply Hc. simpl. now rewrite IH.
Qed.

Lemma ancestors_self (cs : list bytes) :
  Forall plain cs -> In (rootedPath cs) (ancestors (rootedPath cs)).
Proof.
  intros Hcs. unfold ancestors.
  assert (E : filter (fun c => negb (bytes_eqb c []))
                (splitPath (rootedPath cs)) = cs).
  { destruct cs as [|c cs']; [reflexivity|].
    unfold rootedPath. rewrite splitPath_rooted.
    rewrite splitPath_join by (assumption || discriminate).
    change (filter (fun c0 => negb (bytes_eqb c0 [])) ([] :: c :: cs'))
      with (filter (fun c0 => negb (bytes_eqb c0 [])) (c :: cs')).
    now apply filter_nonempty_plain. }
  rewrite E. apply (ancestors_from_last cs []).
Qed.

Lemma ancestors_from_abs (comps pre : list bytes) :
  Forall (fun a => IsAbs a = true) (ancestors_from pre comps).
Proof.
  revert pre. induction comps as [|c comps IH]; intros pre; simpl.
  - constructor; [reflexivity | constructor].
  - constructor; [reflexivity | apply IH].
Qed.

(** [os.MkdirAll] on an absolute path. *)
Lemma os_MkdirAll_abs (fs : FS) (p : bytes) :
  IsAbs p = true ->
  os_MkdirAll fs p =
    match find (isFile fs) (ancestors p) with
    | Some q => (Some (ErrOS (bs "mkdir") q), fs)
    | None =>
        (None,
         {| cwd := cwd fs;
            dirs := dirs fs ++
                    filter (fun d => negb (mem d (dirs fs))) (ancestors p);
            files := files fs |})
    end.
Proof.
  intros Habs. unfold os_MkdirAll, pathPrefixes.
  rewrite (resolve_abs fs p Habs), Habs.
  pose proof (ancestors_from_abs
                (filter (fun c => negb (bytes_eqb c [])) (splitPath p)) [])
    as Hall.
  fold (ancestors p) in Hall.
  assert (Hmap : map (resolved fs) (ancestors p) = ancestors p).
  { induction Hall as [|a l Ha _ IH]; simpl; [reflexivity|].
    unfold resolved at 1. rewrite (resolve_abs fs a Ha). now rewrite IH. }
  assert (Hfind : find (fun q => isFile fs (resolved fs q)) (ancestors p)
                  = find (isFile fs) (ancestors p)).
  { clear Hmap. induction Hall as [|a l Ha _ IH]; simpl; [reflexivity|].
    unfold resolved at 1. rewrite (resolve_abs fs a Ha).
    destruct (isFile fs a); [reflexivity | exact IH]. }
  rewrite Hfind, Hmap. reflexivity.
Qed.

Lemma plain_plexctl : plain (bs ".plexctl").
Proof.
  repeat split; try discriminate.
  intros F. vm_compute in F. intuition discriminate.
Qed.

Lemma plain_threads : plain (bs "threads").
Proof.
  repeat split; try discriminate.
  intros F. vm_compute in F. intuition discriminate.
Qed.

(** With an absolute home directory, the store [NewFSStore] returns
    has a canonical base directory other than the root, and that
    directory exists. *)
Lemma NewFSStore_base (h : bytes) (fs fs' : FS) (st : FSStore) :
  IsAbs h = true ->
  NewFSStore (Ok h) fs = (Ok st, fs') ->
  exists cb,
    basePath st = rootedPath cb /\ Forall plain cb /\ cb <> []
    /\ mem (basePath st) (dirs fs') = true.
Proof.
  intros Habs. destruct (IsAbs_cons h Habs) as [h' ->].
  unfold NewFSStore.
  set (base := filepath_Join [PathSeparator :: h'; bs ".plexctl";
                              bs "threads"]).
  set (S := fold_left (cleanStep true) (splitPath h') []).
  assert (HS : Forall plain S).
  { apply fold_cleanStep_rooted_plain;
      [apply splitPath_all_slashFree | constructor]. }
  assert (Hbase : base = rootedPath (rev S ++ [bs ".plexctl"; bs "threads"])).
  { unfold base, filepath_Join.
    change (join [PathSeparator]
              [PathSeparator :: h'; bs ".plexctl"; bs "threads"])
      with (PathSeparator ::
              (h' ++ PathSeparator ::
                 (bs ".plexctl" ++ PathSeparator :: bs "threads"))).
    rewrite Clean_rooted, !splitPath_app_sep.
    rewrite (splitPath_slashFree (bs ".plexctl")) by apply plain_plexctl.
    rewrite (splitPath_slashFree (bs "threads")) by apply plain_threads.
    rewrite fold_left_app. fold S. simpl fold_left.
    rewrite (cleanStep_plain true S _ plain_plexctl).
    rewrite (cleanStep_plain true _ _ plain_threads).
    simpl rev. rewrite <- app_assoc. reflexivity. }
  assert (Hcb : Forall plain (rev S ++ [bs ".plexctl"; bs "threads"])).
  { apply Forall_app. split; [now apply Forall_rev|].
    constructor; [apply plain_plexctl|].
    constructor; [apply plain_threads | constructor]. }
  destruct (os_MkdirAll fs base) as [[e|] fs1] eqn:Emk; [discriminate|].
  intros H; inversion H; subst st fs'. simpl basePath.
  exists (rev S ++ [bs ".plexctl"; bs "threads"]).
  split; [exact Hbase|]. split; [exact Hcb|]. split.
  - destruct (rev S); discriminate.
  - rewrite os_MkdirAll_abs in Emk by (rewrite Hbase; reflexivity).
    destruct (find (isFile fs) (ancestors base)); [discriminate|].
    inversion Emk; subst fs1. simpl dirs.
    apply mem_In. apply in_or_app.
    destruct (mem base (dirs fs)) eqn:Em; [left; now apply mem_In|].
    right. apply filter_In. split; [|now rewrite Em].
    rewrite Hbase. now apply ancestors_self.
Qed.

(** The store of the sample inputs is the one [NewFSStore] makes in an
    empty home directory. *)
Example NewFSStore_sample :
  NewFSStore (Ok (bs "/home/u"))
    {| cwd := Some (bs "/home/u");
       dirs := [bs "/"; bs "/home"; bs "/home/u"]; files := [] |}
  = (Ok sample_store, sample_fs0).
Proof. vm_compute. reflexivity. Qed.

(** The separator-bounded test, by path elements: under a base
    directory other than the root it is nesting element by element;
    under the root it lets only the root through. *)

Lemma join_app (cs rs : list bytes) :
  cs <> [] -> rs <> [] ->
  join [PathSeparator] (cs ++ rs) =
    join [PathSeparator] cs ++ PathSeparator :: join [PathSeparator] rs.
Proof.
  intros Hc Hr. induction cs as [|c cs IH]; [contradiction|].
  destruct cs as [|c2 cs'].
  - simpl. destruct rs; [contradiction | reflexivity].
  - change (join [PathSeparator] ((c :: c2 :: cs') ++ rs))
      with (c ++ [PathSeparator] ++ join [PathSeparator] ((c2 :: cs') ++ rs)).
    rewrite IH by discriminate.
    change (join [PathSeparator] (c :: c2 :: cs'))
      with (c ++ [PathSeparator] ++ join [PathSeparator] (c2 :: cs')).
    rewrite <- !app_assoc. reflexivity.
Qed.

Lemma join_plain_nonempty (cs : list bytes) :
  Forall plain cs -> cs <> [] -> join [PathSeparator] cs <> [].
Proof.
  intros Hcs Hne. destruct (join_last cs Hcs Hne) as (t & x & E & _).
  rewrite E. destruct t; discriminate.
Qed.

Lemma rootedPath_inj (cs ds : list bytes) :
  Forall plain cs -> Forall plain ds ->
  rootedPath cs = rootedPath ds -> cs = ds.
Proof.
  intros Hc Hd E. unfold rootedPath in E. inversion E as [E'].
  destruct cs as [|c cs'], ds as [|d ds']; try reflexivity.
  - exfalso. symmetry in E'. revert E'.
    apply join_plain_nonempty; [assumption | discriminate].
  - exfalso. revert E'.
    apply join_plain_nonempty; [assumption | discriminate].
  - rewrite <- (splitPath_join (c :: cs')), <- (splitPath_join (d :: ds'))
      by (assumption || discriminate).
    now rewrite E'.
Qed.

Lemma insideBase_components (cb cf : list bytes) :
  Forall plain cb -> Forall plain cf ->
  (insideBase (rootedPath cb) (rootedPath cf) <->
   cf = cb \/ (cb <> [] /\ exists rest, rest <> [] /\ cf = cb ++ rest)).
Proof.
  intros Hb Hf. unfold insideBase. split.
  - intros [E | (rest & Hrest & E)].
    + left. now apply rootedPath_inj.
    + right. unfold rootedPath in E. simpl in E. inversion E as [E'].
      assert (Hcf : cf <> []).
      { intros ->. simpl in E'. destruct (join [PathSeparator] cb);
          discriminate. }
      apply (f_equal splitPath) in E'.
      rewrite splitPath_join, splitPath_app_sep in E' by assumption.
      destruct cb as [|c cb'].
      * exfalso. simpl in E'. rewrite E' in Hf.
        inversion Hf as [|? ? Hp _]. now destruct Hp.
      * split; [discriminate|].
        rewrite splitPath_join in E' by (assumption || discriminate).
        exists (splitPath rest). split; [apply splitPath_nonempty | exact E'].
  - intros [-> | (Hne & rest & Hrest & ->)]; [now left | right].
    exists (join [PathSeparator] rest). split.
    + apply join_plain_nonempty; [|assumption].
      apply Forall_app in Hf. tauto.
    + unfold rootedPath. rewrite join_app by assumption. reflexivity.
Qed.

(** The root as base directory. *)
Example checkPath_root_base (wd : option bytes) :
  checkPath wd (bs "/") (bs "/x") = Err (ErrPathViolation (bs "/x"))
  /\ checkPath wd (bs "/") (bs "/") = Ok (bs "/").
Proof. split; reflexivity. Qed.

(* ================================================================= *)
(** * The round trip of a conversation through JSON *)

(** ** UTF-8: encoding the rune of a valid encoding gives it back *)

Lemma In_allBytes (b : byte) : In b allBytes.
Proof.
  assert (H : existsb (Byte.eqb b) allBytes = true)
    by (destruct b; vm_compute; reflexivity).
  apply existsb_exists in H. destruct H as (x & Hx & E).
  apply byte_dec_bl in E. now subst x.
Qed.

Lemma check2_ok :
  forallb (fun b0 =>
    if lead2 b0 then
      forallb (fun b1 =>
        if isCont b1 then bytes_eqb (EncodeRune (dec2 b0 b1)) [b0; b1]
        else true) allBytes
    else true) allBytes = true.
Proof. vm_compute. reflexivity. Qed.

Lemma enc2 (b0 b1 : byte) :
  lead2 b0 = true -> isCont b1 = true ->
  EncodeRune (dec2 b0 b1) = [b0; b1].
Proof.
  intros H0 H1. pose proof check2_ok as C.
  rewrite forallb_forall in C. specialize (C b0 (In_allBytes b0)).
  rewrite H0, forallb_forall in C. specialize (C b1 (In_allBytes b1)).
  rewrite H1 in C. now apply bytes_eqb_eq.
Qed.

(** Bit fields that do not overlap add up. *)
Lemma lor_shiftl_add (a k y : Z) :
  0 <= k -> 0 <= y < 2 ^ k -> Z.lor (Z.shiftl a k) y = a * 2 ^ k + y.
Proof.
  intros Hk Hy.
  assert (H0 : Z.land (Z.shiftl a k) y = 0).
  { apply Z.bits_inj'. intros n Hn. rewrite Z.land_spec, Z.bits_0.
    destruct (Z.lt_ge_cases n k) as [Hlt|Hge].
    - now rewrite Z.shiftl_spec_low.
    - assert (Hy0 : Z.testbit y n = false).
      { destruct (Z.eq_dec y 0) as [->|Hne]; [apply Z.bits_0|].
        apply Z.bits_above_log2; [lia|].
        assert (Z.log2 y < k) by (apply Z.log2_lt_pow2; lia). lia. }
      rewrite Hy0. apply andb_false_r. }
  pose proof (Z.add_lor_land (Z.shiftl a k) y) as H.
  rewrite H0, Z.add_0_r in H. rewrite H.
  now rewrite Z.shiftl_mul_pow2 by assumption.
Qed.

Lemma b2z_range (b : byte) : 0 <= b2z b < 256.
Proof.
  unfold b2z. pose proof (Byte.to_N_bounded b) as H. lia.
Qed.

Lemma z2b_b2z (b : byte) : z2b (b2z b) = b.
Proof. destruct b; reflexivity. Qed.

Lemma cont_mod (b : byte) : cont b = b2z b mod 64.
Proof.
  unfold cont. change 63 with (Z.ones 6). now rewrite Z.land_ones.
Qed.

Lemma isCont_cont (b : byte) : isCont b = true -> cont b = b2z b - 128.
Proof.
  unfold isCont, in_range. rewrite cont_mod.
  intros H. apply andb_true_iff in H. destruct H as [H1 H2].
  apply Z.leb_le in H1, H2. Z.div_mod_to_equations. lia.
Qed.

(** A continuation byte from its payload. *)
Lemma z2b_cont (b : byte) (x : Z) :
  0 <= x < 64 -> x = b2z b - 128 -> z2b (Z.lor 128 x) = b.
Proof.
  intros Hx E. change 128 with (Z.shiftl 2 6).
  rewrite lor_shiftl_add by lia.
  replace (2 * 2 ^ 6 + x) with (b2z b) by lia. apply z2b_b2z.
Qed.

Lemma dec3_sum (b0 b1 b2 : byte) :
  dec3 b0 b1 b2 = (b2z b0 mod 16) * 4096 + cont b1 * 64 + cont b2.
Proof.
  unfold dec3. change 15 with (Z.ones 4). rewrite Z.land_ones by lia.
  pose proof (cont_mod b1) as C1. pose proof (cont_mod b2) as C2.
  pose proof (Z.mod_pos_bound (b2z b1) 64 ltac:(lia)).
  pose proof (Z.mod_pos_bound (b2z b2) 64 ltac:(lia)).
  rewrite (lor_shiftl_add (cont b1) 6) by lia.
  rewrite (lor_shiftl_add _ 12) by lia.
  change (2 ^ 4) with 16. lia.
Qed.

Lemma dec4_sum (b0 b1 b2 b3 : byte) :
  dec4 b0 b1 b2 b3 =
    (b2z b0 mod 8) * 262144 + cont b1 * 4096 + cont b2 * 64 + cont b3.
Proof.
  unfold dec4. change 7 with (Z.ones 3). rewrite Z.land_ones by lia.
  pose proof (cont_mod b1) as C1. pose proof (cont_mod b2) as C2.
  pose proof (cont_mod b3) as C3.
  pose proof (Z.mod_pos_bound (b2z b1) 64 ltac:(lia)).
  pose proof (Z.mod_pos_bound (b2z b2) 64 ltac:(lia)).
  pose proof (Z.mod_pos_bound (b2z b3) 64 ltac:(lia)).
  rewrite (lor_shiftl_add (cont b2) 6) by lia.
  rewrite (lor_shiftl_add (cont b1) 12) by lia.
  rewrite (lor_shiftl_add _ 18) by lia.
  change (2 ^ 3) with 8. lia.
Qed.

Lemma enc3 (b0 b1 b2 : byte) :
  lead3 b0 = true -> second3 b0 b1 = true -> isCont b2 = true ->
  EncodeRune (dec3 b0 b1 b2) = [b0; b1; b2].
Proof.
  intros H0 H1 H2. rewrite dec3_sum.
  pose proof (isCont_cont b2 H2) as C2.
  unfold lead3 in H0. apply andb_true_iff in H0. destruct H0 as [L1 L2].
  apply Z.leb_le in L1, L2.
  assert (A : b2z b0 mod 16 = b2z b0 - 224)
    by (Z.div_mod_to_equations; lia).
  unfold isCont, in_range in H2. apply andb_true_iff in H2.
  destruct H2 as [H21 H22]. apply Z.leb_le in H21, H22.
  unfold second3, in_range in H1. apply andb_true_iff in H1.
  destruct H1 as [H11 H12]. apply Z.leb_le in H11, H12.
  assert (B : cont b1 = b2z b1 - 128 /\ 128 <= b2z b1 <= 191
              /\ (b2z b0 = 224 -> 160 <= b2z b1)
              /\ (b2z b0 = 237 -> b2z b1 <= 159)).
  { rewrite cont_mod.
    destruct (b2z b0 =? 224) eqn:E1; destruct (b2z b0 =? 237) eqn:E2;
      rewrite ?Z.eqb_eq, ?Z.eqb_neq in *;
      Z.div_mod_to_equations; lia. }
  destruct B as (B1 & B2 & B3 & B4).
  rewrite A, B1, C2.
  set (r := (b2z b0 - 224) * 4096 + (b2z b1 - 128) * 64 + (b2z b2 - 128)).
  assert (Hr : 2048 <= r <= 65535 /\ (r < 55296 \/ 57343 < r)).
  { unfold r. destruct (Z.eq_dec (b2z b0) 224);
      destruct (Z.eq_dec (b2z b0) 237); lia. }
  unfold EncodeRune.
  replace ((0 <=? r) && (r <=? 127)) with false
    by (symmetry; apply andb_false_iff; right; apply Z.leb_gt; lia).
  replace ((0 <=? r) && (r <=? 2047)) with false
    by (symmetry; apply andb_false_iff; right; apply Z.leb_gt; lia).
  replace ((r <? 0) || (1114111 <? r) || ((55296 <=? r) && (r <=? 57343)))
    with false.
  2:{ symmetry. apply orb_false_iff. split.
      - apply orb_false_iff. split; apply Z.ltb_ge; lia.
      - apply andb_false_iff. destruct Hr as [_ [Hr|Hr]];
          [left; apply Z.leb_gt; lia | right; apply Z.leb_gt; lia]. }
  replace (r <=? 65535) with true by (symmetry; apply Z.leb_le; lia).
  f_equal; [|f_equal; [|f_equal]].
  - rewrite Z.shiftr_div_pow2 by lia.
    replace (r / 2 ^ 12) with (b2z b0 - 224)
      by (unfold r; Z.div_mod_to_equations; lia).
    change 224 with (Z.shiftl 14 4) at 1.
    rewrite lor_shiftl_add by lia.
    replace (14 * 2 ^ 4 + (b2z b0 - 224)) with (b2z b0) by lia.
    apply z2b_b2z.
  - apply z2b_cont.
    + change 63 with (Z.ones 6). rewrite Z.land_ones by lia.
      apply Z.mod_pos_bound. lia.
    + change 63 with (Z.ones 6). rewrite Z.land_ones by lia.
      rewrite Z.shiftr_div_pow2 by lia. unfold r.
      Z.div_mod_to_equations. lia.
  - apply z2b_cont.
    + change 63 with (Z.ones 6). rewrite Z.land_ones by lia.
      apply Z.mod_pos_bound. lia.
    + change 63 with (Z.ones 6). rewrite Z.land_ones by lia.
      unfold r. Z.div_mod_to_equations. lia.
Qed.

Lemma enc4 (b0 b1 b2 b3 : byte) :
  lead4 b0 = true -> second4 b0 b1 = true -> isCont b2 = true ->
  isCont b3 = true ->
  EncodeRune (dec4 b0 b1 b2 b3) = [b0; b1; b2; b3].
Proof.
  intros H0 H1 H2 H3. rewrite dec4_sum.
  pose proof (isCont_cont b2 H2) as C2.
  pose proof (isCont_cont b3 H3) as C3.
  unfold lead4 in H0. apply andb_true_iff in H0. destruct H0 as [L1 L2].
  apply Z.leb_le in L1, L2.
  assert (A : b2z b0 mod 8 = b2z b0 - 240)
    by (Z.div_mod_to_equations; lia).
  unfold isCont, in_range in H2, H3. apply andb_true_iff in H2, H3.
  destruct H2 as [H21 H22]. destruct H3 as [H31 H32].
  apply Z.leb_le in H21, H22, H31, H32.
  unfold second4, in_range in H1. apply andb_true_iff in H1.
  destruct H1 as [H11 H12]. apply Z.leb_le in H11, H12.
  assert (B : cont b1 = b2z b1 - 128 /\ 128 <= b2z b1 <= 191
              /\ (b2z b0 = 240 -> 144 <= b2z b1)
              /\ (b2z b0 = 244 -> b2z b1 <= 143)).
  { rewrite cont_mod.
    destruct (b2z b0 =? 240) eqn:E1; destruct (b2z b0 =? 244) eqn:E2;
      rewrite ?Z.eqb_eq, ?Z.eqb_neq in *;
      Z.div_mod_to_equations; lia. }
  destruct B as (B1 & B2 & B3 & B4).
  rewrite A, B1, C2, C3.
  set (r := (b2z b0 - 240) * 262144 + (b2z b1 - 128) * 4096
            + (b2z b2 - 128) * 64 + (b2z b3 - 128)).
  assert (Hr : 65536 <= r <= 1114111).
  { unfold r. destruct (Z.eq_dec (b2z b0) 240);
      destruct (Z.eq_dec (b2z b0) 244); lia. }
  unfold EncodeRune.
  replace ((0 <=? r) && (r <=? 127)) with false
    by (symmetry; apply andb_false_iff; right; apply Z.leb_gt; lia).
  replace ((0 <=? r) && (r <=? 2047)) with false
    by (symmetry; apply andb_false_iff; right; apply Z.leb_gt; lia).
  replace ((r <? 0) || (1114111 <? r) || ((55296 <=? r) && (r <=? 57343)))
    with false.
  2:{ symmetry. apply orb_false_iff. split.
      - apply orb_false_iff. split; apply Z.ltb_ge; lia.
      - apply andb_false_iff. right. apply Z.leb_gt. lia. }
  replace (r <=? 65535) with false by (symmetry; apply Z.leb_gt; lia).
  f_equal; [|f_equal; [|f_equal; [|f_equal]]].
  - rewrite Z.shiftr_div_pow2 by lia.
    replace (r / 2 ^ 18) with (b2z b0 - 240)
      by (unfold r; Z.div_mod_to_equations; lia).
    change 240 with (Z.shiftl 15 4) at 1.
    rewrite lor_shiftl_add by lia.
    replace (15 * 2 ^ 4 + (b2z b0 - 240)) with (b2z b0) by lia.
    apply z2b_b2z.
  - apply z2b_cont.
    + change 63 with (Z.ones 6). rewrite Z.land_ones by lia.
      apply Z.mod_pos_bound. lia.
    + change 63 with (Z.ones 6). rewrite Z.land_ones by lia.
      rewrite Z.shiftr_div_pow2 by lia. unfold r.
      Z.div_mod_to_equations. lia.
  - apply z2b_cont.
    + change 63 with (Z.ones 6). rewrite Z.land_ones by lia.
      apply Z.mod_pos_bound. lia.
    + change 63 with (Z.ones 6). rewrite Z.land_ones by lia.
      rewrite Z.shiftr_div_pow2 by lia. unfold r.
      Z.div_mod_to_equations. lia.
  - apply z2b_cont.
    + change 63 with (Z.ones 6). rewrite Z.land_ones by lia.
      apply Z.mod_pos_bound. lia.
    + change 63 with (Z.ones 6). rewrite Z.land_ones by lia.
      unfold r. Z.div_mod_to_equations. lia.
Qed.

(** [DecodeRune], by the form of the encoding. *)
Lemma DecodeRune_eq (b0 : byte) (t : bytes) :
  DecodeRune (b0 :: t) =
    if b2z b0 <? 0x80 then (b2z b0, 1)
    else if lead2 b0 then
      match t with
      | b1 :: _ => if isCont b1 then (dec2 b0 b1, 2) else (RuneError, 1)
      | _ => (RuneError, 1)
      end
    else if lead3 b0 then
      match t with
      | b1 :: b2 :: _ =>
          if second3 b0 b1 && isCont b2 then (dec3 b0 b1 b2, 3)
          else (RuneError, 1)
      | _ => (RuneError, 1)
      end
    else if lead4 b0 then
      match t with
      | b1 :: b2 :: b3 :: _ =>
          if second4 b0 b1 && isCont b2 && isCont b3
          then (dec4 b0 b1 b2 b3, 4)
          else (RuneError, 1)
      | _ => (RuneError, 1)
      end
    else (RuneError, 1).
Proof. reflexivity. Qed.

Lemma lead_high (b : byte) :
  lead2 b || lead3 b || lead4 b = true -> (b2z b <? 0x80) = false.
Proof.
  unfold lead2, lead3, lead4. intros H. apply Z.ltb_ge.
  repeat (apply orb_true_iff in H; destruct H as [H|H]);
    apply andb_true_iff in H; destruct H as [H _];
    apply Z.leb_le in H; lia.
Qed.

Lemma isCont_high (b : byte) : isCont b = true -> (b2z b <? 0x80) = false.
Proof.
  unfold isCont, in_range. intros H. apply andb_true_iff in H.
  destruct H as [H _]. apply Z.leb_le in H. apply Z.ltb_ge. lia.
Qed.

Lemma second3_high (b0 b : byte) :
  second3 b0 b = true -> (b2z b <? 0x80) = false.
Proof.
  unfold second3, in_range. intros H. apply andb_true_iff in H.
  destruct H as [H _]. apply Z.leb_le in H. apply Z.ltb_ge.
  destruct (b2z b0 =? 224); lia.
Qed.

Lemma second4_high (b0 b : byte) :
  second4 b0 b = true -> (b2z b <? 0x80) = false.
Proof.
  unfold second4, in_range. intros H. apply andb_true_iff in H.
  destruct H as [H _]. apply Z.leb_le in H. apply Z.ltb_ge.
  destruct (b2z b0 =? 240); lia.
Qed.

(** The encoding at the head of a text whose first rune is valid and
    is not ASCII. *)
Lemma DecodeRune_multibyte (c : byte) (t : bytes) (r : rune) (w : Z) :
  (b2z c <? 0x80) = false ->
  DecodeRune (c :: t) = (r, w) ->
  (r =? RuneError) && (w =? 1) = false ->
  exists enc rest,
    c :: t = enc ++ rest
    /\ w = len enc
    /\ (2 <= length enc)%nat
    /\ EncodeRune r = enc
    /\ Forall (fun b => (b2z b <? 0x80) = false) enc
    /\ forall rest', DecodeRune (enc ++ rest') = (r, w).
Proof.
  intros Hc H Hv. rewrite DecodeRune_eq, Hc in H.
  destruct (lead2 c) eqn:L2.
  { destruct t as [|b1 t]; [inversion H; subst; discriminate|].
    destruct (isCont b1) eqn:C1; [|inversion H; subst; discriminate].
    inversion H; subst r w. exists [c; b1], t.
    split; [reflexivity|]. split; [reflexivity|]. split; [simpl; lia|].
    split; [now apply enc2|]. split.
    - repeat constructor; [exact Hc | now apply isCont_high].
    - intros rest'. simpl app. now rewrite DecodeRune_eq, Hc, L2, C1. }
  destruct (lead3 c) eqn:L3.
  { destruct t as [|b1 [|b2 t]]; try (inversion H; subst; discriminate).
    destruct (second3 c b1) eqn:C1;
      [|inversion H; subst; discriminate].
    destruct (isCont b2) eqn:C2; [|inversion H; subst; discriminate].
    simpl in H. inversion H; subst r w. exists [c; b1; b2], t.
    split; [reflexivity|]. split; [reflexivity|]. split; [simpl; lia|].
    split; [now apply enc3|]. split.
    - repeat constructor;
        [exact Hc | eapply second3_high; eassumption | now apply isCont_high].
    - intros rest'. simpl app. now rewrite DecodeRune_eq, Hc, L2, L3, C1, C2. }
  destruct (lead4 c) eqn:L4.
  { destruct t as [|b1 [|b2 [|b3 t]]];
      try (inversion H; subst; discriminate).
    destruct (second4 c b1) eqn:C1;
      [|inversion H; subst; discriminate].
    destruct (isCont b2) eqn:C2; [|inversion H; subst; discriminate].
    destruct (isCont b3) eqn:C3; [|inversion H; subst; discriminate].
    simpl in H. inversion H; subst r w. exists [c; b1; b2; b3], t.
    split; [reflexivity|]. split; [reflexivity|]. split; [simpl; lia|].
    split; [now apply enc4|]. split.
    - repeat constructor;
        [exact Hc | eapply second4_high; eassumption
         | now apply isCont_high | now apply isCont_high].
    - intros rest'. simpl app.
      now rewrite DecodeRune_eq, Hc, L2, L3, L4, C1, C2, C3. }
  inversion H; subst. discriminate.
Qed.

(** ** String literals: what [quoteBody] writes is read back *)

Lemma quoteBody_S (n : nat) (c : byte) (t : bytes) :
  quoteBody (S n) (c :: t) =
    if b2z c <? 0x80 then asciiQuote c ++ quoteBody n t
    else runeQuote (c :: t)
         ++ quoteBody n (slice_from (c :: t) (snd (DecodeRune (c :: t)))).
Proof.
  unfold runeQuote. cbn [quoteBody].
  destruct (b2z c <? 128); [reflexivity|].
  destruct (DecodeRune (c :: t)) as [r size]. reflexivity.
Qed.

Lemma scan_ascii (c : byte) (x : bytes) :
  (b2z c <? 0x80) = true ->
  scanString (asciiQuote c ++ x) = consTo (asciiQuote c) (scanString x).
Proof. destruct c; intros H; try discriminate H; reflexivity. Qed.

Lemma unquote_ascii (c : byte) (x : bytes) (m : nat) :
  (b2z c <? 0x80) = true ->
  unquote_fuel (S m) (asciiQuote c ++ x) =
    option_map (cons c) (unquote_fuel m x).
Proof. destruct c; intros H; try discriminate H; reflexivity. Qed.

Lemma asciiQuote_length (c : byte) : (1 <= length (asciiQuote c))%nat.
Proof. destruct c; simpl; lia. Qed.

Lemma consTo_consTo (a b : bytes) (x : option (bytes * bytes)) :
  consTo a (consTo b x) = consTo (a ++ b) x.
Proof. destruct x as [[u v]|]; simpl; [now rewrite app_assoc | reflexivity]. Qed.

Lemma high_byte_plain (c : byte) :
  (b2z c <? 0x80) = false ->
  Byte.eqb c x22 = false /\ Byte.eqb c x5c = false /\ (b2z c <? 0x20) = false.
Proof. destruct c; intros H; try discriminate H; repeat split. Qed.

Lemma scan_high (enc x : bytes) :
  Forall (fun b => (b2z b <? 0x80) = false) enc ->
  scanString (enc ++ x) = consTo enc (scanString x).
Proof.
  induction 1 as [|c enc Hc _ IH]; simpl app.
  - destruct (scanString x) as [[u v]|]; reflexivity.
  - destruct (high_byte_plain c Hc) as (H1 & H2 & H3).
    cbn [scanString]. rewrite H1, H2, H3, IH.
    now rewrite consTo_consTo.
Qed.

Lemma slice_from_enc (enc rest : bytes) :
  slice_from (enc ++ rest) (len enc) = rest.
Proof.
  unfold slice_from, len. rewrite Nat2Z.id. apply skipn_length_app.
Qed.

Lemma slice_to_enc (enc rest : bytes) :
  slice_to (enc ++ rest) (len enc) = enc.
Proof.
  unfold slice_to, len. rewrite Nat2Z.id.
  rewrite firstn_app, Nat.sub_diag, firstn_all. simpl. apply app_nil_r.
Qed.

(** The rune at the head of a text, when it is valid and not ASCII:
    what is written for it is scanned as a whole and read back as
    its encoding. *)
Lemma runeQuote_valid (enc rest : bytes) (r : rune) :
  (2 <= length enc)%nat ->
  EncodeRune r = enc ->
  Forall (fun b => (b2z b <? 0x80) = false) enc ->
  (forall rest', DecodeRune (enc ++ rest') = (r, len enc)) ->
  (forall x, scanString (runeQuote (enc ++ rest) ++ x)
             = consTo (runeQuote (enc ++ rest)) (scanString x))
  /\ (forall x m, unquote_fuel (S m) (runeQuote (enc ++ rest) ++ x)
                  = option_map (app enc) (unquote_fuel m x))
  /\ (1 <= length (runeQuote (enc ++ rest)))%nat.
Proof.
  intros Hlen Henc Hhigh Hdec.
  unfold runeQuote. rewrite (Hdec rest).
  assert (Hw : (len enc =? 1) = false).
  { apply Z.eqb_neq. unfold len. lia. }
  rewrite Hw, andb_false_r.
  destruct (r =? 8232) eqn:E1.
  { apply Z.eqb_eq in E1. subst r. rewrite <- Henc.
    split; [|split]; [reflexivity | reflexivity | simpl; lia]. }
  destruct (r =? 8233) eqn:E2.
  { apply Z.eqb_eq in E2. subst r. rewrite <- Henc.
    split; [|split]; [reflexivity | reflexivity | simpl; lia]. }
  rewrite slice_to_enc. split; [|split].
  - intros x. now apply scan_high.
  - intros x m. destruct enc as [|c enc']; [simpl in Hlen; lia|].
    inversion Hhigh as [|? ? Hc _]; subst.
    destruct (high_byte_plain c Hc) as (H1 & H2 & H3).
    change ((c :: enc') ++ x) with (c :: enc' ++ x).
    cbn [unquote_fuel]. rewrite H2, H1, H3, Hc. simpl orb. cbv iota.
    change (c :: enc' ++ x) with ((c :: enc') ++ x).
    rewrite (Hdec x), slice_from_enc, Henc. reflexivity.
  - lia.
Qed.

Lemma Valid_fuel_ascii (n : nat) (c : byte) (t : bytes) :
  (b2z c <? 0x80) = true ->
  Valid_fuel (S n) (c :: t) = Valid_fuel n t.
Proof.
  intros H. cbn [Valid_fuel]. rewrite DecodeRune_eq, H.
  assert (E : (b2z c =? RuneError) = false).
  { apply Z.eqb_neq. apply Z.ltb_lt in H. unfold RuneError. lia. }
  rewrite E. reflexivity.
Qed.

Lemma quoteBody_roundtrip (n : nat) :
  forall s,
    (length s <= n)%nat ->
    Valid_fuel n s = true ->
    (forall x, scanString (quoteBody n s ++ x22 :: x)
               = Some (quoteBody n s, x))
    /\ (forall m, (length (quoteBody n s) <= m)%nat ->
                  unquote_fuel m (quoteBody n s) = Some s).
Proof.
  induction n as [|n IH]; intros s Hn Hv.
  - destruct s; [|simpl in Hn; lia]. simpl. split; [reflexivity|].
    intros m _. destruct m; reflexivity.
  - destruct s as [|c t].
    { simpl. split; [reflexivity|]. intros m _. destruct m; reflexivity. }
    simpl in Hn. rewrite quoteBody_S.
    destruct (b2z c <? 0x80) eqn:Hc.
    + rewrite (Valid_fuel_ascii n c t Hc) in Hv.
      destruct (IH t ltac:(lia) Hv) as [IH1 IH2]. split.
      * intros x. rewrite <- app_assoc, (scan_ascii c _ Hc), IH1.
        reflexivity.
      * intros m Hm. rewrite length_app in Hm.
        pose proof (asciiQuote_length c).
        destruct m as [|m]; [lia|].
        rewrite (unquote_ascii c _ m Hc), IH2 by lia. reflexivity.
    + cbn [Valid_fuel] in Hv.
      destruct (DecodeRune (c :: t)) as [r w] eqn:Ed.
      destruct ((r =? RuneError) && (w =? 1)) eqn:Ebad; [discriminate|].
      destruct (DecodeRune_multibyte c t r w Hc Ed Ebad)
        as (enc & rest & Es & Ew & Hlen & Henc & Hhigh & Hdec).
      subst w. simpl snd. rewrite Es in *. rewrite slice_from_enc in *.
      destruct (runeQuote_valid enc rest r Hlen Henc Hhigh Hdec)
        as (R1 & R2 & R3).
      assert (Hrest : (length rest <= n)%nat).
      { apply (f_equal (@length byte)) in Es. rewrite length_app in Es.
        simpl in Es. lia. }
      destruct (IH rest Hrest Hv) as [IH1 IH2]. split.
      * intros x. rewrite <- app_assoc, R1, IH1. reflexivity.
      * intros m Hm. rewrite length_app in Hm.
        destruct m as [|m]; [lia|].
        rewrite R2, IH2 by lia. reflexivity.
Qed.

(** A string literal is read back as the string it was written
    from. *)
Lemma quote_roundtrip (s x : bytes) :
  utf8_Valid s = true ->
  scanString (quoteBody (length s) s ++ x22 :: x)
    = Some (quoteBody (length s) s, x)
  /\ unquote (quoteBody (length s) s) = Some s.
Proof.
  intros Hv.
  destruct (quoteBody_roundtrip (length s) s (le_n _) Hv) as [H1 H2].
  split; [apply H1 | apply H2, le_n].
Qed.

(** ** The parser on the text [MarshalIndent] writes *)

Lemma parse_string (f : nat) (d : Z) (s0 s rest : bytes) :
  skipSpace s0 = quote s ++ rest ->
  utf8_Valid s = true ->
  parseValue (S f) d s0 = Some (JString s, rest).
Proof.
  intros Hs Hv. rewrite parseValue_S, Hs.
  destruct (quote_roundtrip s rest Hv) as [H1 H2].
  assert (E : quote s ++ rest
              = x22 :: (quoteBody (length s) s ++ x22 :: rest)).
  { unfold quote. simpl. now rewrite <- app_assoc. }
  rewrite E.
  change (Byte.eqb x22 x7b) with false. change (Byte.eqb x22 x5b) with false.
  change (Byte.eqb x22 x22) with true. cbv iota.
  now rewrite H1, H2.
Qed.

Lemma parse_object (f : nat) (d : Z) (s t t' : bytes) (c' : byte)
    (ms : list (bytes * json)) (r : bytes) :
  skipSpace s = x7b :: t ->
  (maxNestingDepth <=? d) = false ->
  skipSpace t = c' :: t' -> Byte.eqb c' x7d = false ->
  parseMembers f (d + 1) t = Some (ms, r) ->
  parseValue (S f) d s = Some (JObject ms, r).
Proof.
  intros Hs Hd Ht Hc Hm. rewrite parseValue_S, Hs.
  change (Byte.eqb x7b x7b) with true. cbv iota.
  now rewrite Hd, Ht, Hc, Hm.
Qed.

Lemma parse_array (f : nat) (d : Z) (s t t' : bytes) (c' : byte)
    (vs : list json) (r : bytes) :
  skipSpace s = x5b :: t ->
  (maxNestingDepth <=? d) = false ->
  skipSpace t = c' :: t' -> Byte.eqb c' x5d = false ->
  parseElems f (d + 1) t = Some (vs, r) ->
  parseValue (S f) d s = Some (JArray vs, r).
Proof.
  intros Hs Hd Ht Hc Hm. rewrite parseValue_S, Hs.
  change (Byte.eqb x5b x7b) with false. change (Byte.eqb x5b x5b) with true.
  cbv iota. now rewrite Hd, Ht, Hc, Hm.
Qed.

Lemma parse_member_more (f : nat) (d : Z) (s kb k vt r2 r3 r4 : bytes)
    (v : json) (ms : list (bytes * json)) :
  skipSpace s = x22 :: kb ++ x22 :: x3a :: vt ->
  (forall x, scanString (kb ++ x22 :: x) = Some (kb, x)) ->
  unquote kb = Some k ->
  parseValue f d vt = Some (v, r2) ->
  skipSpace r2 = x2c :: r3 ->
  parseMembers f d r3 = Some (ms, r4) ->
  parseMembers (S f) d s = Some ((k, v) :: ms, r4).
Proof.
  intros Hs Hk Hu Hv Hr Hm. rewrite parseMembers_S, Hs.
  change (Byte.eqb x22 x22) with true. cbv iota.
  rewrite Hk, Hu. change (skipSpace (x3a :: vt)) with (x3a :: vt).
  cbv iota. change (Byte.eqb x3a x3a) with true. cbv iota.
  rewrite Hv, Hr. change (Byte.eqb x2c x2c) with true. cbv iota.
  now rewrite Hm.
Qed.

Lemma parse_member_last (f : nat) (d : Z) (s kb k vt r2 r3 : bytes)
    (v : json) :
  skipSpace s = x22 :: kb ++ x22 :: x3a :: vt ->
  (forall x, scanString (kb ++ x22 :: x) = Some (kb, x)) ->
  unquote kb = Some k ->
  parseValue f d vt = Some (v, r2) ->
  skipSpace r2 = x7d :: r3 ->
  parseMembers (S f) d s = Some ([(k, v)], r3).
Proof.
  intros Hs Hk Hu Hv Hr. rewrite parseMembers_S, Hs.
  change (Byte.eqb x22 x22) with true. cbv iota.
  rewrite Hk, Hu. change (skipSpace (x3a :: vt)) with (x3a :: vt).
  cbv iota. change (Byte.eqb x3a x3a) with true. cbv iota.
  rewrite Hv, Hr. reflexivity.
Qed.

Lemma parse_elem_more (f : nat) (d : Z) (s r r' r'' : bytes) (v : json)
    (vs : list json) :
  parseValue f d s = Some (v, r) ->
  skipSpace r = x2c :: r' ->
  parseElems f d r' = Some (vs, r'') ->
  parseElems (S f) d s = Some (v :: vs, r'').
Proof.
  intros Hv Hr He. rewrite parseElems_S, Hv, Hr.
  change (Byte.eqb x2c x2c) with true. cbv iota. now rewrite He.
Qed.

Lemma parse_elem_last (f : nat) (d : Z) (s r r' : bytes) (v : json) :
  parseValue f d s = Some (v, r) ->
  skipSpace r = x5d :: r' ->
  parseElems (S f) d s = Some ([v], r').
Proof. intros Hv Hr. rewrite parseElems_S, Hv, Hr. reflexivity. Qed.

(** A message. *)
Lemma parse_Message (f : nat) (d : Z) (m : Message) (ws rest : bytes) :
  allSpace ws = true ->
  (maxNestingDepth <=? d) = false ->
  utf8_Valid (Role m) = true -> utf8_Valid (Content m) = true ->
  parseValue (S (S (S (S f)))) d (ws ++ marshal_Message m ++ rest)
    = Some (json_of_Message m, rest).
Proof.
  intros Hws Hd Hr Hc. unfold marshal_Message, json_of_Message.
  rewrite <- !app_assoc.
  eapply parse_object.
  - rewrite (skipSpace_allSpace_app ws _ Hws). reflexivity.
  - exact Hd.
  - reflexivity.
  - reflexivity.
  - eapply (parse_member_more (S (S f)) (d + 1) _ (bs "role") (bs "role")).
    + reflexivity.
    + intros x. reflexivity.
    + reflexivity.
    + apply (parse_string (S f) (d + 1) _ (Role m)); [reflexivity | exact Hr].
    + reflexivity.
    + eapply (parse_member_last (S f) (d + 1) _ (bs "content")
                (bs "content")).
      * reflexivity.
      * intros x. reflexivity.
      * reflexivity.
      * apply (parse_string f (d + 1) _ (Content m));
          [reflexivity | exact Hc].
      * reflexivity.
Qed.

Lemma parse_Message_ge (f : nat) (d : Z) (m : Message) (ws rest : bytes) :
  (4 <= f)%nat ->
  allSpace ws = true ->
  (maxNestingDepth <=? d) = false ->
  utf8_Valid (Role m) = true -> utf8_Valid (Content m) = true ->
  parseValue f d (ws ++ marshal_Message m ++ rest)
    = Some (json_of_Message m, rest).
Proof.
  intros Hf. do 4 (destruct f as [|f]; [lia|]). apply parse_Message.
Qed.

Lemma join_cons2 (sep a b : bytes) (l : list bytes) :
  join sep (a :: b :: l) = a ++ sep ++ join sep (b :: l).
Proof. reflexivity. Qed.

(** The messages of a conversation, after the opening bracket. *)
Lemma parse_Messages (d : Z) (rest : bytes) (ms : list Message) :
  (maxNestingDepth <=? d) = false ->
  ms <> [] ->
  forallb (fun m => utf8_Valid (Role m) && utf8_Valid (Content m)) ms
    = true ->
  forall (f : nat) (ws : bytes),
    (length ms + 4 <= f)%nat ->
    allSpace ws = true ->
    parseElems f d
      (ws ++ join (bs "," ++ nl) (map marshal_Message ms)
          ++ nl ++ bs "  ]" ++ rest)
      = Some (map json_of_Message ms, rest).
Proof.
  intros Hd Hne Hv. induction ms as [|m ms IH]; [contradiction|].
  simpl in Hv. apply andb_true_iff in Hv. destruct Hv as [Hm Hv].
  apply andb_true_iff in Hm. destruct Hm as [Hr Hc].
  intros f ws Hf Hws. simpl length in Hf.
  destruct f as [|f]; [lia|].
  destruct ms as [|m2 ms].
  - simpl map. simpl join.
    eapply parse_elem_last.
    + apply parse_Message_ge; [lia | assumption ..].
    + reflexivity.
  - simpl map. rewrite join_cons2. rewrite <- !app_assoc.
    eapply parse_elem_more.
    + apply parse_Message_ge; [simpl in Hf; lia | assumption ..].
    + reflexivity.
    + apply (IH ltac:(discriminate) Hv f nl); [simpl in *; lia | reflexivity].
Qed.

Lemma marshal_Message_head (m : Message) :
  exists t, marshal_Message m = bs "    " ++ x7b :: t.
Proof. unfold marshal_Message. eexists. reflexivity. Qed.

Lemma join_head (sep : bytes) (m : Message) (ms : list Message) :
  exists t,
    join sep (map marshal_Message (m :: ms)) = bs "    " ++ x7b :: t.
Proof.
  destruct (marshal_Message_head m) as [t Ht].
  destruct ms as [|m2 ms]; simpl map.
  - exists t. exact Ht.
  - rewrite join_cons2, Ht. eexists. simpl. reflexivity.
Qed.

Lemma length_join_ge (sep : bytes) (l : list bytes) :
  Forall (fun x => (1 <= length x)%nat) l ->
  (length l <= length (join sep l))%nat.
Proof.
  induction 1 as [|x l Hx Hl IH]; [simpl; lia|].
  destruct l as [|y l]; [simpl; lia|].
  rewrite join_cons2, !length_app. simpl length in *. lia.
Qed.

Lemma marshal_Message_length (m : Message) :
  (1 <= length (marshal_Message m))%nat.
Proof.
  destruct (marshal_Message_head m) as [t ->]. simpl. lia.
Qed.

(** The text of a conversation is parsed as its JSON value. *)
Lemma parse_Thread (th : Thread) (f : nat) :
  validThread th = true ->
  (length (Messages th) + 8 <= f)%nat ->
  parseValue f 0 (json_MarshalIndent_Thread th)
    = Some (json_of_Thread th, []).
Proof.
  unfold validThread. intros Hv Hf. apply andb_true_iff in Hv.
  destruct Hv as [Hid Hms].
  destruct f as [|[|[|[|f]]]]; try lia.
  unfold json_MarshalIndent_Thread, json_of_Thread.
  rewrite <- ?app_assoc.
  eapply parse_object; [reflexivity | reflexivity | reflexivity
                        | reflexivity |].
  eapply (parse_member_more (S (S f)) 1 _ (bs "id") (bs "id")).
  - reflexivity.
  - intros x. reflexivity.
  - reflexivity.
  - apply (parse_string (S f) 1 _ (ID th)); [reflexivity | exact Hid].
  - reflexivity.
  - eapply (parse_member_last (S f) 1 _ (bs "messages") (bs "messages")).
    + reflexivity.
    + intros x. reflexivity.
    + reflexivity.
    + destruct (Messages th) as [|m ms] eqn:Em.
      * rewrite parseValue_S. reflexivity.
      * rewrite <- ?app_assoc.
        destruct (join_head (bs "," ++ nl) m ms) as [t Ht].
        destruct f as [|f]; [simpl in Hf; lia|].
        eapply parse_array.
        -- reflexivity.
        -- reflexivity.
        -- rewrite Ht. reflexivity.
        -- reflexivity.
        -- apply (parse_Messages 2 _ (m :: ms));
             [reflexivity | discriminate | exact Hms
              | simpl in *; lia | reflexivity].
    + destruct (Messages th); reflexivity.
Qed.

Lemma length_Messages_text (ms : list Message) :
  (length ms
   <= length (join (bs "," ++ nl) (map marshal_Message ms)))%nat.
Proof.
  rewrite <- (length_map marshal_Message ms) at 1.
  apply length_join_ge. apply Forall_forall. intros x Hx.
  apply in_map_iff in Hx. destruct Hx as (m & <- & _).
  apply marshal_Message_length.
Qed.

Lemma parseJSON_Thread (th : Thread) :
  validThread th = true ->
  parseJSON (json_MarshalIndent_Thread th) = Some (json_of_Thread th).
Proof.
  intros Hv. unfold parseJSON.
  rewrite (parse_Thread th _ Hv); [reflexivity|].
  unfold json_MarshalIndent_Thread.
  pose proof (length_Messages_text (Messages th)) as H.
  destruct (Messages th) as [|m ms].
  - rewrite !length_app. simpl. lia.
  - remember (join (bs "," ++ nl) (map marshal_Message (m :: ms))) as J.
    remember (length (m :: ms)) as n.
    rewrite !length_app. simpl. lia.
Qed.

(** The JSON value of a message, and of a list of messages, is stored
    as the message, and as the list. *)
Lemma store_Message (m : Message) :
  storeObject set_Message zero_Message (json_of_Message m) = Some m.
Proof. destruct m. reflexivity. Qed.

Lemma store_Messages (ms : list Message) :
  storeElems zero_Message (storeObject set_Message)
    (map json_of_Message ms) [] = Some (ms, []).
Proof.
  induction ms as [|m ms IH]; [reflexivity|].
  cbn [map storeElems hd tl]. now rewrite store_Message, IH.
Qed.

Lemma store_Thread (th : Thread) :
  storeObject set_Thread
    {| dec_Thread := zero_Thread; behind_Messages := [] |}
    (json_of_Thread th)
  = Some {| dec_Thread := th; behind_Messages := [] |}.
Proof.
  destruct th as [id ms]. unfold json_of_Thread. simpl ID. simpl Messages.
  destruct ms as [|m ms]; [reflexivity|].
  cbn [storeObject storeMembers].
  change (set_Thread (bs "id") (JString id)
            {| dec_Thread := zero_Thread; behind_Messages := [] |})
    with (Some {| dec_Thread := {| ID := id; Messages := [] |};
                  behind_Messages := [] |}).
  cbv iota.
  change (set_Thread (bs "messages")
            (JArray (map json_of_Message (m :: ms)))
            {| dec_Thread := {| ID := id; Messages := [] |};
               behind_Messages := [] |})
    with (option_map
            (fun r => {| dec_Thread := {| ID := id; Messages := fst r |};
                         behind_Messages := snd r |})
            (storeElems zero_Message (storeObject set_Message)
               (map json_of_Message (m :: ms)) [])).
  now rewrite store_Messages.
Qed.

(** The round trip: the text written for a conversation whose
    identifier and messages are valid UTF-8 is decoded as that
    conversation. *)
Lemma json_Thread_roundtrip (th : Thread) :
  validThread th = true ->
  json_Unmarshal_Thread (json_MarshalIndent_Thread th) = Some th.
Proof.
  intros Hv. unfold json_Unmarshal_Thread.
  now rewrite (parseJSON_Thread th Hv), store_Thread.
Qed.

(** The same for the other way of writing an empty list of
    messages. *)
Lemma json_noMessages_roundtrip (id : bytes) :
  utf8_Valid id = true ->
  json_Unmarshal_Thread (json_MarshalIndent_noMessages id)
    = Some {| ID := id; Messages := [] |}.
Proof.
  intros Hv. unfold json_Unmarshal_Thread, parseJSON.
  assert (P : forall f,
    parseValue (S (S (S (S f)))) 0 (json_MarshalIndent_noMessages id)
    = Some (JObject [(bs "id", JString id); (bs "messages", JArray [])],
            [])).
  { intros f. unfold json_MarshalIndent_noMessages.
    eapply parse_object; [reflexivity | reflexivity | reflexivity
                          | reflexivity |].
    eapply (parse_member_more (S (S f)) 1 _ (bs "id") (bs "id")).
    - reflexivity.
    - intros x. reflexivity.
    - reflexivity.
    - apply (parse_string (S f) 1 _ id); [reflexivity | exact Hv].
    - reflexivity.
    - eapply (parse_member_last (S f) 1 _ (bs "messages") (bs "messages")).
      + reflexivity.
      + intros x. reflexivity.
      + reflexivity.
      + rewrite parseValue_S. reflexivity.
      + reflexivity. }
  replace (2 * length (json_MarshalIndent_noMessages id) + 2)%nat
    with (S (S (S (S (2 * length (json_MarshalIndent_noMessages id) - 2)))))
    by (unfold json_MarshalIndent_noMessages; rewrite length_app;
        simpl; lia).
  rewrite P. reflexivity.
Qed.

Lemma marshalled_roundtrip (th : Thread) (data : bytes) :
  validThread th = true ->
  marshalled th data ->
  json_Unmarshal_Thread data = Some th.
Proof.
  intros Hv [-> | [Hm ->]].
  - now apply json_Thread_roundtrip.
  - destruct th as [id ms]. simpl in Hm. subst ms. simpl ID.
    apply json_noMessages_roundtrip.
    unfold validThread in Hv. simpl in Hv.
    now apply andb_true_iff in Hv.
Qed.

(* ----------------------------------------------------------------- *)
(** ** [Save] followed by [Load] *)

(** C4, as the code has it.  Let the base directory be canonical and
    exist, the identifier hold no separator, no directory have the
    name of the conversation's file, and no other entry of the base
    directory have a name that starts with the identifier.  When the
    identifier and the role and the text of every message are valid
    UTF-8, [Save] succeeds and [Load] on the full identifier returns
    the conversation saved: same identifier, same messages in the
    same order. *)
Theorem Save_then_Load_full_identifier :
  forall (marshalIndent : Thread -> result bytes)
         (st : FSStore) (fs : FS) (th : Thread)
         (cb : list bytes) (names : list bytes) (data : bytes),
    basePath st = rootedPath cb -> Forall plain cb -> cb <> [] ->
    fsWF fs ->
    os_ReadDir fs (basePath st) = Ok names ->
    slashFree (ID th) ->
    mem (child (basePath st) (ID th ++ bs ".json")) (dirs fs) = false ->
    (forall n, In n names -> n <> ID th ++ bs ".json" ->
       HasPrefix n (ID th) = false) ->
    validThread th = true ->
    marshalIndent th = Ok data ->
    marshalled th data ->
    exists fs',
      FSStore_Save marshalIndent st th fs = (None, fs')
      /\ FSStore_Load json_Unmarshal_Thread st (ID th) fs' = Ok th.
Proof.
  intros marshalIndent st fs th cb names data
    Hb Hcb Hne Hwf Hdir Hid Hnodir Hothers Hv Hm Hdata.
  apply (Save_then_Load_when_decoded json_Unmarshal_Thread marshalIndent
           st fs th cb names data); try assumption.
  now apply marshalled_roundtrip.
Qed.

Lemma Save_then_Load_full_identifier_witness :
  basePath sample_store
    = rootedPath [bs "home"; bs "u"; bs ".plexctl"; bs "threads"]
  /\ fsWF sample_fs_abc
  /\ os_ReadDir sample_fs_abc (basePath sample_store) = Ok [bs "abc.json"]
  /\ slashFree (ID thread_three)
  /\ validThread thread_three = true
  /\ marshalled thread_three (json_MarshalIndent_Thread thread_three)
  /\ exists fs',
       Save sample_store thread_three sample_fs_abc = (None, fs')
       /\ Load sample_store (ID thread_three) fs' = Ok thread_three.
Proof.
  assert (H1 : basePath sample_store
    = rootedPath [bs "home"; bs "u"; bs ".plexctl"; bs "threads"])
    by reflexivity.
  assert (H2 : Forall plain [bs "home"; bs "u"; bs ".plexctl"; bs "threads"]).
  { repeat constructor; try discriminate;
      intros F; vm_compute in F; intuition discriminate. }
  assert (H3 : [bs "home"; bs "u"; bs ".plexctl"; bs "threads"] <> [])
    by discriminate.
  assert (H4 : fsWF sample_fs_abc).
  { unfold fsWF. vm_compute.
    repeat (constructor;
            [simpl; intros F; intuition discriminate|]).
    constructor. }
  assert (H5 : os_ReadDir sample_fs_abc (basePath sample_store)
               = Ok [bs "abc.json"]) by (vm_compute; reflexivity).
  assert (H6 : slashFree (ID thread_three)).
  { intros F. vm_compute in F. intuition discriminate. }
  assert (H7 : mem (child (basePath sample_store)
                      (ID thread_three ++ bs ".json"))
                 (dirs sample_fs_abc) = false) by (vm_compute; reflexivity).
  assert (H8 : forall n, In n [bs "abc.json"] ->
                 n <> ID thread_three ++ bs ".json" ->
                 HasPrefix n (ID thread_three) = false).
  { intros n [<- | []] _. vm_compute. reflexivity. }
  assert (H9 : validThread thread_three = true) by (vm_compute; reflexivity).
  assert (H10 : marshalled thread_three
                  (json_MarshalIndent_Thread thread_three))
    by (left; reflexivity).
  refine (conj H1 (conj H4 (conj H5 (conj H6 (conj H9 (conj H10 _)))))).
  exact (Save_then_Load_full_identifier
           (fun th => Ok (json_MarshalIndent_Thread th))
           sample_store sample_fs_abc thread_three _ _ _
           H1 H2 H3 H4 H5 H6 H7 H8 H9 eq_refl H10).
Defined.

(** A byte that is no valid UTF-8 does not survive the round trip:
    it comes back as U+FFFD. *)
Lemma Save_then_Load_invalid_text :
  validThread thread_invalid = false
  /\ Load sample_store (ID thread_invalid)
       (snd (Save sample_store thread_invalid sample_fs0))
     = Ok {| ID := bs "bad";
             Messages := [{| Role := bs "user";
                             Content := [x61; xef; xbf; xbd] |}] |}.
Proof. split; vm_compute; reflexivity. Qed.

(* ----------------------------------------------------------------- *)
(** ** Finishing a completion *)

Section CompletionFacts.
Context {S W : Type} `{ThreadStore S W}.

Lemma handleCompletionResponse_text (store : S) (th : Thread)
    (finalContent : bytes) (citations : list bytes) (w : W) :
  finalContent <> [] ->
  exists printed,
    handleCompletionResponse store th finalContent citations w =
      (option_map (ErrWrap (bs "save thread"))
         (fst (Save store (withAssistant th finalContent) w)),
       withAssistant th finalContent,
       snd (Save store (withAssistant th finalContent) w),
       printed).
Proof.
  intros Hne. unfold handleCompletionResponse.
  rewrite (proj2 (bytes_eqb_neq finalContent [])) by assumption.
  simpl negb. cbv iota.
  change {| ID := ID th;
            Messages := Messages th ++
              [{| Role := bs "assistant"; Content := finalContent |}] |}
    with (withAssistant th finalContent).
  destruct (Save store (withAssistant th finalContent) w) as [[e|] w1];
    simpl; eauto.
Qed.

Lemma handleCompletionResponse_empty (store : S) (th : Thread)
    (citations : list bytes) (w : W) :
  exists printed,
    handleCompletionResponse store th [] citations w =
      (None, th, w, printed).
Proof. unfold handleCompletionResponse. simpl. eauto. Qed.

End CompletionFacts.

(** C7.  When a streaming call ends without error and the accumulated
    text is not empty, the conversation leaves the call with exactly
    one message more, an assistant message carrying that text, and the
    store has been asked once to save that conversation: the world is
    the one [Save] leaves, and the call reports the error of [Save] if
    there is one.  When the accumulated text is empty the conversation
    and the world are unchanged and no error is reported, whatever the
    citations. *)
Theorem completion_appends_and_saves_once :
  forall (S W : Type) (TS : ThreadStore S W)
         (unmarshal : bytes -> option sseChunk) (reader : list event)
         (th : Thread) (store : S) (w : W) (out : sseOutcome),
    readSSE unmarshal reader = Some out ->
    ret_err out = None ->
    (ret_final out <> [] ->
     exists printed,
       streamCompletion unmarshal (Ok reader) th store w =
         Some (option_map (ErrWrap (bs "save thread"))
                 (fst (Save store (withAssistant th (ret_final out)) w)),
               withAssistant th (ret_final out),
               snd (Save store (withAssistant th (ret_final out)) w),
               printed))
    /\ (ret_final out = [] ->
        exists printed,
          streamCompletion unmarshal (Ok reader) th store w =
            Some (None, th, w, printed)).
Proof.
  intros S W TS unmarshal reader th store w out Hrun Herr.
  unfold streamCompletion. rewrite Hrun, Herr. split.
  - intros Hne.
    destruct (handleCompletionResponse_text store th (ret_final out)
                (ret_citations out) w Hne) as [printed E].
    rewrite E. eauto.
  - intros He. rewrite He.
    destruct (handleCompletionResponse_empty store th
                (ret_citations out) w) as [printed E].
    rewrite E. eauto.
Qed.

Lemma completion_appends_and_saves_once_witness :
  readSSE json_Unmarshal_sseChunk events_hello =
    Some {| ret_final := bs "Hello"; ret_citations := [];
            ret_err := None; sent := runes (bs "Hello") |}
  /\ (exists printed,
        streamCompletion json_Unmarshal_sseChunk (Ok events_hello)
          thread_hi {| saveResult := None |} [] =
        Some (None, withAssistant thread_hi (bs "Hello"),
              [withAssistant thread_hi (bs "Hello")], printed))
  /\ readSSE json_Unmarshal_sseChunk events_only_citations =
       Some {| ret_final := []; ret_citations := [bs "a.com"];
               ret_err := None; sent := [] |}
  /\ (exists printed,
        streamCompletion json_Unmarshal_sseChunk (Ok events_only_citations)
          thread_hi {| saveResult := None |} [] =
        Some (None, thread_hi, [], printed)).
Proof.
  assert (H1 : readSSE json_Unmarshal_sseChunk events_hello =
    Some {| ret_final := bs "Hello"; ret_citations := [];
            ret_err := None; sent := runes (bs "Hello") |})
    by (vm_compute; reflexivity).
  assert (H2 : readSSE json_Unmarshal_sseChunk events_only_citations =
       Some {| ret_final := []; ret_citations := [bs "a.com"];
               ret_err := None; sent := [] |})
    by (vm_compute; reflexivity).
  refine (conj H1 (conj _ (conj H2 _))).
  - destruct (completion_appends_and_saves_once _ _ _
                json_Unmarshal_sseChunk events_hello thread_hi
                {| saveResult := None |} [] _ H1 eq_refl) as [W1 _].
    destruct W1 as [printed E]; [discriminate|].
    exists printed. exact E.
  - destruct (completion_appends_and_saves_once _ _ _
                json_Unmarshal_sseChunk events_only_citations thread_hi
                {| saveResult := None |} [] _ H2 eq_refl) as [_ W2].
    destruct W2 as [printed E]; [reflexivity|].
    exists printed. exact E.
Defined.

(** The end-to-end scenario of the specification: the request
    messages [user: hi], the three frames, and afterwards a stored
    conversation [user: hi; assistant: Hello]. *)
Example scenario_hello_persisted :
  match streamCompletion json_Unmarshal_sseChunk (Ok events_hello)
          thread_hi sample_store sample_fs0 with
  | Some (None, th, fs, _) =>
      Messages th = [{| Role := bs "user"; Content := bs "hi" |};
                     {| Role := bs "assistant"; Content := bs "Hello" |}]
      /\ Load sample_store (ID thread_hi) fs = Ok th
  | _ => False
  end.
Proof. vm_compute. split; reflexivity. Qed.

(** The citations of a call without text are printed and nothing is
    saved. *)
Example citations_without_text_not_persisted :
  streamCompletion json_Unmarshal_sseChunk (Ok events_only_citations)
    thread_hi sample_store sample_fs0
  = Some (None, thread_hi, sample_fs0,
          readSSE_stdout [] ++
          nl ++ nl ++ bs "Citations:" ++ nl ++ bs "[1] a.com" ++ nl).
Proof. vm_compute. reflexivity. Qed.

(* ================================================================= *)
(** * Further properties *)

(** ** The orchestrator *)

(** X1.  A read error other than end-of-transport ends [readSSE] with
    that error wrapped and with neither text nor citations, whatever
    has been accumulated; [streamCompletion] then reports the error
    and leaves the conversation and the store as they were. *)
Theorem read_error_discards_accumulated :
  forall (S W : Type) (TS : ThreadStore S W)
         (unmarshal : bytes -> option sseChunk)
         (pre : list event) (raw : bytes) (e : error) (rest : list event)
         (th : Thread) (store : S) (w : W),
    existsb terminal pre = false ->
    errors_Is_EOF e = false ->
    readSSE unmarshal (pre ++ (raw, Some e) :: rest) =
      Some {| ret_final := []; ret_citations := [];
              ret_err := Some (ErrWrap (bs "SSE read") e);
              sent := charCh (processAll unmarshal None (map fst pre)
                                sseState0) |}
    /\ exists printed,
         streamCompletion unmarshal (Ok (pre ++ (raw, Some e) :: rest))
           th store w =
         Some (Some (ErrWrap (bs "read SSE") (ErrWrap (bs "SSE read") e)),
               th, w, printed).
Proof.
  intros S W TS unmarshal pre raw e rest th store w Hpre He.
  assert (Hrun : readSSE unmarshal (pre ++ (raw, Some e) :: rest) =
      Some {| ret_final := []; ret_citations := [];
              ret_err := Some (ErrWrap (bs "SSE read") e);
              sent := charCh (processAll unmarshal None (map fst pre)
                                sseState0) |}).
  { unfold readSSE. rewrite readSSE_loop_prefix by assumption.
    simpl. rewrite He. reflexivity. }
  split; [exact Hrun|].
  unfold streamCompletion. rewrite Hrun. simpl. eauto.
Qed.

Lemma read_error_discards_accumulated_witness :
  existsb terminal [(frame_after, None)] = false
  /\ errors_Is_EOF (ErrRead (bs "connection reset")) = false
  /\ readSSE json_Unmarshal_sseChunk
       ([(frame_after, None)] ++
          ([], Some (ErrRead (bs "connection reset"))) :: [])
     = Some {| ret_final := []; ret_citations := [];
               ret_err := Some (ErrWrap (bs "SSE read")
                                  (ErrRead (bs "connection reset")));
               sent := [98] |}.
Proof.
  assert (H1 : existsb terminal [(frame_after, None)] = false)
    by (vm_compute; reflexivity).
  assert (H2 : errors_Is_EOF (ErrRead (bs "connection reset")) = false)
    by reflexivity.
  refine (conj H1 (conj H2 _)).
  destruct (read_error_discards_accumulated _ _ Recorder_ThreadStore
              json_Unmarshal_sseChunk [(frame_after, None)] []
              (ErrRead (bs "connection reset")) [] thread_hi
              {| saveResult := None |} [] H1 H2) as [W1 _].
  etransitivity; [exact W1|]. vm_compute. reflexivity.
Defined.

(** X2.  Frames without bytes contribute nothing: a call of [readSSE]
    gives the same outcome with and without them, wherever they come
    in the stream. *)
Theorem empty_frames_are_ignored :
  forall (unmarshal : bytes -> option sseChunk) (ctx : context_Context)
         (events : list event) (st : sseState),
    readSSE_loop unmarshal ctx (dropEmpty events) st =
    readSSE_loop unmarshal ctx events st.
Proof.
  intros unmarshal ctx events. unfold dropEmpty.
  induction events as [|[raw err] rest IH]; intros st; [reflexivity|].
  assert (Hkeep : emptyFrame (raw, err) = false ->
            readSSE_loop unmarshal ctx
              ((raw, err) :: filter (fun ev => negb (emptyFrame ev)) rest) st
            = readSSE_loop unmarshal ctx ((raw, err) :: rest) st).
  { intros _. simpl.
    destruct (checkEventEnd raw err) as [done [e|]]; [reflexivity|].
    destruct done; [reflexivity|].
    destruct (processSSEChunk unmarshal ctx raw st) as [[e|] st'];
      [reflexivity | apply IH]. }
  destruct raw as [|c raw']; [destruct err as [e|]|].
  - apply Hkeep. reflexivity.
  - change (filter (fun ev => negb (emptyFrame ev)) (([], None) :: rest))
      with (filter (fun ev => negb (emptyFrame ev)) rest).
    rewrite IH. reflexivity.
  - apply Hkeep. reflexivity.
Qed.

(** X3.  The text [readSSE] returns on success is the content delta of
    the first choice of every chunk decoded, in order of arrival, and
    the runes sent to the printer are the runes of those deltas in the
    same order; the other choices of a chunk are never used. *)
Theorem final_text_is_content_deltas :
  forall (unmarshal : bytes -> option sseChunk) (events : list event)
         (out : sseOutcome),
    readSSE unmarshal events = Some out ->
    ret_err out = None ->
    ret_final out =
      concat (map contentDelta
                (emitted unmarshal None (processedFrames events) sseState0))
    /\ sent out =
       concat (map (fun c => runes (contentDelta c))
                 (emitted unmarshal None (processedFrames events)
                    sseState0)).
Proof.
  intros unmarshal events out Hrun Herr.
  destruct (readSSE_loop_outcome unmarshal events sseState0 out Hrun Herr)
    as (Hf & _ & Hs).
  rewrite Hf, Hs, processAll_final, processAll_sent. auto.
Qed.

Lemma final_text_is_content_deltas_witness :
  readSSE json_Unmarshal_sseChunk events_hello =
    Some {| ret_final := bs "Hello"; ret_citations := [];
            ret_err := None; sent := runes (bs "Hello") |}
  /\ bs "Hello" =
     concat (map contentDelta
               (emitted json_Unmarshal_sseChunk None
                  (processedFrames events_hello) sseState0)).
Proof.
  assert (H : readSSE json_Unmarshal_sseChunk events_hello =
    Some {| ret_final := bs "Hello"; ret_citations := [];
            ret_err := None; sent := runes (bs "Hello") |})
    by (vm_compute; reflexivity).
  split; [exact H|].
  exact (proj1 (final_text_is_content_deltas json_Unmarshal_sseChunk
                  events_hello _ H eq_refl)).
Defined.

Lemma sendRunes_Some (rs : list rune) :
  forall (k : nat) (ch : list rune),
    sendRunes (Some k) rs ch =
      (if (k <? length rs)%nat then Some context_Canceled else None,
       ch ++ firstn k rs).
Proof.
  induction rs as [|r rs IH]; intros k ch.
  - simpl. destruct k; simpl; now rewrite app_nil_r.
  - destruct k as [|k]; simpl sendRunes.
    + simpl. now rewrite app_nil_r.
    + rewrite IH. simpl firstn. rewrite <- app_assoc. reflexivity.
Qed.

(** X4.  When the context is cancelled while [processSSEChunk] sends
    the runes of a chunk, the runes already sent are a prefix of the
    chunk's runes, in order, and the call returns the cancellation
    error exactly when some rune was left unsent; the text of the
    chunk has been appended to the accumulated text before any send. *)
Theorem cancelled_send_is_a_prefix :
  forall (unmarshal : bytes -> option sseChunk) (k : nat) (raw : bytes)
         (st : sseState) (chunk : sseChunk),
    raw <> [] ->
    unmarshal (buf st ++ payload raw) = Some chunk ->
    charCh (snd (processSSEChunk unmarshal (Some k) raw st)) =
      charCh st ++ firstn k (runes (contentDelta chunk))
    /\ fst (processSSEChunk unmarshal (Some k) raw st) =
       (if (k <? length (runes (contentDelta chunk)))%nat
        then Some context_Canceled else None)
    /\ final (snd (processSSEChunk unmarshal (Some k) raw st)) =
       final st ++ contentDelta chunk.
Proof.
  intros unmarshal k raw st chunk Hraw Hd.
  rewrite (processSSEChunk_success unmarshal (Some k) raw st chunk Hraw Hd).
  unfold applyChunk, contentDelta.
  destruct (Choices chunk) as [|c0 cs]; simpl.
  - rewrite firstn_nil, !app_nil_r. destruct k; auto.
  - rewrite sendRunes_Some. simpl. auto.
Qed.

Lemma cancelled_send_is_a_prefix_witness :
  frame_hello <> []
  /\ json_Unmarshal_sseChunk (buf sseState0 ++ payload frame_hello)
     = Some chunk_hello
  /\ processSSEChunk json_Unmarshal_sseChunk (Some 2%nat) frame_hello
       sseState0
     = (Some context_Canceled,
        {| buf := []; final := bs "Hello"; finalCitations := [bs "a.com"];
           charCh := [72; 101] |}).
Proof.
  assert (H1 : frame_hello <> []) by (vm_compute; discriminate).
  assert (H2 : json_Unmarshal_sseChunk (buf sseState0 ++ payload frame_hello)
               = Some chunk_hello) by (vm_compute; reflexivity).
  refine (conj H1 (conj H2 _)).
  pose proof (cancelled_send_is_a_prefix json_Unmarshal_sseChunk 2%nat
                frame_hello sseState0 chunk_hello H1 H2) as (Wc & We & Wf).
  destruct (processSSEChunk json_Unmarshal_sseChunk (Some 2%nat) frame_hello
              sseState0) as [e st'] eqn:E.
  simpl in Wc, We, Wf.
  assert (Hrest : buf st' = [] /\ finalCitations st' = [bs "a.com"]).
  { apply (f_equal snd) in E. simpl in E. rewrite <- E.
    split; vm_compute; reflexivity. }
  destruct st' as [b f c ch]; simpl in *. destruct Hrest as [-> ->].
  rewrite We, Wc, Wf. vm_compute. reflexivity.
Defined.

(** ** The conversation store *)

(** What [checkPath] has established when it succeeds. *)
Lemma checkPath_Ok (wd : option bytes) (base f a : bytes) :
  checkPath wd base f = Ok a ->
  exists absBase,
    filepath_Abs wd base = Ok absBase
    /\ filepath_Abs wd f = Ok a
    /\ (a = absBase \/ HasPrefix a (absBase ++ [PathSeparator]) = true).
Proof.
  unfold checkPath.
  destruct (filepath_Abs wd f) as [absFile|e]; [|discriminate].
  destruct (filepath_Abs wd base) as [absBase|e]; [|discriminate].
  destruct (HasPrefix absFile (absBase ++ [PathSeparator])) eqn:Ep;
    destruct (bytes_eqb absFile absBase) eqn:Ee; simpl;
    try discriminate; intros H; inversion H; subst a;
    exists absBase; repeat split; auto.
  left. now apply bytes_eqb_eq.
Qed.

(** X5.  Whatever the identifier of the conversation, [Save] either
    returns an error without any call to the filesystem, or is one
    call of [os.WriteFile] on the absolute form of the path of the
    record, and that path is, as a text, the absolute base directory
    or the base directory followed by a separator and more.  The
    check is on the text of the paths: what a link found at such a
    path leads to is not looked at. *)
Theorem Save_opens_only_paths_under_base :
  forall (marshalIndent : Thread -> result bytes) (st : FSStore)
         (th : Thread) (fs : FS),
    (exists e, FSStore_Save marshalIndent st th fs = (Some e, fs))
    \/ exists data absBase p,
         marshalIndent th = Ok data
         /\ filepath_Abs (cwd fs) (basePath st) = Ok absBase
         /\ filepath_Abs (cwd fs)
              (filepath_Join [basePath st; ID th ++ bs ".json"]) = Ok p
         /\ (p = absBase \/ HasPrefix p (absBase ++ [PathSeparator]) = true)
         /\ FSStore_Save marshalIndent st th fs = os_WriteFile fs p data.
Proof.
  intros marshalIndent st th fs.
  unfold FSStore_Save.
  destruct (marshalIndent th) as [data|e]; [|left; eauto].
  unfold safeWriteFile.
  destruct (checkPath (cwd fs) (basePath st)
              (filepath_Join [basePath st; ID th ++ bs ".json"]))
    as [p|e] eqn:Ec; [|left; eauto].
  destruct (checkPath_Ok _ _ _ _ Ec) as (b & Hb & Hp & Hin).
  right. exists data, b, p. auto.
Qed.

(** An identifier that climbs out of the base directory: the path is
    refused and nothing is written. *)
Example Save_refuses_climbing_identifier :
  Save sample_store thread_climbing sample_fs_abc =
    (Some (ErrPathViolation (bs "/home/u/etc/passwd.json")), sample_fs_abc).
Proof. vm_compute. reflexivity. Qed.

Lemma List_scan_cons (unmarshal : bytes -> option Thread) (st : FSStore)
    (fs : FS) (n : bytes) (names : list bytes) :
  List_scan unmarshal st fs (n :: names) =
    if mem (child (basePath st) n) (dirs fs)
       || negb (HasSuffix n (bs ".json"))
    then List_scan unmarshal st fs names
    else
      match safeReadFile fs (basePath st)
              (filepath_Join [basePath st; n]) with
      | Err _ => List_scan unmarshal st fs names
      | Ok data =>
          match unmarshal data with
          | Some th => th :: List_scan unmarshal st fs names
          | None => List_scan unmarshal st fs names
          end
      end.
Proof. reflexivity. Qed.

(** The threads [List] collects. *)
Lemma List_scan_In (unmarshal : bytes -> option Thread) (st : FSStore)
    (fs : FS) (names : list bytes) (th : Thread) :
  In th (List_scan unmarshal st fs names) <->
  exists name data,
    In name names
    /\ mem (child (basePath st) name) (dirs fs) = false
    /\ HasSuffix name (bs ".json") = true
    /\ safeReadFile fs (basePath st) (filepath_Join [basePath st; name])
       = Ok data
    /\ unmarshal data = Some th.
Proof.
  induction names as [|n names IH].
  - simpl. split; [tauto | intros (? & ? & [] & _)].
  - rewrite List_scan_cons.
    assert (Hskip : In th (List_scan unmarshal st fs names) ->
              exists name data,
                In name (n :: names)
                /\ mem (child (basePath st) name) (dirs fs) = false
                /\ HasSuffix name (bs ".json") = true
                /\ safeReadFile fs (basePath st)
                     (filepath_Join [basePath st; name]) = Ok data
                /\ unmarshal data = Some th).
    { rewrite IH. intros (name & data & Hin & H).
      exists name, data. split; [now right | exact H]. }
    destruct (mem (child (basePath st) n) (dirs fs)) eqn:Ed; simpl orb;
      cbv iota.
    { split; [exact Hskip|]. rewrite IH.
      intros (name & data & [->|Hin] & Hd & H); [congruence|].
      exists name, data. auto. }
    destruct (HasSuffix n (bs ".json")) eqn:Es; simpl negb; cbv iota.
    2:{ split; [exact Hskip|]. rewrite IH.
        intros (name & data & [->|Hin] & Hd & Hs & H); [congruence|].
        exists name, data. auto. }
    destruct (safeReadFile fs (basePath st)
                (filepath_Join [basePath st; n])) as [d|e] eqn:Er.
    2:{ split; [exact Hskip|]. rewrite IH.
        intros (name & data & [->|Hin] & Hd & Hs & Hr & H);
          [congruence|].
        exists name, data. auto. }
    destruct (unmarshal d) as [t|] eqn:Eu.
    + split.
      * intros [<- | Hin]; [|now apply Hskip].
        exists n, d. repeat split; auto. now left.
      * intros (name & data & [->|Hin] & Hd & Hs & Hr & Hu).
        -- left. congruence.
        -- right. apply IH. exists name, data. auto.
    + split; [exact Hskip|]. rewrite IH.
      intros (name & data & [->|Hin] & Hd & Hs & Hr & Hu);
        [congruence|].
      exists name, data. auto.
Qed.

Lemma HasSuffix_length (n s : bytes) :
  HasSuffix n s = true -> (length s <= length n)%nat.
Proof.
  unfold HasSuffix. intros H. apply HasPrefix_iff in H.
  destruct H as [r E]. apply (f_equal (@length byte)) in E.
  rewrite length_app, !length_rev in E. lia.
Qed.

Lemma HasSuffix_app (a s : bytes) : HasSuffix (a ++ s) s = true.
Proof. unfold HasSuffix. rewrite rev_app_distr. apply HasPrefix_app. Qed.

Lemma json_entry_plain (fs : FS) (dir name : bytes) (names : list bytes) :
  os_ReadDir fs dir = Ok names -> In name names ->
  HasSuffix name (bs ".json") = true -> plain name.
Proof.
  intros Hdir Hin Hs.
  destruct (os_ReadDir_resolved _ _ _ Hdir) as (d & _ & _ & P).
  apply (Permutation_in _ P) in Hin. apply entries_wf in Hin.
  apply HasSuffix_length in Hs. change (length (bs ".json")) with 5%nat in Hs.
  destruct Hin as [H1 H2]. repeat split; auto.
  - intros ->. simpl in Hs. lia.
  - intros ->. simpl in Hs. lia.
Qed.

Lemma os_ReadFile_Ok_not_dir (fs : FS) (p data : bytes) :
  os_ReadFile fs p = Ok data -> mem p (dirs fs) = false.
Proof.
  unfold os_ReadFile. destruct (mem p (dirs fs)); [discriminate | auto].
Qed.

(** X6.  Once the base directory can be read, [List] does not fail,
    and it returns exactly the conversations that decode from the
    readable files of the base directory whose name ends in [.json]:
    a file that does not decode, a file with another suffix and a
    directory are skipped without an error. *)
Theorem List_returns_the_decodable_conversations :
  forall (unmarshal : bytes -> option Thread) (st : FSStore) (fs : FS)
         (names : list bytes) (cb : list bytes),
    basePath st = rootedPath cb -> Forall plain cb -> cb <> [] ->
    os_ReadDir fs (basePath st) = Ok names ->
    exists l,
      FSStore_List unmarshal st fs = Ok l
      /\ forall th,
           In th l <->
           exists name data,
             In name names
             /\ HasSuffix name (bs ".json") = true
             /\ os_ReadFile fs (child (basePath st) name) = Ok data
             /\ unmarshal data = Some th.
Proof.
  intros unmarshal st fs names cb Hb Hcb Hne Hdir.
  exists (List_scan unmarshal st fs names). split.
  - unfold FSStore_List. now rewrite Hdir.
  - intros th. rewrite List_scan_In. split.
    + intros (name & data & Hin & Hd & Hs & Hr & Hu).
      exists name, data. repeat split; auto.
      pose proof (json_entry_plain _ _ _ _ Hdir Hin Hs) as Hp.
      rewrite (Join_base (basePath st) cb Hb Hcb Hne name Hp) in Hr.
      unfold safeReadFile in Hr.
      now rewrite (checkPath_child (basePath st) cb Hb Hcb Hne
                     (cwd fs) name Hp) in Hr.
    + intros (name & data & Hin & Hs & Hr & Hu).
      exists name, data.
      pose proof (json_entry_plain _ _ _ _ Hdir Hin Hs) as Hp.
      repeat split; auto.
      * eapply os_ReadFile_Ok_not_dir; eassumption.
      * rewrite (Join_base (basePath st) cb Hb Hcb Hne name Hp).
        unfold safeReadFile.
        now rewrite (checkPath_child (basePath st) cb Hb Hcb Hne
                       (cwd fs) name Hp).
Qed.

Lemma List_returns_the_decodable_conversations_witness :
  basePath sample_store
    = rootedPath [bs "home"; bs "u"; bs ".plexctl"; bs "threads"]
  /\ os_ReadDir sample_fs_mixed (basePath sample_store)
     = Ok [bs "abc.json"; bs "broken.json"; bs "notes.txt"]
  /\ exists l,
       List sample_store sample_fs_mixed = Ok l
       /\ (In thread_abc l <->
           exists name data,
             In name [bs "abc.json"; bs "broken.json"; bs "notes.txt"]
             /\ HasSuffix name (bs ".json") = true
             /\ os_ReadFile sample_fs_mixed
                  (child (basePath sample_store) name) = Ok data
             /\ json_Unmarshal_Thread data = Some thread_abc).
Proof.
  assert (H1 : basePath sample_store
    = rootedPath [bs "home"; bs "u"; bs ".plexctl"; bs "threads"])
    by reflexivity.
  assert (H2 : Forall plain [bs "home"; bs "u"; bs ".plexctl"; bs "threads"]).
  { repeat constructor; try discriminate;
      intros F; vm_compute in F; intuition discriminate. }
  assert (H3 : [bs "home"; bs "u"; bs ".plexctl"; bs "threads"] <> [])
    by discriminate.
  assert (H4 : os_ReadDir sample_fs_mixed (basePath sample_store)
     = Ok [bs "abc.json"; bs "broken.json"; bs "notes.txt"])
    by (vm_compute; reflexivity).
  refine (conj H1 (conj H4 _)).
  destruct (List_returns_the_decodable_conversations json_Unmarshal_Thread
              sample_store sample_fs_mixed _ _ H1 H2 H3 H4) as (l & Hl & W).
  exists l. split; [exact Hl | apply W].
Defined.

(** One record that does not decode does not hide the others. *)
Example List_skips_the_broken_record :
  List sample_store sample_fs_mixed = Ok [thread_abc].
Proof. vm_compute. reflexivity. Qed.

Section StoreFacts.
Variable unmarshal : bytes -> option Thread.
Variable marshalIndent : Thread -> result bytes.

(** [Load], by the entries that match the prefix. *)
Lemma FSStore_Load_by_matching (st : FSStore) (fs : FS) (q : bytes)
    (names : list bytes) :
  os_ReadDir fs (basePath st) = Ok names ->
  FSStore_Load unmarshal st q fs =
    match matching q names with
    | [] => Err ErrNotFound
    | [n] =>
        match safeReadFile fs (basePath st)
                (filepath_Join [basePath st; n]) with
        | Err e => Err e
        | Ok data =>
            match unmarshal data with
            | None => Err ErrJSON
            | Some th => Ok th
            end
        end
    | _ :: _ :: _ => Err (ErrAmbiguousPrefix q)
    end.
Proof.
  intros Hdir. pose proof (os_ReadDir_nonempty _ _ _ Hdir) as Hne.
  unfold FSStore_Load. rewrite Hdir, Load_scan_matching by assumption.
  destruct (matching q names) as [|n [|n2 rest]] eqn:Em; try reflexivity.
  assert (Hn : n <> []).
  { assert (Hin : In n (matching q names)) by (rewrite Em; now left).
    unfold matching in Hin. apply filter_In in Hin.
    rewrite Forall_forall in Hne. apply Hne. tauto. }
  change (negb (bytes_eqb [] [])) with false. cbv iota.
  rewrite (proj2 (bytes_eqb_neq n [])) by assumption. reflexivity.
Qed.

(** [Save] of a conversation whose identifier is a file name. *)
Lemma FSStore_Save_writes (st : FSStore) (fs : FS) (th : Thread)
    (cb : list bytes) (data : bytes) :
  basePath st = rootedPath cb -> Forall plain cb -> cb <> [] ->
  mem (basePath st) (dirs fs) = true ->
  slashFree (ID th) ->
  mem (child (basePath st) (ID th ++ bs ".json")) (dirs fs) = false ->
  marshalIndent th = Ok data ->
  FSStore_Save marshalIndent st th fs =
    (None, {| cwd := cwd fs; dirs := dirs fs;
              files := update (child (basePath st) (ID th ++ bs ".json"))
                         data (files fs) |}).
Proof.
  intros Hb Hcb Hne Hbase Hid Hnodir Hm.
  assert (Hname : plain (ID th ++ bs ".json")) by now apply json_name_plain.
  unfold FSStore_Save. rewrite Hm.
  rewrite (Join_base (basePath st) cb Hb Hcb Hne _ Hname).
  unfold safeWriteFile.
  rewrite (checkPath_child (basePath st) cb Hb Hcb Hne (cwd fs) _ Hname).
  unfold os_WriteFile.
  rewrite (parentDir_child (basePath st) cb Hb Hcb Hne _) by apply Hname.
  rewrite Hnodir, Hbase. reflexivity.
Qed.

End StoreFacts.

(** X7.  A conversation that has been saved is listed: under the
    conditions under which [Save] writes the file, [List] on the
    resulting filesystem succeeds and the conversation is among the
    conversations it returns, whatever else the base directory
    holds. *)
Theorem Save_then_List_contains :
  forall (unmarshal : bytes -> option Thread)
         (marshalIndent : Thread -> result bytes)
         (st : FSStore) (fs : FS) (th : Thread)
         (cb : list bytes) (names : list bytes) (data : bytes),
    basePath st = rootedPath cb -> Forall plain cb -> cb <> [] ->
    os_ReadDir fs (basePath st) = Ok names ->
    slashFree (ID th) ->
    mem (child (basePath st) (ID th ++ bs ".json")) (dirs fs) = false ->
    marshalIndent th = Ok data ->
    unmarshal data = Some th ->
    exists fs' l,
      FSStore_Save marshalIndent st th fs = (None, fs')
      /\ FSStore_List unmarshal st fs' = Ok l
      /\ In th l.
Proof.
  intros unmarshal marshalIndent st fs th cb names data
    Hb Hcb Hne Hdir Hid Hnodir Hm Hu.
  assert (Habs : IsAbs (basePath st) = true) by (rewrite Hb; reflexivity).
  destruct (os_ReadDir_names _ _ _ Habs Hdir) as [Hbase _].
  assert (Hname : plain (ID th ++ bs ".json")) by now apply json_name_plain.
  remember (ID th ++ bs ".json") as name eqn:Ename.
  remember (child (basePath st) name) as p eqn:Ep.
  set (fs' := {| cwd := cwd fs; dirs := dirs fs;
                 files := update p data (files fs) |}).
  exists fs', (List_scan unmarshal st fs'
                 (sortNames (entries (basePath st)
                               (map fst (files fs') ++ dirs fs')))).
  split; [|split].
  - rewrite (FSStore_Save_writes marshalIndent st fs th cb data)
      by (rewrite <- ?Ename, <- ?Ep; assumption).
    rewrite <- Ename, <- Ep. reflexivity.
  - unfold FSStore_List. rewrite (os_ReadDir_abs _ _ Habs).
    simpl dirs. now rewrite Hbase.
  - apply List_scan_In. exists name, data. split; [|split; [|split; [|split]]].
    + apply (Permutation_in _ (Permutation_sym (sortNames_perm _))).
      apply entries_In. exists p. split.
      * simpl. apply in_or_app. left. apply update_keys. now left.
      * rewrite Ep. apply entryName_child; apply Hname.
    + simpl dirs. now rewrite <- Ep.
    + rewrite Ename. apply HasSuffix_app.
    + rewrite (Join_base (basePath st) cb Hb Hcb Hne name Hname).
      unfold safeReadFile.
      rewrite (checkPath_child (basePath st) cb Hb Hcb Hne _ name Hname).
      unfold os_ReadFile. simpl dirs. rewrite <- Ep, Hnodir.
      simpl files. now rewrite lookup_update.
    + exact Hu.
Qed.

Lemma Save_then_List_contains_witness :
  basePath sample_store
    = rootedPath [bs "home"; bs "u"; bs ".plexctl"; bs "threads"]
  /\ os_ReadDir sample_fs_mixed (basePath sample_store)
     = Ok [bs "abc.json"; bs "broken.json"; bs "notes.txt"]
  /\ slashFree (ID thread_abcd)
  /\ json_Unmarshal_Thread (json_MarshalIndent_Thread thread_abcd)
     = Some thread_abcd
  /\ exists fs' l,
       Save sample_store thread_abcd sample_fs_mixed = (None, fs')
       /\ List sample_store fs' = Ok l
       /\ In thread_abcd l.
Proof.
  assert (H1 : basePath sample_store
    = rootedPath [bs "home"; bs "u"; bs ".plexctl"; bs "threads"])
    by reflexivity.
  assert (H2 : Forall plain [bs "home"; bs "u"; bs ".plexctl"; bs "threads"]).
  { repeat constructor; try discriminate;
      intros F; vm_compute in F; intuition discriminate. }
  assert (H3 : [bs "home"; bs "u"; bs ".plexctl"; bs "threads"] <> [])
    by discriminate.
  assert (H4 : os_ReadDir sample_fs_mixed (basePath sample_store)
     = Ok [bs "abc.json"; bs "broken.json"; bs "notes.txt"])
    by (vm_compute; reflexivity).
  assert (H5 : slashFree (ID thread_abcd)).
  { intros F. vm_compute in F. intuition discriminate. }
  assert (H6 : mem (child (basePath sample_store)
                      (ID thread_abcd ++ bs ".json"))
                 (dirs sample_fs_mixed) = false) by (vm_compute; reflexivity).
  assert (H7 : json_Unmarshal_Thread (json_MarshalIndent_Thread thread_abcd)
               = Some thread_abcd) by (vm_compute; reflexivity).
  refine (conj H1 (conj H4 (conj H5 (conj H7 _)))).
  exact (Save_then_List_contains json_Unmarshal_Thread
           (fun th => Ok (json_MarshalIndent_Thread th))
           sample_store sample_fs_mixed thread_abcd _ _ _
           H1 H2 H3 H4 H5 H6 eq_refl H7).
Defined.

Lemma filepath_Abs_error (wd : option bytes) (p : bytes) (e : error) :
  filepath_Abs wd p = Err e -> exists op q, e = ErrOS op q.
Proof.
  unfold filepath_Abs. destruct (IsAbs p); [discriminate|].
  destruct wd; [discriminate|]. intros H. inversion H. eauto.
Qed.

Lemma safeReadFile_error (fs : FS) (base path : bytes) (e : error) :
  safeReadFile fs base path = Err e ->
  e = ErrPathViolation path \/ exists op p, e = ErrOS op p.
Proof.
  unfold safeReadFile, checkPath. intros H.
  destruct (filepath_Abs (cwd fs) path) as [a|e1] eqn:Ea.
  2:{ inversion H; subst. right. eapply filepath_Abs_error, Ea. }
  destruct (filepath_Abs (cwd fs) base) as [b|e1] eqn:Eb.
  2:{ inversion H; subst. right. eapply filepath_Abs_error, Eb. }
  destruct (negb (HasPrefix a (b ++ [PathSeparator])) && negb (bytes_eqb a b)).
  - inversion H. now left.
  - unfold os_ReadFile in H. destruct (mem a (dirs fs)).
    + inversion H. right. eauto.
    + destruct (lookup a (files fs)); [discriminate|].
      inversion H. right. eauto.
Qed.

Lemma ErrPathViolation_not_NotFound (p : bytes) :
  ErrPathViolation p <> ErrNotFound.
Proof. unfold ErrPathViolation, ErrNotFound. simpl. discriminate. Qed.

Lemma ErrPathViolation_not_Ambiguous (p q : bytes) :
  ErrPathViolation p <> ErrAmbiguousPrefix q.
Proof. unfold ErrPathViolation, ErrAmbiguousPrefix. simpl. discriminate. Qed.

Lemma ErrAmbiguous_not_NotFound (q : bytes) :
  ErrAmbiguousPrefix q <> ErrNotFound.
Proof. unfold ErrAmbiguousPrefix, ErrNotFound. simpl. discriminate. Qed.

(** X9.  The two errors of [Load] that speak of the prefix depend on
    the number of directory entries whose name starts with it, and on
    nothing else: [Load] reports that no conversation matches exactly
    when no entry does, and that the prefix is ambiguous exactly when
    two or more entries do; with one matching entry the outcome is
    that of reading and decoding this entry. *)
Theorem Load_errors_by_number_of_matches :
  forall (unmarshal : bytes -> option Thread)
         (st : FSStore) (fs : FS) (q : bytes) (names : list bytes),
    os_ReadDir fs (basePath st) = Ok names ->
    (FSStore_Load unmarshal st q fs = Err ErrNotFound
       <-> matching q names = [])
    /\ (FSStore_Load unmarshal st q fs = Err (ErrAmbiguousPrefix q)
       <-> (2 <= length (matching q names))%nat).
Proof.
  intros unmarshal st fs q names Hdir.
  rewrite (FSStore_Load_by_matching unmarshal st fs q names Hdir).
  destruct (matching q names) as [|n [|n2 rest]] eqn:Em; simpl length.
  - split; split; intros H; try reflexivity; try lia.
    assert (E : ErrAmbiguousPrefix q = ErrNotFound) by congruence.
    now apply ErrAmbiguous_not_NotFound in E.
  - assert (Hno : forall e0,
      (e0 = ErrNotFound \/ e0 = ErrAmbiguousPrefix q) ->
      match safeReadFile fs (basePath st) (filepath_Join [basePath st; n]) with
      | Err e => Err e
      | Ok data => match unmarshal data with
                   | Some th => Ok th
                   | None => Err ErrJSON
                   end
      end <> Err e0).
    { intros e0 He0 H.
      destruct (safeReadFile fs (basePath st) (filepath_Join [basePath st; n]))
        as [data|e] eqn:Er.
      - destruct (unmarshal data); [discriminate|].
        assert (E : e0 = ErrJSON) by congruence.
        destruct He0 as [E0|E0]; rewrite E0 in E; discriminate E.
      - assert (E0 : e = e0) by congruence. subst e0.
        destruct (safeReadFile_error _ _ _ _ Er) as [E|(op & p & E)].
        + destruct He0 as [E0|E0]; rewrite E0 in E.
          * symmetry in E. now apply ErrPathViolation_not_NotFound in E.
          * symmetry in E. now apply ErrPathViolation_not_Ambiguous in E.
        + destruct He0 as [E0|E0]; rewrite E0 in E; discriminate E. }
    split; split; intros H; try discriminate; try lia.
    + exfalso. revert H. apply Hno. now left.
    + exfalso. revert H. apply Hno. now right.
  - split; split; intros H; try reflexivity; try lia.
    + assert (E : ErrAmbiguousPrefix q = ErrNotFound) by congruence.
      now apply ErrAmbiguous_not_NotFound in E.
    + discriminate H.
Qed.

Lemma Load_errors_by_number_of_matches_witness :
  os_ReadDir sample_fs_both (basePath sample_store)
    = Ok [bs "abc.json"; bs "abcd.json"]
  /\ matching (bs "x") [bs "abc.json"; bs "abcd.json"] = []
  /\ Load sample_store (bs "x") sample_fs_both = Err ErrNotFound
  /\ length (matching (bs "ab") [bs "abc.json"; bs "abcd.json"]) = 2%nat
  /\ Load sample_store (bs "ab") sample_fs_both
     = Err (ErrAmbiguousPrefix (bs "ab")).
Proof.
  assert (H : os_ReadDir sample_fs_both (basePath sample_store)
              = Ok [bs "abc.json"; bs "abcd.json"]) by (vm_compute; reflexivity).
  assert (M1 : matching (bs "x") [bs "abc.json"; bs "abcd.json"] = [])
    by (vm_compute; reflexivity).
  assert (M2 : length (matching (bs "ab") [bs "abc.json"; bs "abcd.json"])
               = 2%nat) by (vm_compute; reflexivity).
  refine (conj H (conj M1 (conj _ (conj M2 _)))).
  - exact (proj2 (proj1 (Load_errors_by_number_of_matches
             json_Unmarshal_Thread sample_store sample_fs_both (bs "x") _ H))
             M1).
  - apply (proj2 (Load_errors_by_number_of_matches
             json_Unmarshal_Thread sample_store sample_fs_both (bs "ab") _ H)).
    rewrite M2. apply le_n.
Defined.

Lemma shortID_prefix (id : bytes) : HasPrefix id (shortID id) = true.
Proof.
  unfold shortID, slice_to.
  destruct (idTruncLen <? len id); [|apply HasPrefix_refl].
  rewrite <- (firstn_skipn (Z.to_nat idTruncLen) id) at 1.
  apply HasPrefix_app.
Qed.

Lemma shortID_len (id : bytes) : len (shortID id) <= idTruncLen.
Proof.
  unfold shortID, slice_to, len, idTruncLen.
  destruct (8 <? Z.of_nat (length id)) eqn:E.
  - rewrite length_firstn. lia.
  - apply Z.ltb_ge in E. exact E.
Qed.

(** X10.  The identifier as the thread commands print it, cut to
    [idTruncLen] bytes, is at most that long and is a prefix of the
    full identifier; given back to [Load], it never makes [Load]
    report that no conversation matches as long as the record of the
    conversation is in the base directory. *)
Theorem shortID_is_found :
  forall (unmarshal : bytes -> option Thread)
         (st : FSStore) (fs : FS) (id : bytes) (names : list bytes),
    os_ReadDir fs (basePath st) = Ok names ->
    In (id ++ bs ".json") names ->
    len (shortID id) <= idTruncLen
    /\ HasPrefix id (shortID id) = true
    /\ FSStore_Load unmarshal st (shortID id) fs <> Err ErrNotFound.
Proof.
  intros unmarshal st fs id names Hdir Hin.
  split; [apply shortID_len|]. split; [apply shortID_prefix|].
  intros H.
  rewrite (FSStore_Load_by_matching unmarshal st fs _ names Hdir) in H.
  assert (Hm : In (id ++ bs ".json") (matching (shortID id) names)).
  { unfold matching. apply filter_In. split; [assumption|].
    pose proof (shortID_prefix id) as Hp.
    apply HasPrefix_iff in Hp. destruct Hp as [r Hr].
    rewrite Hr at 1. rewrite <- app_assoc. apply HasPrefix_app. }
  destruct (matching (shortID id) names) as [|n [|n2 rest]] eqn:Em.
  - destruct Hm.
  - destruct (safeReadFile fs (basePath st) (filepath_Join [basePath st; n]))
      as [data|e] eqn:Er.
    + destruct (unmarshal data); discriminate.
    + assert (E : e = ErrNotFound) by congruence.
      destruct (safeReadFile_error _ _ _ _ Er) as [E1|(op & p & E1)];
        rewrite E1 in E; [|discriminate E].
      now apply ErrPathViolation_not_NotFound in E.
  - assert (E : ErrAmbiguousPrefix (shortID id) = ErrNotFound) by congruence.
    now apply ErrAmbiguous_not_NotFound in E.
Qed.

Lemma shortID_is_found_witness :
  os_ReadDir sample_fs_long (basePath sample_store)
    = Ok [bs "5HueCGU8rMjxEXxiPuD5BDku.json"; bs "abc.json"]
  /\ shortID (ID thread_long) = bs "5HueCGU8"
  /\ len (shortID (ID thread_long)) <= idTruncLen
  /\ HasPrefix (ID thread_long) (shortID (ID thread_long)) = true
  /\ Load sample_store (shortID (ID thread_long)) sample_fs_long
     <> Err ErrNotFound.
Proof.
  assert (H : os_ReadDir sample_fs_long (basePath sample_store)
    = Ok [bs "5HueCGU8rMjxEXxiPuD5BDku.json"; bs "abc.json"])
    by (vm_compute; reflexivity).
  assert (Hin : In (ID thread_long ++ bs ".json")
                  [bs "5HueCGU8rMjxEXxiPuD5BDku.json"; bs "abc.json"])
    by (left; reflexivity).
  refine (conj H (conj eq_refl _)).
  exact (shortID_is_found json_Unmarshal_Thread sample_store sample_fs_long
           (ID thread_long) _ H Hin).
Defined.

(* ----------------------------------------------------------------- *)
(** ** The paced emitter: bounds *)

Lemma stepsLeft_nonneg (e : emitter) : 0 <= stepsLeft e.
Proof.
  unfold stepsLeft, len. destruct (pr e), (fd e); lia.
Qed.

Lemma step_queue_bound (e e' : emitter) :
  step e e' ->
  len (queue e) <= smoothPrintBufferSize ->
  len (queue e') <= smoothPrintBufferSize.
Proof.
  unfold smoothPrintBufferSize, len.
  intros Hs. destruct Hs; simpl queue; rewrite ?length_app; simpl length;
    try lia.
  unfold smoothPrintBufferSize, len in *. lia.
Qed.

(** X11.  The channel between [readSSE] and the printer never holds
    more than [smoothPrintBufferSize] runes, and a call that submits
    [n] runes is over after at most [3 * n + 3] channel operations and
    ticks, however the two goroutines interleave. *)
Theorem paced_emitter_bounds :
  forall (submitted : list rune) (n : nat) (e : emitter),
    run n (emitter0 submitted) e ->
    len (queue e) <= smoothPrintBufferSize
    /\ Z.of_nat n <= 3 * len submitted + 3.
Proof.
  intros submitted n e Hrun.
  assert (H : len (queue e) <= smoothPrintBufferSize
              /\ Z.of_nat n + stepsLeft e <= 3 * len submitted + 3).
  { remember (emitter0 submitted) as e0 eqn:E0.
    induction Hrun as [e|n e1 e2 e3 Hr IH Hs].
    - subst e. unfold stepsLeft, emitter0, smoothPrintBufferSize, len.
      simpl. lia.
    - destruct (IH E0) as [Hq Hn]. split.
      + eapply step_queue_bound; eassumption.
      + apply step_decreases in Hs. lia. }
  destruct H as [Hq Hn]. split; [exact Hq|].
  pose proof (stepsLeft_nonneg e). lia.
Qed.

Lemma paced_emitter_bounds_witness :
  run 2 (emitter0 [72; 105])
    {| pending := []; queue := [72; 105]; closed := false;
       cancelled := false; pr := AtSelect; fd := Sending; sink := [] |}
  /\ len [72; 105] <= smoothPrintBufferSize
  /\ 2 <= 3 * len [72; 105] + 3.
Proof.
  assert (R : run 2 (emitter0 [72; 105])
    {| pending := []; queue := [72; 105]; closed := false;
       cancelled := false; pr := AtSelect; fd := Sending; sink := [] |}).
  { eapply run_step; [eapply run_step; [apply run_nil|]|].
    - apply (step_send 72 [105] [] false AtSelect []). reflexivity.
    - apply (step_send 105 [] [72] false AtSelect []). reflexivity. }
  refine (conj R _).
  exact (paced_emitter_bounds [72; 105] 2 _ R).
Defined.

(* ----------------------------------------------------------------- *)
(** ** The column of the first message *)

(** X12.  [snippet] returns at most [snippetLen + 3] bytes, which
    start with the first [snippetLen] bytes of the text (with the
    whole text when it is shorter), and a second application changes
    nothing. *)
Theorem snippet_bounded_and_stable :
  forall s : bytes,
    len (snippet s) <= snippetLen + 3
    /\ HasPrefix (snippet s) (slice_to s snippetLen) = true
    /\ snippet (snippet s) = snippet s.
Proof.
  intros s. unfold snippet, slice_to, snippetLen, len.
  change (Z.to_nat 50) with 50%nat.
  destruct (50 <? Z.of_nat (length s)) eqn:E.
  - apply Z.ltb_lt in E.
    assert (Hl : length (firstn 50 s) = 50%nat)
      by (rewrite length_firstn; lia).
    split; [|split].
    + rewrite length_app, Hl. simpl. lia.
    + apply HasPrefix_app.
    + rewrite length_app, Hl.
      change (50 <? Z.of_nat (50 + length (bs "..."))) with true. cbv iota.
      rewrite firstn_app, Hl, Nat.sub_diag, firstn_O, app_nil_r.
      rewrite firstn_firstn. reflexivity.
  - rewrite E. apply Z.ltb_ge in E.
    split; [lia|]. split; [|reflexivity].
    rewrite firstn_all2 by lia. apply HasPrefix_refl.
Qed.

(* ----------------------------------------------------------------- *)
(** ** The command [get] *)

Section GetFacts.
Context {S W : Type} `{ThreadStore S W}.


Lemma withAssistant_user (th0 : Thread) (query text : bytes) :
  withAssistant
    {| ID := ID th0;
       Messages := Messages th0 ++
         [{| Role := bs "user"; Content := query |}] |} text
  = withTurn th0 query text.
Proof.
  unfold withAssistant, withTurn. simpl. now rewrite <- app_assoc.
Qed.

End GetFacts.



(** X14.  A turn that continues a conversation: when [--thread] is
    given and [Load] finds a conversation for it, and the stream ends
    without error with a text that is not empty, [get] asks the store
    to save the loaded conversation with the user message and the
    assistant message appended, under the identifier the record
    carries, and reports the error of that [Save] if there is one. *)
Theorem get_continues_the_loaded_conversation :
  forall (S W : Type) (TS : ThreadStore S W)
         (unmarshal : bytes -> option sseChunk) (store : S)
         (threadID : bytes) (args : list bytes) (newID : bytes)
         (reader : list event) (w : W) (th0 : Thread) (out : sseOutcome),
    threadID <> [] ->
    Load store threadID w = Ok th0 ->
    readSSE unmarshal reader = Some out ->
    ret_err out = None ->
    ret_final out <> [] ->
    exists printed,
      getCmd_RunE unmarshal store threadID args newID (Ok reader) w =
        Some (option_map (ErrWrap (bs "save thread"))
                (fst (Save store
                        (withTurn th0 (join (bs " ") args) (ret_final out))
                        w)),
              snd (Save store
                     (withTurn th0 (join (bs " ") args) (ret_final out)) w),
              printed).
Proof.
  intros S W TS unmarshal store threadID args newID reader w th0 out
    Hid Hload Hrun Herr Hne.
  unfold getCmd_RunE, handleThreadLogic.
  rewrite (proj2 (bytes_eqb_neq threadID [])) by assumption.
  simpl negb. cbv iota. rewrite Hload.
  unfold streamCompletion. rewrite Hrun, Herr.
  destruct (handleCompletionResponse_text store
              {| ID := ID th0;
                 Messages := Messages th0 ++
                   [{| Role := bs "user";
                       Content := join (bs " ") args |}] |}
              (ret_final out) (ret_citations out) w Hne) as [p Ep].
  rewrite Ep, withAssistant_user. eauto.
Qed.

Lemma get_continues_the_loaded_conversation_witness :
  Load sample_store (bs "ab") sample_fs_abc = Ok thread_abc
  /\ readSSE json_Unmarshal_sseChunk events_hello =
       Some {| ret_final := bs "Hello"; ret_citations := [];
               ret_err := None; sent := runes (bs "Hello") |}
  /\ withTurn thread_abc (join (bs " ") [bs "and"; bs "then"]) (bs "Hello")
     = {| ID := bs "abc";
          Messages := [{| Role := bs "user"; Content := bs "hi" |};
                       {| Role := bs "user"; Content := bs "and then" |};
                       {| Role := bs "assistant";
                          Content := bs "Hello" |}] |}
  /\ exists printed,
       getCmd_RunE json_Unmarshal_sseChunk sample_store (bs "ab")
         [bs "and"; bs "then"] (bs "unused") (Ok events_hello) sample_fs_abc
       = Some (option_map (ErrWrap (bs "save thread"))
                 (fst (Save sample_store
                         (withTurn thread_abc
                            (join (bs " ") [bs "and"; bs "then"])
                            (bs "Hello")) sample_fs_abc)),
               snd (Save sample_store
                      (withTurn thread_abc
                         (join (bs " ") [bs "and"; bs "then"])
                         (bs "Hello")) sample_fs_abc),
               printed).
Proof.
  assert (H0 : bs "ab" <> []) by discriminate.
  assert (H1 : Load sample_store (bs "ab") sample_fs_abc = Ok thread_abc)
    by (vm_compute; reflexivity).
  assert (H2 : readSSE json_Unmarshal_sseChunk events_hello =
       Some {| ret_final := bs "Hello"; ret_citations := [];
               ret_err := None; sent := runes (bs "Hello") |})
    by (vm_compute; reflexivity).
  assert (H3 : bs "Hello" <> []) by discriminate.
  refine (conj H1 (conj H2 (conj eq_refl _))).
  exact (get_continues_the_loaded_conversation _ _ _
           json_Unmarshal_sseChunk sample_store (bs "ab")
           [bs "and"; bs "then"] (bs "unused") events_hello sample_fs_abc
           thread_abc _ H0 H1 H2 eq_refl H3).
Defined.

(* ----------------------------------------------------------------- *)
(** ** The store [NewFSStore] makes *)

Lemma NewFSStore_keeps (h : bytes) (fs fs' : FS) (st : FSStore) :
  NewFSStore (Ok h) fs = (Ok st, fs') ->
  files fs' = files fs /\ cwd fs' = cwd fs
  /\ forall d, In d (dirs fs) -> In d (dirs fs').
Proof.
  unfold NewFSStore, os_MkdirAll.
  destruct (resolve fs _); [|discriminate].
  destruct (find _ _); [discriminate|].
  intros H. inversion H; subst. simpl. split; [reflexivity|].
  split; [reflexivity|]. intros d Hd. apply in_or_app. now left.
Qed.

(** X15.  With an absolute home directory, a store that [NewFSStore]
    returns can be used at once: its base directory is an absolute
    clean path and exists, the files and directories that were there
    are kept, [List] succeeds, and [Save] succeeds for every
    conversation whose identifier has no separator, that can be
    encoded, and whose file name is not the name of a directory. *)
Theorem NewFSStore_store_is_usable :
  forall (unmarshal : bytes -> option Thread)
         (marshalIndent : Thread -> result bytes)
         (h : bytes) (fs fs' : FS) (st : FSStore),
    IsAbs h = true ->
    NewFSStore (Ok h) fs = (Ok st, fs') ->
    canonical (basePath st)
    /\ mem (basePath st) (dirs fs') = true
    /\ files fs' = files fs
    /\ (forall d, In d (dirs fs) -> In d (dirs fs'))
    /\ (exists l, FSStore_List unmarshal st fs' = Ok l)
    /\ (forall th data,
          slashFree (ID th) ->
          marshalIndent th = Ok data ->
          mem (child (basePath st) (ID th ++ bs ".json")) (dirs fs') = false ->
          fst (FSStore_Save marshalIndent st th fs') = None).
Proof.
  intros unmarshal marshalIndent h fs fs' st Habs Hnew.
  destruct (NewFSStore_base h fs fs' st Habs Hnew)
    as (cb & Hb & Hcb & Hne & Hdir).
  destruct (NewFSStore_keeps h fs fs' st Hnew) as (Hf & _ & Hd).
  split; [now exists cb|]. split; [exact Hdir|]. split; [exact Hf|].
  split; [exact Hd|]. split.
  - unfold FSStore_List. rewrite os_ReadDir_abs by (rewrite Hb; reflexivity).
    rewrite Hdir. eauto.
  - intros th data Hid Hm Hnodir.
    rewrite (FSStore_Save_writes marshalIndent st fs' th cb data);
      auto.
Qed.

Lemma NewFSStore_store_is_usable_witness :
  IsAbs (bs "/home/u") = true
  /\ NewFSStore (Ok (bs "/home/u"))
       {| cwd := Some (bs "/home/u");
          dirs := [bs "/"; bs "/home"; bs "/home/u"]; files := [] |}
     = (Ok sample_store, sample_fs0)
  /\ canonical (basePath sample_store)
  /\ mem (basePath sample_store) (dirs sample_fs0) = true
  /\ files sample_fs0 = []
  /\ (forall d, In d [bs "/"; bs "/home"; bs "/home/u"] ->
        In d (dirs sample_fs0))
  /\ (exists l, List sample_store sample_fs0 = Ok l)
  /\ (forall th data,
        slashFree (ID th) ->
        Ok (json_MarshalIndent_Thread th) = Ok data ->
        mem (child (basePath sample_store) (ID th ++ bs ".json"))
          (dirs sample_fs0) = false ->
        fst (Save sample_store th sample_fs0) = None).
Proof.
  assert (H1 : IsAbs (bs "/home/u") = true) by reflexivity.
  assert (H2 : NewFSStore (Ok (bs "/home/u"))
       {| cwd := Some (bs "/home/u");
          dirs := [bs "/"; bs "/home"; bs "/home/u"]; files := [] |}
     = (Ok sample_store, sample_fs0)) by (vm_compute; reflexivity).
  refine (conj H1 (conj H2 _)).
  exact (NewFSStore_store_is_usable json_Unmarshal_Thread
           (fun th => Ok (json_MarshalIndent_Thread th))
           (bs "/home/u") _ sample_fs0 sample_store H1 H2).
Defined.

(* ----------------------------------------------------------------- *)
(** ** What [checkPath] returns *)

Lemma IsAbs_rootedPath (cs : list bytes) : IsAbs (rootedPath cs) = true.
Proof. reflexivity. Qed.

Lemma filepath_Abs_canonical_id (wd : option bytes) (a : bytes) :
  canonical a -> filepath_Abs wd a = Ok a.
Proof.
  intros (cs & Hcs & ->). unfold filepath_Abs.
  now rewrite IsAbs_rootedPath, Clean_rootedPath.
Qed.

(** X16.  The path [checkPath] returns is absolute and clean, whatever
    the form of the path it was given, and [checkPath] accepts it
    again unchanged: what [safeReadFile] and [safeWriteFile] open is
    the path that was checked. *)
Theorem checkPath_returns_checked_path :
  forall (wd : option bytes) (basePath filePath absFile : bytes),
    (forall d, wd = Some d -> IsAbs d = true) ->
    checkPath wd basePath filePath = Ok absFile ->
    canonical absFile
    /\ checkPath wd basePath absFile = Ok absFile.
Proof.
  intros wd base f a Hwd H. unfold checkPath in H.
  destruct (filepath_Abs wd f) as [af|e] eqn:Ef; [|discriminate].
  destruct (filepath_Abs wd base) as [ab|e] eqn:Eb; [|discriminate].
  destruct (negb (HasPrefix af (ab ++ [PathSeparator]))
            && negb (bytes_eqb af ab)) eqn:Ec; [discriminate|].
  inversion H; subst af.
  assert (Hc : canonical a) by (eapply filepath_Abs_canonical; eassumption).
  split; [exact Hc|].
  unfold checkPath. rewrite (filepath_Abs_canonical_id wd a Hc), Eb, Ec.
  reflexivity.
Qed.

Lemma checkPath_returns_checked_path_witness :
  checkPath (Some (bs "/home/u")) (bs "/home/u/.plexctl/threads")
    (bs ".plexctl//threads/x/../abc.json")
  = Ok (bs "/home/u/.plexctl/threads/abc.json")
  /\ canonical (bs "/home/u/.plexctl/threads/abc.json")
  /\ checkPath (Some (bs "/home/u")) (bs "/home/u/.plexctl/threads")
       (bs "/home/u/.plexctl/threads/abc.json")
     = Ok (bs "/home/u/.plexctl/threads/abc.json").
Proof.
  assert (H1 : forall d, Some (bs "/home/u") = Some d -> IsAbs d = true).
  { intros d E. inversion E. reflexivity. }
  assert (H2 : checkPath (Some (bs "/home/u")) (bs "/home/u/.plexctl/threads")
    (bs ".plexctl//threads/x/../abc.json")
  = Ok (bs "/home/u/.plexctl/threads/abc.json")) by (vm_compute; reflexivity).
  refine (conj H2 _).
  exact (checkPath_returns_checked_path _ _ _ _ H1 H2).
Defined.
